(** * Color Stroop task (lesca_tasks/commands/stroop_color.py)

    A shallow embedding of the trial catalog, the balanced sampler, the
    block/session composer, the session runner and the repetition
    controller, together with the properties stated about them.

    Conventions of the embedding:
    - Python exceptions are results [Raise e] of the error monad [Res];
    - a numpy [Generator] is a value of an abstract type [G] that every
      drawing function takes and returns (explicit state passing); the
      legacy global state behind [np.random.*] is a second abstract type
      threaded by the monad [M];
    - numpy draws are specified at the level of the indices they pick,
      by the interface [Generator] and its laws;
    - floats are IEEE binary64 values (primitive floats);
    - console output ([print]) is not modelled. *)

From Stdlib Require Import ZArith String Ascii Floats Lia.
From stdpp Require Import base list strings.

Local Open Scope string_scope.
Local Open Scope Z_scope.
Local Open Scope list_scope.

(** ** Exceptions and the error monad *)

Inductive exn : Type :=
| ValueError
| KeyError
| IndexError
| AssertionError
| RecursionError
| TypeError
| StopIteration
| UnknownLanguage
| AbortBlockException
(** not an exception: the call blocks forever *)
| WaitsForever.

Inductive Res (A : Type) : Type :=
| Ok (a : A)
| Raise (e : exn).
Arguments Ok {A} a.
Arguments Raise {A} e.

Definition res_bind {A B : Type} (m : Res A) (k : A → Res B) : Res B :=
  match m with
  | Ok a => k a
  | Raise e => Raise e
  end.

Notation "'let*' x ':=' m 'in' k" := (res_bind m (fun x => k))
  (at level 10, x name, m at level 100, k at level 200, only parsing).
Notation "'let*' ' pat ':=' m 'in' k" :=
  (res_bind m (fun x => match x with pat => k end))
  (at level 10, pat pattern, m at level 100, k at level 200, only parsing).

Fixpoint res_mapM {A B : Type} (f : A → Res B) (l : list A) : Res (list B) :=
  match l with
  | [] => Ok []
  | a :: l' => let* b := f a in let* bs := res_mapM f l' in Ok (b :: bs)
  end.

Definition is_Ok {A : Type} (r : Res A) : bool :=
  match r with Ok _ => true | Raise _ => false end.

(** ** Python containers *)

Definition len {A : Type} (l : list A) : Z := Z.of_nat (length l).

(** [l[i]] with Python's negative indices. *)
Definition py_getitem {A : Type} (l : list A) (i : Z) : Res A :=
  let j := if i <? 0 then len l + i else i in
  if (j <? 0) || (len l <=? j) then Raise IndexError
  else match l !! Z.to_nat j with
       | Some a => Ok a
       | None => Raise IndexError
       end.

(** A dict as an association list in insertion order; [d[k]]. *)
Fixpoint dict_get {K V : Type} `{EqDecision K} (d : list (K * V)) (k : K)
  : Res V :=
  match d with
  | [] => Raise KeyError
  | (k', v) :: d' => if decide (k' = k) then Ok v else dict_get d' k
  end.

(** ** Numbers: Python ints and floats *)

Inductive Num : Type :=
| NInt (z : Z)
| NFloat (f : float).

Definition float_of_Z (z : Z) : float :=
  if z <? 0 then PrimFloat.opp (PrimFloat.of_uint63 (Uint63.of_Z (- z)))
  else PrimFloat.of_uint63 (Uint63.of_Z z).

Definition to_float (n : Num) : float :=
  match n with
  | NInt z => float_of_Z z
  | NFloat f => f
  end.

Definition num_add (a b : Num) : Num :=
  match a, b with
  | NInt x, NInt y => NInt (x + y)
  | _, _ => NFloat (to_float a + to_float b)
  end.

Definition num_sub (a b : Num) : Num :=
  match a, b with
  | NInt x, NInt y => NInt (x - y)
  | _, _ => NFloat (to_float a - to_float b)
  end.

(** [a >= b] *)
Definition num_ge (a b : Num) : bool :=
  match a, b with
  | NInt x, NInt y => y <=? x
  | _, _ => PrimFloat.leb (to_float b) (to_float a)
  end.

(** ** Paradigm specification: Stim, Trial, Block, Session *)

Definition RGB : Type := Z * Z * Z.
Definition Key : Type := Z.

(** expyriment's key constants (pygame key codes). *)
Definition K_BACKSPACE : Key := 8.
Definition K_SPACE : Key := 32.
Definition K_e : Key := 101.
Definition K_q : Key := 113.
Definition K_r : Key := 114.
Definition K_w : Key := 119.

(** The expyriment stimuli the task builds; they are only handed back to
    the presentation layer. *)
Inductive XpStim : Type :=
| TextLine (text : string) (text_size : option Z) (text_colour : option RGB)
| TextBox (text : string) (text_size : Z)
| Rectangle (size : Num * Num) (line_width : Z) (colour : RGB)
| Picture (filename : string).

Definition NO_TRIGGER : option string := None.

Record Stim : Type := mkStim {
  stim_label : string;
  duration_ms : option Num;
  stim_char_ID : option string;
  expected_answer : option string;
  responses : option (list (Key * string));
  xp_stimuli : list XpStim
}.

Definition VOID_STIM : Stim := mkStim "void" (Some (NInt 0)) NO_TRIGGER None None [].

Record Trial : Type := mkTrial {
  trial_label : string;
  trial_char_ID : option string;
  stimuli : list Stim
}.

Record Block : Type := mkBlock {
  block_label : string;
  block_char_ID : option string;
  trials : list Trial;
  show_performance : bool
}.

Record Session : Type := mkSession {
  session_label : string;
  session_char_ID : option string;
  blocks : list Block
}.

(** The [exp_data] dict, for the keys the task reads. *)
Record ExpData : Type := mkExpData {
  language : string;
  subject_pin : string;
  SESSION_IDX : Z;
  TEST : bool;
  CROSS_SIZE : Z;
  TEXT_SIZE : Z;
  TXT_FRAME_PAD : Num;
  TXT_FRAME_LW : Z;
  TXT_FRAME_COLOR : RGB
}.

(** ** Vocabulary *)

Definition TR_FR : list (string * string) :=
  [ ("Preparing session...", "Preparation de la session...");
    ("Press space to start session", "Appuyez sur espace pour demarrer");
    ("xxxx", "xxxx");
    ("green", "vert");
    ("blue", "bleu");
    ("red", "rouge");
    ("yellow", "jaune");
    ("orange", "orange");
    ("purple", "violet");
    ("white", "blanc");
    ("but", "alors");
    ("when", "quand");
    ("for", "pour");
    ("with", "avec") ].

(** Translation given english word into given language *)
Definition tr (word language : string) : Res string :=
  if decide (language = "e") then Ok word
  else if decide (language = "f") then dict_get TR_FR word
  else Raise UnknownLanguage.

Definition upper_ascii (c : ascii) : ascii :=
  let n := nat_of_ascii c in
  if ((97 <=? n) && (n <=? 122))%nat then ascii_of_nat (n - 32) else c.

(** [str.upper()] on the ASCII vocabulary of the task. *)
Fixpoint upper (s : string) : string :=
  match s with
  | EmptyString => EmptyString
  | String c s' => String (upper_ascii c) (upper s')
  end.

Definition incongruences (colors : list (string * RGB))
  : list (string * string * RGB) :=
  flat_map
    (λ '(col_name, _),
       map (λ '(cn, col), (col_name, cn, col))
           (filter (λ '(cn, _), cn ≠ col_name) colors))
    colors.

Definition ALL_COLORS : list (string * RGB) :=
  [ ("green", (25, 255, 25));
    ("blue", (0, 0, 255));
    ("red", (255, 0, 0));
    ("yellow", (250, 255, 25));
    ("orange", (255, 127, 0));
    ("purple", (225, 0, 255));
    ("white", (255, 255, 255)) ].

Definition COLOR_NAMES : list (RGB * string) :=
  map (λ '(col_name, col_rgb), (col_rgb, col_name)) ALL_COLORS.

Definition white : RGB := (255, 255, 255).

Definition rest_stim (duration : Num) (exp : ExpData) (symbol : string) : Stim :=
  mkStim "Stim_rest" (Some duration) NO_TRIGGER None None
         [TextLine symbol (Some (CROSS_SIZE exp)) (Some white)].

Definition BLOCK_CHAR_ID_naming : list (string * string) :=
  [("control", "L"); ("congruent", "E"); ("incongruent", "G")].
Definition BLOCK_CHAR_ID_reading : list (string * string) :=
  [("control", "M"); ("congruent", "F"); ("incongruent", "H")].
Definition BLOCK_CHAR_ID_switching : string := "W".

Definition STIM_CHAR_ID : list (string * list (string * string)) :=
  [ ("naming", [("control", "X"); ("congruent", "C"); ("incongruent", "I")]);
    ("reading", [("control", "Y"); ("congruent", "T"); ("incongruent", "R")]) ].

Definition TRIAL_NX : Z := 0. (* Naming control *)
Definition TRIAL_NI : Z := 1. (* Naming incongruent *)
Definition TRIAL_RI : Z := 2. (* Reading incongruent *)

Definition TRIALS_SPEC : list (string * string) :=
  [ ("naming", "control");
    ("naming", "inhibition");
    ("reading", "inhibition") ].

Definition py_range (n : Z) : list Z := map Z.of_nat (seq 0 (Z.to_nat n)).

Fixpoint enumerate_from {A : Type} (start : Z) (l : list A) : list (Z * A) :=
  match l with
  | [] => []
  | a :: l' => (start, a) :: enumerate_from (start + 1) l'
  end.

Definition enumerate {A : Type} (l : list A) : list (Z * A) :=
  enumerate_from 0 l.

Definition sum (l : list Z) : Z := foldr Z.add 0 l.

(** ** numpy random number generation

    [Generator] is the interface of [numpy.random.Generator] for the
    calls the task makes.  A draw is specified by the indices it selects,
    which depend on the sizes involved and on the generator state only;
    the wrappers below apply them to the array at hand.  The laws are the
    guarantees numpy documents for each call. *)

Class Generator (G : Type) : Type := {
  (** [default_rng(seed)] *)
  default_rng : Z → G;
  (** one value of [rng.integers(low, high)], for [low < high] *)
  draw_integers : Z → Z → G → Z * G;
  (** the rearrangement [rng.shuffle] applies to an array of that length *)
  draw_permutation : nat → G → list nat * G;
  (** the indices of [rng.choice(a, size, replace=True)], by population
      size and sample size *)
  draw_indices : nat → nat → G → list nat * G;
  (** the indices of [rng.choice(a, size, replace=False)] *)
  draw_distinct_indices : nat → nat → G → list nat * G;
  (** [rng.random(size)] *)
  draw_random : nat → G → list float * G;
  (** [rng.exponential(scale, size)] *)
  draw_exponential : float → nat → G → list float * G;

  draw_integers_range : ∀ lo hi g,
    lo < hi → lo ≤ (draw_integers lo hi g).1 < hi;
  draw_permutation_perm : ∀ n g,
    (draw_permutation n g).1 ≡ₚ seq 0 n;
  draw_indices_length : ∀ pop n g,
    length (draw_indices pop n g).1 = n;
  draw_indices_bound : ∀ pop n g,
    (0 < pop)%nat → Forall (λ i, i < pop)%nat (draw_indices pop n g).1;
  draw_distinct_length : ∀ pop n g,
    (n ≤ pop)%nat → length (draw_distinct_indices pop n g).1 = n;
  draw_distinct_bound : ∀ pop n g,
    (n ≤ pop)%nat → Forall (λ i, i < pop)%nat (draw_distinct_indices pop n g).1;
  draw_distinct_NoDup : ∀ pop n g,
    (n ≤ pop)%nat → NoDup (draw_distinct_indices pop n g).1;
  draw_random_length : ∀ n g,
    length (draw_random n g).1 = n;
  draw_exponential_length : ∀ scale n g,
    length (draw_exponential scale n g).1 = n
}.

(** What a call of [choice] depends on besides its arguments: the legacy
    global [RandomState] behind [np.random.choice], and the room left on
    the call stack of the interpreter. *)
Class LegacyRandom (S : Type) : Type := {
  (** the indices of [np.random.choice(a, size, replace=False)] *)
  legacy_distinct_indices : nat → nat → S → list nat * S;
  (** how many nested calls of [choice] the call stack has room for when
      [choice] is called: the recursion limit of the interpreter less
      the frames in use; one more nested call raises [RecursionError] *)
  recursion_budget : nat;

  legacy_distinct_length : ∀ pop n s,
    (n ≤ pop)%nat → length (legacy_distinct_indices pop n s).1 = n;
  legacy_distinct_bound : ∀ pop n s,
    (n ≤ pop)%nat → Forall (λ i, i < pop)%nat (legacy_distinct_indices pop n s).1;
  legacy_distinct_NoDup : ∀ pop n s,
    (n ≤ pop)%nat → NoDup (legacy_distinct_indices pop n s).1
}.

(** [x[idx]] for an index array. *)
Definition take_at {A : Type} (x : list A) (idx : list nat) : Res (list A) :=
  res_mapM (λ i, match x !! i with
                 | Some a => Ok a
                 | None => Raise IndexError
                 end) idx.

(** [np.zeros(n, dtype=int) + v] *)
Definition np_zeros_plus (n : Z) (v : Z) : Res (list Z) :=
  if n <? 0 then Raise ValueError else Ok (replicate (Z.to_nat n) v).

(** [np.where(a == v)[0]] *)
Definition np_where_eq (a : list Z) (v : Z) : list Z :=
  map fst (filter (λ p, p.2 = v) (enumerate a)).

Section Sampling.
Context {G : Type} `{Generator G}.
Context {Gl : Type} `{LegacyRandom Gl}.

(** [rng.integers(low, high)] *)
Definition rng_integers (low high : Z) (rng : G) : Res (Z * G) :=
  if high <=? low then Raise ValueError
  else Ok (draw_integers low high rng).

(** [rng.shuffle(x)], returning the array it leaves in place. *)
Definition rng_shuffle {A : Type} (x : list A) (rng : G) : Res (list A * G) :=
  let '(p, rng') := draw_permutation (length x) rng in
  let* r := take_at x p in
  Ok (r, rng').

(** [rng.choice(x, size, replace=replace)] *)
Definition rng_choice {A : Type} (x : list A) (size : Z) (replace : bool)
    (rng : G) : Res (list A * G) :=
  if size <? 0 then Raise ValueError
  else
    let pop := length x in
    let n := Z.to_nat size in
    if (pop =? 0)%nat && negb (n =? 0)%nat then Raise ValueError
    else if replace then
      let '(idx, rng') := draw_indices pop n rng in
      let* r := take_at x idx in
      Ok (r, rng')
    else if (pop <? n)%nat then Raise ValueError
    else
      let '(idx, rng') := draw_distinct_indices pop n rng in
      let* r := take_at x idx in
      Ok (r, rng').

(** [rng.random(size)] and [rng.exponential(scale, size)] *)
Definition rng_random (size : Z) (rng : G) : Res (list float * G) :=
  if size <? 0 then Raise ValueError
  else Ok (draw_random (Z.to_nat size) rng).

Definition rng_exponential (scale : float) (size : Z) (rng : G)
  : Res (list float * G) :=
  if size <? 0 then Raise ValueError
  else Ok (draw_exponential scale (Z.to_nat size) rng).

(** Computations that may read and advance the global numpy state. *)
Definition M (A : Type) : Type := Gl → Res A * Gl.

Definition m_ret {A : Type} (a : A) : M A := λ s, (Ok a, s).

Definition m_bind {A B : Type} (m : M A) (k : A → M B) : M B :=
  λ s, match m s with
       | (Ok a, s') => k a s'
       | (Raise e, s') => (Raise e, s')
       end.

Definition m_lift {A : Type} (r : Res A) : M A := λ s, (r, s).

(** [np.random.choice(x, size, replace=False)] *)
Definition np_random_choice_no_replace {A : Type} (x : list A) (size : Z)
  : M (list A) :=
  λ s,
    if size <? 0 then (Raise ValueError, s)
    else
      let pop := length x in
      let n := Z.to_nat size in
      if (pop =? 0)%nat && negb (n =? 0)%nat then (Raise ValueError, s)
      else if (pop <? n)%nat then (Raise ValueError, s)
      else
        let '(idx, s') := legacy_distinct_indices pop n s in
        (take_at x idx, s').
End Sampling.

Notation "'let!' x ':=' m 'in' k" := (m_bind m (fun x => k))
  (at level 10, x name, m at level 100, k at level 200, only parsing).
Notation "'let!' ' pat ':=' m 'in' k" :=
  (m_bind m (fun x => match x with pat => k end))
  (at level 10, pat pattern, m at level 100, k at level 200, only parsing).

Section Choice.
Context {G : Type} `{Generator G}.
Context {Gl : Type} `{LegacyRandom Gl}.

(** [choice(l, nb_repetitions, balanced, rng)] for a generator supplied
    by the caller.  [depth] is the number of nested calls the call stack
    has room for; the balanced branch nests one call per [len(l)] items
    requested, and the call that finds no room raises Python's
    [RecursionError].  This is also what the recursion on an empty [l]
    ends in. *)
Fixpoint choice_rec {A : Type} (depth : nat) (l : list A)
    (nb_repetitions : Z) (balanced : bool) (rng : G) : M (list A * G) :=
  let x := l in
  if nb_repetitions <? len l then
    if negb balanced then
      m_lift (rng_choice x nb_repetitions true rng)
    else
      m_lift (rng_choice x nb_repetitions false rng)
  else
    if negb balanced then
      let! '(p, rng) := m_lift (rng_choice x (len x) false rng) in
      let! '(r, rng) := m_lift (rng_choice x (nb_repetitions - len x) true rng) in
      m_ret (p ++ r, rng)
    else
      let! '(p, rng) := m_lift (rng_choice x (len x) false rng) in
      match depth with
      | O => m_lift (Raise RecursionError)
      | S depth' =>
          let! '(r, rng) := choice_rec depth' x (nb_repetitions - len x) true rng in
          let! c := np_random_choice_no_replace (p ++ r) nb_repetitions in
          m_ret (c, rng)
      end.

Definition choice {A : Type} (l : list A) (nb_repetitions : Z)
    (balanced : bool) (rng : G) : M (list A * G) :=
  choice_rec recursion_budget l nb_repetitions balanced rng.
End Choice.

(** ** The sampler as the specification words it

    The contract of the balanced sampler, for comparison with [choice]:
    fewer items than candidates are drawn without replacement if
    [balanced], else with replacement; otherwise the result is one full
    permutation of the candidates followed by the remaining draws
    (recursively balanced if [balanced], else with replacement) and, only
    in the unbalanced branch, the concatenation is re-shuffled as a final
    pass.  All randomness is drawn from the generator of the caller. *)

Section ChoiceAsSpecified.
Context {G : Type} `{Generator G}.

Fixpoint choice_as_specified_rec {A : Type} (depth : nat) (candidates : list A)
    (n : Z) (balanced : bool) (rng : G) : Res (list A * G) :=
  if n <? len candidates then
    rng_choice candidates n (negb balanced) rng
  else
    let* '(permutation, rng) :=
      rng_choice candidates (len candidates) false rng in
    if balanced then
      match depth with
      | O => Raise RecursionError
      | S depth' =>
          let* '(extra, rng) :=
            choice_as_specified_rec depth' candidates (n - len candidates)
                                    true rng in
          Ok (permutation ++ extra, rng)
      end
    else
      let* '(extra, rng) :=
        rng_choice candidates (n - len candidates) true rng in
      rng_shuffle (permutation ++ extra) rng.

Definition choice_as_specified {A : Type} (candidates : list A) (n : Z)
    (balanced : bool) (rng : G) : Res (list A * G) :=
  choice_as_specified_rec (Z.to_nat n) candidates n balanced rng.
End ChoiceAsSpecified.

(** The sample of a result of the sampler, without the generator. *)
Definition sample_of {A G : Type} (r : Res (list A * G)) : Res (list A) :=
  let* '(sample, _) := r in Ok sample.

(** ** Event-related trial sequence *)

Section StroopSeq.
Context {G : Type} `{Generator G}.

(** Generate a random sequence of Stroop stimuli where switching trials
    are always after a naming_inhib trial. *)
Definition gen_random_stroop_seq
    (nb_naming_control nb_naming_inhib nb_switching : Z) (rng : G)
  : Res (list Z * G) :=
  if negb (nb_switching <? nb_naming_inhib) then Raise AssertionError
  else
    let* controls := np_zeros_plus nb_naming_control TRIAL_NX in
    let* inhibs := np_zeros_plus nb_naming_inhib TRIAL_NI in
    let* '(stim_seq, rng) := rng_shuffle (controls ++ inhibs) rng in
    (* rng.choice(nb_naming_inhib, ...) samples np.arange(nb_naming_inhib) *)
    let* '(itrial_ni_for_sw, rng) :=
      rng_choice (py_range nb_naming_inhib) nb_switching false rng in
    let* itrial_switching :=
      res_mapM (py_getitem (np_where_eq stim_seq TRIAL_NI)) itrial_ni_for_sw in
    let trial_seq :=
      flat_map (λ '(itrial, trial),
                  if decide (itrial ∈ itrial_switching)
                  then [trial; TRIAL_RI] else [trial])
               (enumerate stim_seq) in
    Ok (trial_seq, rng).
End StroopSeq.

(** ** class Strooper *)

Module Strooper.

(* Block design *)
Definition NB_BLOCKS_NAMING : Z := 4.
Definition NB_BLOCKS_SWITCHING : Z := 4.
Definition NB_BLOCKS : Z := NB_BLOCKS_NAMING + NB_BLOCKS_SWITCHING.

Definition REST_DURATION : Z := 35000. (* ms *)
Definition REST_DURATION_JITTER : Z := 15000. (* ms *)
Definition NB_TRIALS_PER_BLOCK : Z := 15.
Definition NB_TRIALS_SWITCH_PER_BLOCK : Z := 4.

Definition BLOCK_CUE_DURATION : Z := 1000. (* ms *)
(* Event-related design *)
Definition ER_NB_SWITCHING : Z := 25.
Definition ER_NB_INHIB : Z := ER_NB_SWITCHING * 3.
Definition ER_NB_CONTROL : Z := ER_NB_SWITCHING.
Definition ER_ISI_MIN_MS : Z := 400.
Definition ER_ISI_MEAN_MS : Z := 4000.

Definition BASELINE_PRE_DURATION : Z := 30000. (* ms *)
Definition BASELINE_POST_DURATION : Z := 30000. (* ms *)

Definition CUE_DURATION : Z := 400. (* ms *)
Definition STIM_DURATION : Z := 1800. (* ms *)

Definition COLORS : list (string * RGB) :=
  [ ("blue", (0, 0, 255));
    ("red", (255, 0, 0));
    ("green", (25, 255, 25));
    ("yellow", (250, 255, 25)) ].

Definition WORDS : list string := ["xxxx"].

Definition KEYS : list (Key * string) :=
  [ (K_w, "red"); (K_q, "green"); (K_e, "blue"); (K_r, "yellow") ].

Section Builder.
(** [surface_size] of a rendered expyriment stimulus. *)
Variable surface_size : XpStim → Z * Z.

Definition gen_cue_stim (exp : ExpData) : Stim :=
  let xp_stims := [TextLine "" None None] in
  mkStim "Stim_cue" (Some (NInt CUE_DURATION)) NO_TRIGGER None None xp_stims.

Definition gen_word_stim (exp : ExpData) (word : string) (color : RGB)
    (stim_type : string) (framed : bool) : Res Stim :=
  let* text := tr word (language exp) in
  let xp_stim0 := TextLine (upper text) (Some (TEXT_SIZE exp)) (Some color) in
  let xp_stims :=
    if framed then
      let txt_size := surface_size xp_stim0 in
      [ xp_stim0;
        Rectangle (num_add (NInt txt_size.1) (TXT_FRAME_PAD exp),
                   num_add (NInt txt_size.2) (TXT_FRAME_PAD exp))
                  (TXT_FRAME_LW exp) (TXT_FRAME_COLOR exp) ]
    else [xp_stim0] in
  let* '(expected_answer, task) :=
    (if negb framed then (* color naming *)
       let* name := dict_get COLOR_NAMES color in
       Ok (name, "naming")
     else (* word reading *)
       Ok (word, "reading")) in
  let stim_label := "Stim_" +:+ task +:+ "_" +:+ stim_type in
  let* ids := dict_get STIM_CHAR_ID task in
  let* char_id := dict_get ids stim_type in
  Ok (mkStim stim_label (Some (NInt STIM_DURATION)) (Some char_id)
             (Some expected_answer) (Some KEYS) xp_stims).

Definition gen_naming_trials (exp : ExpData) (words : option (list string))
    (colors : option (list (string * RGB))) (prepend_cue : bool)
  : Res (list Trial) :=
  let colors := default COLORS colors in
  let words := default WORDS words in
  res_mapM
    (λ '(word, (col_name, col)),
       let* stim := gen_word_stim exp word col "control" false in
       let stims := if prepend_cue then [gen_cue_stim exp; stim] else [stim] in
       Ok (mkTrial ("Trial_" +:+ word +:+ "_C" +:+ col_name) NO_TRIGGER stims))
    (list_prod words colors).

Definition gen_congruent_naming_trials (exp : ExpData) : Res (list Trial) :=
  res_mapM
    (λ '(col_name, col),
       let cue := gen_cue_stim exp in
       let* stim := gen_word_stim exp col_name col "congruent" false in
       Ok (mkTrial ("Trial_" +:+ col_name +:+ "_" +:+ col_name) NO_TRIGGER
                   [cue; stim]))
    COLORS.

Definition block_cue_trial (exp : ExpData) : Trial :=
  mkTrial "Trial_block_cue" NO_TRIGGER
          [rest_stim (NInt BLOCK_CUE_DURATION) exp "#"].

Definition prepend_block_cue (exp : ExpData) (block_trials : list Trial)
  : list Trial :=
  [block_cue_trial exp] ++ block_trials.

Definition gen_inhib_trials (exp : ExpData)
    (colors : option (list (string * RGB))) (framed prepend_cue : bool)
  : Res (list Trial) :=
  let colors := default COLORS colors in
  res_mapM
    (λ '(word, col_name, col),
       let* stim := gen_word_stim exp word col "incongruent" framed in
       let stims := if prepend_cue then [gen_cue_stim exp; stim] else [stim] in
       Ok (mkTrial ("Trial_" +:+ upper word +:+ "_" +:+ col_name) NO_TRIGGER
                   stims))
    (incongruences colors).

Definition gen_switch_trials (exp : ExpData) (prepend_cue : bool)
  : Res (list Trial) :=
  res_mapM
    (λ '(word, col_name, col),
       let* stim := gen_word_stim exp word col "incongruent" true in
       let stims := if prepend_cue then [gen_cue_stim exp; stim] else [stim] in
       Ok (mkTrial ("Trial_" +:+ upper word +:+ "_" +:+ col_name +:+ "_sw")
                   NO_TRIGGER stims))
    (incongruences COLORS).

Definition rest_trial (exp : ExpData) (duration : Num) : Trial :=
  mkTrial "rest" NO_TRIGGER [rest_stim duration exp "+"].

Definition get_all_possible_trials (exp : ExpData) : Res (list Trial) :=
  let* naming := gen_naming_trials exp None None true in
  let* inhib := gen_inhib_trials exp None false true in
  let* switch := gen_switch_trials exp true in
  Ok ([mkTrial "Trial_rest" NO_TRIGGER [rest_stim (NInt 0) exp "+"]]
      ++ naming ++ inhib ++ switch).
End Builder.

Section Composer.
Context {G : Type} `{Generator G}.
Context {Gl : Type} `{LegacyRandom Gl}.
(** [surface_size] of a rendered expyriment stimulus. *)
Variable surface_size : XpStim → Z * Z.
(** [int(hashlib.sha256(s.encode('utf-8')).hexdigest(), 16)] *)
Variable sha256_int : string → Z.

Definition gen_naming_block (exp : ExpData) (show_performance : bool)
    (rng : G) : M (Block * G) :=
  let! char_id := m_lift (dict_get BLOCK_CHAR_ID_naming "control") in
  let! catalog := m_lift (gen_naming_trials surface_size exp None None true) in
  let! '(ts, rng) := choice catalog NB_TRIALS_PER_BLOCK false rng in
  m_ret (mkBlock "Block_Naming" (Some char_id) (prepend_block_cue exp ts)
                 show_performance, rng).

Definition gen_congruent_naming_block (exp : ExpData)
    (show_performance : bool) (rng : G) : M (Block * G) :=
  let! char_id := m_lift (dict_get BLOCK_CHAR_ID_naming "congruent") in
  let! catalog := m_lift (gen_congruent_naming_trials surface_size exp) in
  let! '(ts, rng) := choice catalog NB_TRIALS_PER_BLOCK true rng in
  m_ret (mkBlock "Block_Naming_Congruent" (Some char_id)
                 (prepend_block_cue exp ts) show_performance, rng).

Definition gen_inhibit_color_block (exp : ExpData) (show_performance : bool)
    (rng : G) : M (Block * G) :=
  let! char_id := m_lift (dict_get BLOCK_CHAR_ID_naming "incongruent") in
  let! catalog := m_lift (gen_inhib_trials surface_size exp None true true) in
  let! '(ts, rng) := choice catalog NB_TRIALS_PER_BLOCK false rng in
  m_ret (mkBlock "Block_Naming_Incongruent" (Some char_id)
                 (prepend_block_cue exp ts) show_performance, rng).

Definition gen_inhibit_reading_block (exp : ExpData)
    (show_performance : bool) (rng : G) : M (Block * G) :=
  let! char_id := m_lift (dict_get BLOCK_CHAR_ID_reading "incongruent") in
  let! catalog := m_lift (gen_inhib_trials surface_size exp None false true) in
  let! '(ts, rng) := choice catalog NB_TRIALS_PER_BLOCK false rng in
  m_ret (mkBlock "Block_Reading_Incongruent" (Some char_id)
                 (prepend_block_cue exp ts) show_performance, rng).

(** The loop [for i in range(nb_sub_blocks-1)] of
    [gen_inhib_sub_block_sizes]. *)
Fixpoint sub_block_sizes_loop (min_trials max_trials total_trials
    nb_sub_blocks : Z) (range : list Z) (sub_block_sizes : list Z)
    (rng : G) : Res (list Z * G) :=
  match range with
  | [] => Ok (sub_block_sizes, rng)
  | i :: range' =>
      let adjusted_max :=
        total_trials - (nb_sub_blocks - i) * min_trials
        - sum sub_block_sizes in
      let* '(size, rng) :=
        rng_integers min_trials (Z.min max_trials adjusted_max + 1) rng in
      sub_block_sizes_loop min_trials max_trials total_trials nb_sub_blocks
                           range' (sub_block_sizes ++ [size]) rng
  end.

Definition gen_inhib_sub_block_sizes (exp : ExpData) (rng : G)
  : Res (list Z * G) :=
  let min_trials := 1 in
  let max_trials := 4 in
  let total_trials := NB_TRIALS_PER_BLOCK - NB_TRIALS_SWITCH_PER_BLOCK in
  let nb_sub_blocks := NB_TRIALS_SWITCH_PER_BLOCK + 1 in
  let* '(sub_block_sizes, rng) :=
    sub_block_sizes_loop min_trials max_trials total_trials nb_sub_blocks
                         (py_range (nb_sub_blocks - 1)) [] rng in
  let sub_block_sizes :=
    sub_block_sizes ++ [total_trials - sum sub_block_sizes] in
  let* '(sub_block_sizes, rng) := rng_shuffle sub_block_sizes rng in
  if negb (sum sub_block_sizes =? total_trials) then Raise AssertionError
  else Ok (sub_block_sizes, rng).

(** The loop over [zip(inhib_sub_block_sizes, switch_trials)] of
    [gen_switching_block]. *)
Fixpoint switching_block_loop (inhib_trials_ref : list Trial)
    (pairs : list (Z * Trial)) (trials : list Trial) (rng : G)
  : M (list Trial * G) :=
  match pairs with
  | [] => m_ret (trials, rng)
  | (nb_inhib_sub_block, switch_trial) :: pairs' =>
      let! '(ts, rng) := choice inhib_trials_ref nb_inhib_sub_block false rng in
      switching_block_loop inhib_trials_ref pairs'
                           (trials ++ ts ++ [switch_trial]) rng
  end.

Definition gen_switching_block (exp : ExpData) (show_performance : bool)
    (rng : G) : M (Block * G) :=
  let nb_switches := NB_TRIALS_SWITCH_PER_BLOCK in
  let! switch_catalog := m_lift (gen_switch_trials surface_size exp true) in
  let! '(switch_trials, rng) := choice switch_catalog nb_switches false rng in
  let! inhib_trials_ref :=
    m_lift (gen_inhib_trials surface_size exp None false true) in
  let trials := [block_cue_trial exp] in
  let! '(inhib_sub_block_sizes, rng) :=
    m_lift (gen_inhib_sub_block_sizes exp rng) in
  let! '(trials, rng) :=
    switching_block_loop inhib_trials_ref
                         (zip inhib_sub_block_sizes switch_trials)
                         trials rng in
  let! last_size := m_lift (py_getitem inhib_sub_block_sizes (-1)) in
  let! '(ts, rng) := choice inhib_trials_ref last_size false rng in
  m_ret (mkBlock "Block_Switching_Incongruent" (Some BLOCK_CHAR_ID_switching)
                 (trials ++ ts) show_performance, rng).

(** [[t for t in all_trials if t.stimuli[0].expected_answer != prev]] *)
Fixpoint trials_not_answering (prev_c_name : string)
    (all_trials : list Trial) : Res (list Trial) :=
  match all_trials with
  | [] => Ok []
  | t :: rest =>
      let* stim0 := py_getitem (stimuli t) 0 in
      let* kept := trials_not_answering prev_c_name rest in
      if decide (expected_answer stim0 ≠ Some prev_c_name)
      then Ok (t :: kept) else Ok kept
  end.

(** One leaf dict of [next_trials]: the whole catalog under [None] and,
    under each color name, the trials answering another color. *)
Definition next_trials_by_answer (all_trials : list Trial)
  : Res (list (option string * list Trial)) :=
  let* by_color :=
    res_mapM (λ '(prev_c_name, prev_c),
                let* ts := trials_not_answering prev_c_name all_trials in
                Ok (Some prev_c_name, ts))
             COLORS in
  Ok ((None, all_trials) :: by_color).

Definition NextTrials : Type :=
  list (string * list (string * list (option string * list Trial))).

(** The loop over [enumerate(zip(stim_seq, isis_ms))] of
    [generate_stroop_session]. *)
Fixpoint stroop_session_loop (exp : ExpData) (next_trials : NextTrials)
    (pairs : list (Z * float)) (trials : list Trial)
    (prev_answer : option string) (rng : G) : M (list Trial * G) :=
  match pairs with
  | [] => m_ret (trials, rng)
  | (stim_symbol, isi_ms) :: pairs' =>
      let! '(task, stim_type) := m_lift (py_getitem TRIALS_SPEC stim_symbol) in
      let! candidates :=
        m_lift (let* by_type := dict_get next_trials task in
                let* by_answer := dict_get by_type stim_type in
                dict_get by_answer prev_answer) in
      let! '(picked, rng) := choice candidates 1 false rng in
      let! chosen_trial := m_lift (py_getitem picked 0) in
      let! stim0 := m_lift (py_getitem (stimuli chosen_trial) 0) in
      (* session_length_ms += chosen_trial.stimuli[0].duration_ms: the
         total is only printed; the addition fails on a missing duration *)
      let! _ := m_lift (match duration_ms stim0 with
                        | Some d => Ok d
                        | None => Raise TypeError
                        end) in
      let prev_answer := expected_answer stim0 in
      stroop_session_loop exp next_trials pairs'
        (trials ++ [chosen_trial; rest_trial exp (NFloat isi_ms)])
        prev_answer rng
  end.

Definition generate_stroop_session (exp : ExpData) (stim_seq : list Z)
    (isis_ms : list float) (rng : G) : M (Session * G) :=
  let! all_sw_trials := m_lift (gen_switch_trials surface_size exp false) in
  let! all_ctrl_trials :=
    m_lift (gen_naming_trials surface_size exp None None false) in
  let! all_inhib_trials :=
    m_lift (gen_inhib_trials surface_size exp None false false) in
  let! ctrl := m_lift (next_trials_by_answer all_ctrl_trials) in
  let! inhib := m_lift (next_trials_by_answer all_inhib_trials) in
  let! sw := m_lift (next_trials_by_answer all_sw_trials) in
  let next_trials : NextTrials :=
    [ ("naming", [("control", ctrl); ("inhibition", inhib)]);
      ("reading", [("inhibition", sw)]) ] in
  let! '(trials, rng) :=
    stroop_session_loop exp next_trials (zip stim_seq isis_ms) [] None rng in
  m_ret
    (mkSession "Session_Stroop_ER" (Some "S")
       [ mkBlock "rest" NO_TRIGGER
                 [rest_trial exp (NInt BASELINE_PRE_DURATION)] false;
         mkBlock "Block_Stroop_ER" None trials false;
         mkBlock "rest" NO_TRIGGER
                 [rest_trial exp (NInt BASELINE_POST_DURATION)] false ],
     rng).

Definition gen_main_session_event_related (exp : ExpData)
    (session_label : string) (rng : G) : M Session :=
  (* Trials: NX, NI, RI *)
  let nb_switching := ER_NB_SWITCHING in
  let nb_naming_inhib := ER_NB_INHIB in
  let nb_naming_control := ER_NB_CONTROL in
  let nb_trials := nb_switching + nb_naming_inhib + nb_naming_control in
  let! '(stim_seq, rng) :=
    m_lift (gen_random_stroop_seq nb_naming_control nb_naming_inhib
                                  nb_switching rng) in
  let! '(draws, rng) :=
    m_lift (rng_exponential (float_of_Z (ER_ISI_MEAN_MS - ER_ISI_MIN_MS))
                            nb_trials rng) in
  let isis_ms := map (λ d, d + float_of_Z ER_ISI_MIN_MS)%float draws in
  let! '(session, _) := generate_stroop_session exp stim_seq isis_ms rng in
  m_ret session.

(** The generator [rd_gen] of [gen_main_session_block], as the list of
    the values it yields, in order. *)
Definition rd_gen (rng : G) : Res (list Num * G) :=
  let* '(draws, rng) := rng_random (NB_BLOCKS / 2) rng in
  let jitters := map (λ r, r * float_of_Z REST_DURATION_JITTER)%float draws in
  let jitters := jitters ++ map PrimFloat.opp jitters in
  let jitters :=
    if negb (NB_BLOCKS mod 2 =? 0) then jitters ++ [float_of_Z 0]
    else jitters in
  let* '(jitters, rng) := rng_shuffle jitters rng in
  let all_rests := map (λ jitter, float_of_Z REST_DURATION + jitter)%float
                       jitters in
  if negb (forallb (λ rt, PrimFloat.leb rt
             (float_of_Z (REST_DURATION + REST_DURATION_JITTER))) all_rests)
  then Raise AssertionError
  else if negb (forallb (λ rt, PrimFloat.leb
             (float_of_Z (REST_DURATION - REST_DURATION_JITTER)) rt) all_rests)
  then Raise AssertionError
  else Ok (map NFloat (rev all_rests), rng).

(** [[f(next(gen)) for _ in range]] over the values a generator yields. *)
Fixpoint next_each {A B : Type} (f : A → B) (range : list Z)
    (yields : list A) : Res (list B) :=
  match range with
  | [] => Ok []
  | _ :: range' =>
      match yields with
      | [] => Raise StopIteration
      | y :: yields' =>
          let* bs := next_each f range' yields' in
          Ok (f y :: bs)
      end
  end.

(** [a = s + r; a[::2] = s; a[1::2] = r] *)
Fixpoint interleave {A : Type} (s r : list A) : Res (list A) :=
  match s, r with
  | [], [] => Ok []
  | x :: s', y :: r' =>
      let* rest := interleave s' r' in
      Ok (x :: y :: rest)
  | _, _ => Raise ValueError
  end.

Definition gen_main_session_block (exp : ExpData) (session_label : string)
    (rng : G) : M Session :=
  let! '(rd, rng) := m_lift (rd_gen rng) in
  let! rest_blocks :=
    m_lift (next_each (λ d, mkBlock "rest" NO_TRIGGER [rest_trial exp d] false)
                      (py_range NB_BLOCKS) rd) in
  (* A-B-B-A-A-B-A-B: *)
  let! _ := m_lift (if NB_BLOCKS =? 8 then Ok () else Raise AssertionError) in
  let! '(b0, rng) := gen_naming_block exp false rng in
  let! '(b1, rng) := gen_switching_block exp false rng in
  let! '(b2, rng) := gen_switching_block exp false rng in
  let! '(b3, rng) := gen_naming_block exp false rng in
  let! '(b4, rng) := gen_naming_block exp false rng in
  let! '(b5, rng) := gen_switching_block exp false rng in
  let! '(b6, rng) := gen_naming_block exp false rng in
  let! '(b7, rng) := gen_switching_block exp false rng in
  let stim_blocks := [b0; b1; b2; b3; b4; b5; b6; b7] in
  let! all_blocks := m_lift (interleave stim_blocks rest_blocks) in
  let all_blocks :=
    [ mkBlock "baseline_pre" NO_TRIGGER
              [rest_trial exp (NInt BASELINE_PRE_DURATION)] false ]
    ++ all_blocks in
  m_ret (mkSession "Strooper_main" NO_TRIGGER all_blocks).

(** [gen_main_session]: the [rng] argument is ignored, a generator
    seeded from the session label is used instead. *)
Definition gen_main_session (exp : ExpData) (session_type : string)
    (session_label : string) (rng : option G) : M Session :=
  let seed := sha256_int session_label mod 10 ^ 8 in
  let rng := default_rng seed in
  if decide (session_type = "block") then
    gen_main_session_block exp session_label rng
  else
    gen_main_session_event_related exp session_label rng.
End Composer.

End Strooper.

(** ** Session runner and repetition controller *)

(** A field of a row handed to [exp.data.add].  [FFormat fmt v] stands for
    the text [fmt % v] of a float. *)
Inductive Field : Type :=
| FNone
| FStr (s : string)
| FInt (z : Z)
| FBool (b : bool)
| FFormat (fmt : string) (v : float).

(** What the runner does to its collaborators, in order. *)
Inductive Event : Type :=
| Preload (xp : XpStim)
| Unload (xp : XpStim)
| Present (xp : XpStim) (clear update : bool)
| PresentPerformance (perf_perc : float) (text_size : Z)
| ClockWait (ms : Num)
| TriggerOn (char_ID : string) (label : string)
| TriggerOff (char_ID : string) (label : string)
| ReinitTriggers
| ResetTriggers
| DataAdd (row : list Field)
| DataSave
| EventsSave.

(** The collaborators of one run: what the participant does during each
    successive [exp.keyboard.wait] ([Some (key, rt)] is a key pressed after
    [rt] ms, [None] is no key press), the time each stimulus takes to
    present, the successive readings of [time.time()], and the events
    emitted so far. *)
Record World : Type := mkWorld {
  inputs : list (option (Key * Z));
  ptime_of : XpStim → Z;
  clock : list float;
  trace : list Event
}.

Definition Run (A : Type) : Type := @M World A.

Definition emit (e : Event) : Run unit :=
  λ w, (Ok (), mkWorld (inputs w) (ptime_of w) (clock w) (trace w ++ [e])).

(** [time.time() * 1000] *)
Definition time_ms : Run float :=
  λ w, match clock w with
       | [] => (Ok (0 * 1000)%float, w)
       | t :: later =>
           (Ok (t * 1000)%float, mkWorld (inputs w) (ptime_of w) later (trace w))
       end.

(** [xp_stim.present(clear=clear, update=update)] *)
Definition present (xp : XpStim) (clear update : bool) : Run Z :=
  λ w, (Ok (ptime_of w xp),
        mkWorld (inputs w) (ptime_of w) (clock w)
                (trace w ++ [Present xp clear update])).

(** [exp.keyboard.wait(keys, duration)]: the awaited key and its reaction
    time, or [(None, None)] at the timeout.  Without a timeout and without
    an awaited key press the call never returns ([WaitsForever]). *)
Definition keyboard_wait (keys : list Key) (duration : option Num)
  : Run (option Key * option Z) :=
  λ w,
    let '(pressed, later) :=
      match inputs w with
      | [] => (None, [])
      | i :: later => (i, later)
      end in
    let w' := mkWorld later (ptime_of w) (clock w) (trace w) in
    let in_time (rt : Z) :=
      match duration with
      | None => true
      | Some d => num_ge d (NInt rt)
      end in
    match pressed with
    | Some (key, rt) =>
        if bool_decide (key ∈ keys) && in_time rt
        then (Ok (Some key, Some rt), w')
        else match duration with
             | None => (Raise WaitsForever, w')
             | Some _ => (Ok (None, None), w')
             end
    | None =>
        match duration with
        | None => (Raise WaitsForever, w')
        | Some _ => (Ok (None, None), w')
        end
    end.

(** Modelled from the spec: [trigger_on], [trigger_off], [reinit_triggers]
    and [reset_triggers] are called by the runner and defined nowhere in
    the sources.  They emit or clear a named synchronization marker, and
    a no-operation identifier ([NO_TRIGGER]) is silently ignored. *)
Definition trigger_on (char_ID : option string) (label : string) : Run unit :=
  match char_ID with
  | Some c => emit (TriggerOn c label)
  | None => m_ret ()
  end.

Definition trigger_off (char_ID : option string) (label : string) : Run unit :=
  match char_ID with
  | Some c => emit (TriggerOff c label)
  | None => m_ret ()
  end.

Definition reinit_triggers : Run unit := emit ReinitTriggers.
Definition reset_triggers : Run unit := emit ResetTriggers.

(** The [session] argument of [run_session]: a Session, a Picture or a
    callable producing the session. *)
Inductive SessionItem : Type :=
| ItemSession (s : Session)
| ItemPicture (p : XpStim)
| ItemCallable (f : ExpData → string → Res Session).

(** How a loop body ends: it goes on with its variables, or the function
    has executed [return]. *)
Inductive Flow (A : Type) : Type :=
| Continue (a : A)
| Return.
Arguments Continue {A} a.
Arguments Return {A}.

Definition field_of_answer (a : option string) : Field :=
  match a with Some s => FStr s | None => FNone end.

Definition field_of_rt (rt : option Z) : Field :=
  match rt with Some z => FInt z | None => FNone end.

Fixpoint present_all (xp_stims : list (Z * XpStim)) (nb_stims : Z) (ptime : Z)
  : Run Z :=
  match xp_stims with
  | [] => m_ret ptime
  | (istim, xp_stim) :: rest =>
      let! t := present xp_stim (istim =? 0) (istim =? nb_stims - 1) in
      present_all rest nb_stims (ptime + t)
  end.

Definition for_each_xp_stimuli (f : XpStim → Event) (s : Session) : list Event :=
  flat_map (λ b, flat_map (λ t, flat_map (λ stim, map f (xp_stimuli stim))
                                         (stimuli t))
                          (trials b))
           (blocks s).

Fixpoint emit_all (es : list Event) : Run unit :=
  match es with
  | [] => m_ret ()
  | e :: es' => let! _ := emit e in emit_all es'
  end.

Section RunSession.
Variable exp_data : ExpData.
Variable session : Session.

(** The body of [for stim in trial.stimuli], on the block's
    [performance] and [nb_expected_answers]. *)
Definition run_stim (block : Block) (block_idx : Z) (trial : Trial)
    (trial_idx : Z) (stim : Stim) (performance : option float)
    (nb_expected_answers : Z) : Run (Flow (option float * Z)) :=
  let nb_stims := len (xp_stimuli stim) in
  let! start_ts := time_ms in
  let! ptime := present_all (enumerate (xp_stimuli stim)) nb_stims 0 in
  let! _ := trigger_on (stim_char_ID stim) (stim_label stim) in
  let! wait_duration :=
    match duration_ms stim with
    | Some d =>
        let wait_duration := num_sub d (NInt ptime) in
        if num_ge wait_duration (NInt 0) then m_ret (Some wait_duration)
        else m_lift (Raise AssertionError)
    | None => m_ret None
    end in
  let answer := "NA" in
  let finish (answer : string) (rt : option Z)
      (performance : option float) (nb_expected_answers : Z) :=
    let! _ := trigger_off (stim_char_ID stim) (stim_label stim) in
    (* Save data *)
    let! end_ts := time_ms in
    let! _ := emit (DataAdd
      [ FStr (subject_pin exp_data); FInt (SESSION_IDX exp_data);
        FBool (TEST exp_data); FStr (session_label session);
        FStr (block_label block); FInt block_idx; FStr (trial_label trial);
        FInt trial_idx; FStr (stim_label stim); FFormat "%f" start_ts;
        FFormat "%f" end_ts; field_of_answer (expected_answer stim);
        FStr answer; field_of_rt rt ]) in
    m_ret (Continue (performance, nb_expected_answers)) in
  match responses stim with
  | None =>
      (* passive stimulation *)
      let! '(btn, _) := keyboard_wait [K_BACKSPACE] wait_duration in
      let rt := None in
      if bool_decide (btn = Some K_BACKSPACE) then
        let! _ := trigger_off (stim_char_ID stim) (stim_label stim) in
        let! _ := trigger_off (trial_char_ID trial) (trial_label trial) in
        let! _ := trigger_off (block_char_ID block) (block_label block) in
        let! _ := trigger_off (session_char_ID session) (session_label session) in
        let! _ := emit DataSave in
        m_ret Return
      else finish answer rt performance nb_expected_answers
  | Some stim_responses =>
      (* keyboard response expected *)
      let! '(btn, rt) := keyboard_wait (map fst stim_responses) wait_duration in
      let! _ :=
        match wait_duration, rt with
        | Some wd, Some r => emit (ClockWait (num_sub wd (NInt r)))
        | _, _ => m_ret ()
        end in
      let! answer :=
        match btn with
        | Some b => m_lift (dict_get stim_responses b)
        | None => m_ret answer
        end in
      let '(performance, nb_expected_answers) :=
        match expected_answer stim with
        | Some expected =>
            if bool_decide (expected ≠ "DUMMY") then
              let point := (1 * (if bool_decide (answer = expected)
                                 then 1 else 0))%float in
              (match performance with
               | None => Some point
               | Some p => Some (p + point)%float
               end, nb_expected_answers + 1)
            else (performance, nb_expected_answers)
        | None => (performance, nb_expected_answers)
        end in
      finish answer rt performance nb_expected_answers
  end.

Fixpoint run_stimuli (block : Block) (block_idx : Z) (trial : Trial)
    (trial_idx : Z) (stims : list Stim) (performance : option float)
    (nb_expected_answers : Z) : Run (Flow (option float * Z)) :=
  match stims with
  | [] => m_ret (Continue (performance, nb_expected_answers))
  | stim :: stims' =>
      let! flow := run_stim block block_idx trial trial_idx stim
                            performance nb_expected_answers in
      match flow with
      | Continue (performance, nb_expected_answers) =>
          run_stimuli block block_idx trial trial_idx stims'
                      performance nb_expected_answers
      | Return => m_ret Return
      end
  end.

(** The body of [for trial in block.trials], then the loop. *)
Fixpoint run_trials (block : Block) (block_idx : Z) (block_trials : list Trial)
    (trial_idx : Z) (performance : option float) (nb_expected_answers : Z)
  : Run (Flow (Z * option float * Z)) :=
  match block_trials with
  | [] => m_ret (Continue (trial_idx, performance, nb_expected_answers))
  | trial :: block_trials' =>
      let! _ := trigger_on (trial_char_ID trial) (trial_label trial) in
      let! flow := run_stimuli block block_idx trial trial_idx (stimuli trial)
                               performance nb_expected_answers in
      match flow with
      | Continue (performance, nb_expected_answers) =>
          let! _ := trigger_off (trial_char_ID trial) (trial_label trial) in
          run_trials block block_idx block_trials' (trial_idx + 1)
                     performance nb_expected_answers
      | Return => m_ret Return
      end
  end.

(** The body of [for block_idx, block in enumerate(session.blocks)]. *)
Definition run_block (block_idx : Z) (block : Block) (trial_idx : Z)
    (session_performance : option float)
  : Run (Flow (Z * option float)) :=
  let! _ := trigger_on (block_char_ID block) (block_label block) in
  let performance := None in
  let nb_expected_answers := 0 in
  let! flow := run_trials block block_idx (trials block) trial_idx
                          performance nb_expected_answers in
  match flow with
  | Return => m_ret Return
  | Continue (trial_idx, performance, nb_expected_answers) =>
      let! _ := trigger_off (block_char_ID block) (block_label block) in
      let! _ :=
        match performance with
        | Some p =>
            if show_performance block then
              let! start_ts := time_ms in
              let perf_perc :=
                (p * 100 / float_of_Z nb_expected_answers)%float in
              let! _ := emit (PresentPerformance perf_perc (TEXT_SIZE exp_data)) in
              let! _ := emit (ClockWait (NInt 2000)) in
              let! end_ts := time_ms in
              emit (DataAdd
                [ FStr (subject_pin exp_data); FInt (SESSION_IDX exp_data);
                  FBool (TEST exp_data); FStr (session_label session);
                  FStr (block_label block); FInt block_idx;
                  FStr "perf_feedback"; FStr "NA"; FInt (-1);
                  FFormat "%f" start_ts; FFormat "%f" end_ts; FStr "NA";
                  FFormat "%1.2f" perf_perc; FStr "NA" ])
            else m_ret ()
        | None => m_ret ()
        end in
      let session_performance :=
        match performance with
        | Some p =>
            let sp := match session_performance with
                      | None => 0%float
                      | Some sp => sp
                      end in
            Some (sp + p / float_of_Z (len (blocks session)))%float
        | None => session_performance
        end in
      m_ret (Continue (trial_idx, session_performance))
  end.

Fixpoint run_blocks (session_blocks : list (Z * Block)) (trial_idx : Z)
    (session_performance : option float) : Run (Flow (Z * option float)) :=
  match session_blocks with
  | [] => m_ret (Continue (trial_idx, session_performance))
  | (block_idx, block) :: session_blocks' =>
      let! flow := run_block block_idx block trial_idx session_performance in
      match flow with
      | Continue (trial_idx, session_performance) =>
          run_blocks session_blocks' trial_idx session_performance
      | Return => m_ret Return
      end
  end.
End RunSession.

(** [session.label], for where a parameter is named [session_label]. *)
Definition label_of (session : Session) : string := session_label session.

(** Run a single session and return the average performance *)
Definition run_session (exp_data : ExpData) (session : SessionItem)
    (session_label : string) (start_with_key show_prep_text : bool)
  : Run (option float) :=
  let! _ :=
    if show_prep_text then
      let! text := m_lift (tr "Preparing session..." (language exp_data)) in
      let! _ := present (TextLine text (Some (TEXT_SIZE exp_data)) None) true true in
      m_ret ()
    else m_ret () in
  let run (session : Session) : Run (option float) :=
    (* Preload session stimuli: *)
    let! _ := emit_all (for_each_xp_stimuli Preload session) in
    let session_performance := None in
    let! _ :=
      if start_with_key then
        let! text := m_lift (tr "Press space to start session"
                                (language exp_data)) in
        let! _ := present (TextLine (text +:+ " " +:+ session_label)
                                    (Some (TEXT_SIZE exp_data)) None) true true in
        let! _ := keyboard_wait [K_SPACE] None in
        m_ret ()
      else m_ret () in
    let! _ := reinit_triggers in
    let trial_idx := 0 in (* session-wise trial index *)
    (* Run session: *)
    let! _ := trigger_on (session_char_ID session) (label_of session) in
    let! flow := run_blocks exp_data session (enumerate (blocks session))
                            trial_idx session_performance in
    match flow with
    | Return => m_ret None
    | Continue (_, session_performance) =>
        let! _ := trigger_off (session_char_ID session)
                              (label_of session) in
        let! _ := emit EventsSave in
        let! _ := emit DataSave in
        let! _ := reset_triggers in
        (* Unload stimuli: *)
        let! _ := emit_all (for_each_xp_stimuli Unload session) in
        m_ret session_performance
    end in
  match session with
  | ItemCallable f =>
      let! session := m_lift (f exp_data session_label) in
      run session
  | ItemPicture p =>
      let! _ := present p true true in
      let! _ := keyboard_wait [K_SPACE] None in
      m_ret None (* No performance *)
  | ItemSession session => run session
  end.

(** [performances]: a [defaultdict(list)] from session label to the
    performance of each repetition. *)
Definition Performances : Type := list (string * list (option float)).

(** [performances[key].append(perf)] *)
Fixpoint performances_append (performances : Performances) (key : string)
    (perf : option float) : Performances :=
  match performances with
  | [] => [(key, [perf])]
  | (k, perfs) :: rest =>
      if decide (k = key) then (k, perfs ++ [perf]) :: rest
      else (k, perfs) :: performances_append rest key perf
  end.

Definition Plan : Type := list (SessionItem * Num * Z).

(** The [sessions] argument of [run_sessions]. *)
Inductive SessionsArg : Type :=
| ArgSession (s : Session)
| ArgPlan (p : Plan)
| ArgCallable (f : ExpData → string → string → Res (Session + Plan)).

(** [exp_data['SESSION_IDX'] += 1] *)
Definition increase_session_idx (exp_data : ExpData) : ExpData :=
  mkExpData (language exp_data) (subject_pin exp_data)
            (SESSION_IDX exp_data + 1) (TEST exp_data) (CROSS_SIZE exp_data)
            (TEXT_SIZE exp_data) (TXT_FRAME_PAD exp_data)
            (TXT_FRAME_LW exp_data) (TXT_FRAME_COLOR exp_data).

Definition randomize_session (s : SessionItem) : SessionItem := s.

(** [perf is None or perf < perf_min] *)
Definition perf_below (perf : option float) (perf_min : Num) : bool :=
  match perf with
  | None => true
  | Some p => PrimFloat.ltb p (to_float perf_min)
  end.

(** The [while] loop of [run_sessions] on one entry of the plan.  It
    returns its variables at the exit; [steps] bounds the number of
    iterations, and an unbounded loop is [WaitsForever]. *)
Fixpoint repeat_session (steps : nat) (exp_data : ExpData)
    (session_prefix : string) (isession : Z) (session : SessionItem)
    (perf_min : Num) (repeat_max : Z) (i_repetition : Z)
    (perf : option float) (performances : Performances)
  : Run (Performances * ExpData * Z) :=
  if perf_below perf perf_min && (i_repetition <? repeat_max) then
    match steps with
    | O => m_lift (Raise WaitsForever)
    | S steps' =>
        let session :=
          if 0 <? i_repetition then randomize_session session else session in
        λ w,
          match run_session exp_data session ""
                            ((isession =? 0) && (i_repetition =? 0)) false w with
          | (Ok perf, w') =>
              let performances :=
                match session with
                | ItemSession s =>
                    performances_append performances
                      (session_prefix +:+ session_label s) perf
                | _ => performances
                end in
              (* if session aborted, will not count as repetition *)
              let i_repetition := i_repetition + 1 in
              (* increased even if session aborted *)
              let exp_data := increase_session_idx exp_data in
              repeat_session steps' exp_data session_prefix isession session
                             perf_min repeat_max i_repetition perf
                             performances w'
          | (Raise AbortBlockException, w') =>
              let exp_data := increase_session_idx exp_data in
              repeat_session steps' exp_data session_prefix isession session
                             perf_min repeat_max i_repetition perf
                             performances w'
          | (Raise e, w') => (Raise e, w')
          end
    end
  else m_ret (performances, exp_data, i_repetition).

(** The loop [for isession, (session, perf_min, repeat_max) in
    enumerate(sessions)]. *)
Fixpoint run_plan (exp_data : ExpData) (session_prefix : string)
    (plan : list (Z * (SessionItem * Num * Z))) (performances : Performances)
  : Run (Performances * ExpData) :=
  match plan with
  | [] => m_ret (performances, exp_data)
  | (isession, (session, perf_min, repeat_max)) :: plan' =>
      let i_repetition := 0 in
      let perf := None in
      let! '(performances, exp_data, _) :=
        repeat_session (Z.to_nat repeat_max) exp_data session_prefix isession
                       session perf_min repeat_max i_repetition perf
                       performances in
      run_plan exp_data session_prefix plan' performances
  end.

(** Run several sessions. Go to the next session only if performance
    is enough, up to a maximum number of repetitions.

    Return a dict mapping the session label to an array of performances.
    One for each session repetition.  The updated [exp_data] is returned
    with it. *)
Definition run_sessions (exp_data : ExpData) (sessions : SessionsArg)
    (block_type session_prefix : string) : Run (Performances * ExpData) :=
  let performances : Performances := [] in
  let! sessions :=
    match sessions with
    | ArgCallable f => m_lift (f exp_data block_type session_prefix)
    | ArgSession s => m_ret (inl s)
    | ArgPlan p => m_ret (inr p)
    end in
  let sessions : Plan :=
    match sessions with
    | inl s => (* single session, no perf or repetition criteria *)
        [(ItemSession s, NInt 0, 1)]
    | inr p => p
    end in
  run_plan exp_data session_prefix (enumerate sessions) performances.

(** ** Vocabulary of the properties *)

(** The ink color of a word stimulus, and its name. *)
Definition ink_color (s : Stim) : option RGB :=
  match xp_stimuli s with
  | TextLine _ _ (Some c) :: _ => Some c
  | _ => None
  end.

Definition ink_color_name (s : Stim) : option string :=
  match ink_color s with
  | Some c => match dict_get COLOR_NAMES c with
              | Ok name => Some name
              | Raise _ => None
              end
  | None => None
  end.

(** The stimulus shows [word], translated and in upper case. *)
Definition rendered_word (exp : ExpData) (s : Stim) (word : string) : Prop :=
  ∃ text size col,
    tr word (language exp) = Ok text ∧
    head (xp_stimuli s) = Some (TextLine (upper text) size col).

(** Every scored stimulus of the trial expects the name of its ink color. *)
Definition expects_ink_color (t : Trial) : Prop :=
  ∀ s, s ∈ stimuli t → is_Some (expected_answer s) →
       expected_answer s = ink_color_name s.

(** Every scored stimulus of the trial expects the word it shows, which
    is not the name of its ink color. *)
Definition expects_word (exp : ExpData) (t : Trial) : Prop :=
  ∀ s, s ∈ stimuli t → is_Some (expected_answer s) →
       ∃ word, rendered_word exp s word ∧ expected_answer s = Some word ∧
               ink_color_name s ≠ Some word.

(** [t] is the catalog trial built from [(word, col_name, col)]: its word
    stimulus, after the cue when there is one. *)
Definition word_trial (surface_size : XpStim → Z * Z) (exp : ExpData)
    (framed prepend_cue : bool) (item : string * string * RGB) (t : Trial)
  : Prop :=
  ∃ s, Strooper.gen_word_stim surface_size exp item.1.1 item.2
         "incongruent" framed = Ok s ∧
       stimuli t = if prepend_cue then [Strooper.gen_cue_stim exp; s] else [s].

(** What the scored stimuli of the catalog trial of [(word, col_name, col)]
    expect: the trial has a scored stimulus, it shows [word] in the ink
    named [col_name], another color, and expects the word when framed,
    the ink color otherwise. *)
Definition catalog_answer (exp : ExpData) (framed : bool)
    (item : string * string * RGB) (t : Trial) : Prop :=
  let '(word, col_name, col) := item in
  word ≠ col_name ∧
  (∃ s, s ∈ stimuli t ∧ is_Some (expected_answer s)) ∧
  ∀ s, s ∈ stimuli t → is_Some (expected_answer s) →
       rendered_word exp s word ∧ ink_color_name s = Some col_name ∧
       expected_answer s = Some (if framed then word else col_name).

(** Every switching symbol of the sequence is at a position [i > 0] and
    the symbol at [i - 1] is a naming-inhibition symbol. *)
Definition switching_follows_inhibition (trial_seq : list Z) : Prop :=
  ∀ i, trial_seq !! i = Some TRIAL_RI →
       ∃ j, i = S j ∧ trial_seq !! j = Some TRIAL_NI.

(** The expected answer of the first stimulus of a trial, when it is set. *)
Definition first_answer (t : Trial) : option string :=
  match stimuli t with
  | s :: _ => expected_answer s
  | [] => None
  end.

(** The expected answers of the scored trials, in order. *)
Definition scored_answers (ts : list Trial) : list string :=
  omap first_answer ts.

(** No two consecutive entries are equal. *)
Fixpoint no_repeat (answers : list string) : Prop :=
  match answers with
  | a :: (b :: _) as later => a ≠ b ∧ no_repeat later
  | _ => True
  end.

(** The candidates offered after the answer [prev] all have a scored first
    stimulus, whose expected answer is not [prev]. *)
Definition answers_another (prev : option string) (candidates : list Trial)
  : Prop :=
  Forall (λ t, ∃ a, first_answer t = Some a ∧ prev ≠ Some a) candidates.

Definition next_trials_differ (next_trials : Strooper.NextTrials) : Prop :=
  ∀ task stim_type by_type by_answer prev candidates,
    dict_get next_trials task = Ok by_type →
    dict_get by_type stim_type = Ok by_answer →
    dict_get by_answer prev = Ok candidates →
    answers_another prev candidates.

(** A computation that neither reads nor advances the global state. *)
Definition ignores_global {S A : Type} (m : @M S A) : Prop :=
  ∃ r, ∀ s, m s = (r, s).

(** ** A small concrete generator

    A linear congruential generator that implements both interfaces; it
    stands in for numpy's bit generators wherever a property is evaluated
    on concrete inputs. *)

Module Toy.

Definition next (s : Z) : Z := (s * 1103515245 + 12345) mod 2 ^ 31.

Definition integers (lo hi : Z) (s : Z) : Z * Z :=
  let s' := next s in
  (lo + s' mod (hi - lo), s').

(** A rotation of [0 .. n-1]. *)
Definition permutation (n : nat) (s : Z) : list nat * Z :=
  let s' := next s in
  let k := Z.to_nat (s' mod 7) in
  (drop k (seq 0 n) ++ take k (seq 0 n), s').

Fixpoint indices (pop n : nat) (s : Z) : list nat * Z :=
  match n with
  | O => ([], s)
  | S n' =>
      let s' := next s in
      let '(later, s'') := indices pop n' s' in
      (Z.to_nat (s' mod Z.of_nat pop) :: later, s'')
  end.

Definition distinct_indices (pop n : nat) (s : Z) : list nat * Z :=
  let '(p, s') := permutation pop s in
  (take n p, s').

Fixpoint random (n : nat) (s : Z) : list float * Z :=
  match n with
  | O => ([], s)
  | S n' =>
      let s' := next s in
      let '(later, s'') := random n' s' in
      ((float_of_Z (s' mod 1024) / 1024)%float :: later, s'')
  end.

Definition exponential (scale : float) (n : nat) (s : Z) : list float * Z :=
  let '(us, s') := random n s in
  (map (λ u, scale * u)%float us, s').

(** The global state is a separate type, so that the two generators are
    never confused. *)
Inductive GlobalState : Type := Global (s : Z).

Definition legacy_distinct (pop n : nat) (g : GlobalState)
  : list nat * GlobalState :=
  let '(Global s) := g in
  let '(idx, s') := distinct_indices pop n s in
  (idx, Global s').

(** A call stack with room for 990 nested calls: the default recursion
    limit of 1000 less ten frames in use. *)
Definition stack_room : nat := 990.

Definition surface_size (xp : XpStim) : Z * Z :=
  match xp with
  | TextLine text _ _ => (Z.of_nat (String.length text) * 40, 80)
  | _ => (0, 0)
  end.

(** A stand-in for the digest of a label. *)
Definition sha256_int (label : string) : Z :=
  Z.of_nat (String.length label) * 2654435761 + 97.

Definition exp_data : ExpData :=
  mkExpData "e" "test" 1 false 80 80 (NFloat 19.5) 2 (255, 255, 255).

End Toy.

(** ** Two runs of the session runner *)

Module Scenario.

(** A scored naming trial: the word in the ink named [color]. *)
Definition scored_stim (color : string) (rgb : RGB) : Stim :=
  mkStim "Stim_naming_control" (Some (NInt Strooper.STIM_DURATION))
         (Some "X") (Some color) (Some Strooper.KEYS)
         [TextLine "XXXX" (Some 80) (Some rgb)].

Definition scored_trial (color : string) (rgb : RGB) : Trial :=
  mkTrial ("Trial_xxxx_C" +:+ color) NO_TRIGGER [scored_stim color rgb].

Definition scored_block (show_performance : bool) : Block :=
  mkBlock "Block_Naming" (Some "L")
          [ scored_trial "blue" (0, 0, 255);
            scored_trial "red" (255, 0, 0);
            scored_trial "green" (25, 255, 25);
            scored_trial "yellow" (250, 255, 25) ]
          show_performance.

(** A session of a single block of 4 scored trials. *)
Definition accuracy_session (show_performance : bool) : Session :=
  mkSession "Strooper_accuracy" NO_TRIGGER [scored_block show_performance].

(** The participant answers blue, blue, green, yellow: correct,
    incorrect, correct, correct. *)
Definition accuracy_world : World :=
  mkWorld [ Some (K_e, 500); Some (K_e, 600); Some (K_q, 700);
            Some (K_r, 800) ]
          (λ _, 10) [] [].

(** A rest block followed by the scored block. *)
Definition abort_session (exp : ExpData) : Session :=
  mkSession "Strooper_main" NO_TRIGGER
            [ mkBlock "rest" NO_TRIGGER
                      [Strooper.rest_trial exp
                         (NInt Strooper.BASELINE_PRE_DURATION)] false;
              scored_block false ].

(** The participant starts the session with the space key and aborts
    it with the backspace key during the rest; no key is pressed
    afterwards. *)
Definition abort_world : World :=
  mkWorld [ Some (K_SPACE, 1000); Some (K_BACKSPACE, 2000) ]
          (λ _, 10) [] [].

End Scenario.

(** ** List helpers of the module *)

(** The chain of the pairs [(e1, e)] for [e1] in [l1], as a list. *)
Definition interleave_element {A : Type} (l1 : list A) (e : A) : list A :=
  flat_map (λ e1, [e1; e]) l1.

(** [itertools.zip_longest(l, r)], the missing values filled with [None]. *)
Fixpoint zip_longest {A B : Type} (l : list A) (r : list B)
  : list (option A * option B) :=
  match l with
  | [] => map (λ b, (None, Some b)) r
  | a :: l' =>
      match r with
      | [] => (Some a, None) :: map (λ a', (Some a', None)) l'
      | b :: r' => (Some a, Some b) :: zip_longest l' r'
      end
  end.

(** [seq[:-1]] *)
Definition drop_last {A : Type} (l : list A) : list A :=
  take (length l - 1) l.

(** [zip_join(l, intermediates)]; the items of the result are the values
    of the two lists or the fill value [None] of [zip_longest]. *)
Definition zip_join {A : Type} (l intermediates : list A)
  : Res (list (option A)) :=
  if negb (len intermediates =? len l - 1) then Raise AssertionError
  else
    Ok (drop_last (flat_map (λ '(a, b), [a; b]) (zip_longest l intermediates))).

(** ** Vocabulary of the block layouts *)

(** The block shows the block cue and then a rearrangement of
    [presented]. *)
Definition presents (exp : ExpData) (presented : list Trial) (b : Block)
  : Prop :=
  ∃ shown, trials b = Strooper.block_cue_trial exp :: shown ∧
           shown ≡ₚ presented.

(** The block shows the block cue, then the whole [catalog] in some order,
    then [extra] further trials of the catalog. *)
Definition covers_catalog (exp : ExpData) (catalog : list Trial) (extra : nat)
    (b : Block) : Prop :=
  ∃ p more, trials b = Strooper.block_cue_trial exp :: p ++ more ∧
            p ≡ₚ catalog ∧ length more = extra ∧
            Forall (λ t, t ∈ catalog) more.

(** A rest block of the block-designed session: one rest trial lasting
    between 20 s and 50 s. *)
Definition bounded_rest_block (exp : ExpData) (b : Block) : Prop :=
  ∃ d, b = mkBlock "rest" NO_TRIGGER [Strooper.rest_trial exp (NFloat d)] false ∧
       PrimFloat.leb (float_of_Z 20000) d = true ∧
       PrimFloat.leb d (float_of_Z 50000) = true.

(** ** Vocabulary of the runner's traces *)

(** How many events of a trace satisfy [p]. *)
Definition count_events (p : Event → bool) (es : list Event) : nat :=
  length (List.filter p es).

Definition is_data_row (e : Event) : bool :=
  match e with DataAdd _ => true | _ => false end.

Definition is_events_save (e : Event) : bool :=
  match e with EventsSave => true | _ => false end.

Definition is_reset_triggers (e : Event) : bool :=
  match e with ResetTriggers => true | _ => false end.

Definition is_unload (e : Event) : bool :=
  match e with Unload _ => true | _ => false end.

(** The stimuli of a session, in running order. *)
Definition session_stimuli (s : Session) : list Stim :=
  flat_map (λ b, flat_map stimuli (trials b)) (blocks s).

(** The run from [w] to [w'] added [n] events satisfying [p]. *)
Definition added (p : Event → bool) (w w' : World) (n : nat) : Prop :=
  count_events p (trace w') = (count_events p (trace w) + n)%nat.

(** [p] is blind to what the stimulus loop emits besides data rows, and
    counts each data row [weight] times. *)
Definition row_counter (p : Event → bool) (weight : nat) : Prop :=
  (∀ r, (if p (DataAdd r) then 1 else 0)%nat = weight) ∧
  (∀ xp c u, p (Present xp c u) = false) ∧
  (∀ c l, p (TriggerOn c l) = false) ∧
  (∀ c l, p (TriggerOff c l) = false) ∧
  (∀ d, p (ClockWait d) = false) ∧
  p DataSave = false.

(** The computation never raises [AbortBlockException]. *)
Definition never_aborts {A : Type} (m : Run A) : Prop :=
  ∀ w w', m w ≠ (Raise AbortBlockException, w').

(** [performances[key]] of the [defaultdict(list)], read without
    inserting. *)
Definition performances_get (performances : Performances) (key : string)
  : list (option float) :=
  match dict_get performances key with
  | Ok perfs => perfs
  | Raise _ => []
  end.

(** ** Vocabulary of the event-related generation *)

(** A trial the event-related loop can run: its first stimulus has a
    duration and expects the name of one of the colors. *)
Definition runnable_trialb (t : Trial) : bool :=
  match stimuli t with
  | stim0 :: _ =>
      match duration_ms stim0, expected_answer stim0 with
      | Some _, Some a => bool_decide (a ∈ Strooper.COLORS.*1)
      | _, _ => false
      end
  | [] => false
  end.

(** The previous answers the event-related loop may hold. *)
Definition previous_answers : list (option string) :=
  None :: map Some Strooper.COLORS.*1.

(** Under each previous answer the table offers a non-empty list of
    runnable trials. *)
Definition offers_runnableb (by_answer : list (option string * list Trial))
  : bool :=
  forallb (λ prev, match dict_get by_answer prev with
                   | Ok (t :: ts) => forallb runnable_trialb (t :: ts)
                   | _ => false
                   end)
          previous_answers.

(** * Properties *)

(** ** The concrete generator implements the interfaces *)

Module ToyLaws.
Import Toy.

Lemma integers_range lo hi s :
  lo < hi → lo ≤ (integers lo hi s).1 < hi.
Proof.
  intros Hlt. unfold integers. simpl.
  pose proof (Z.mod_pos_bound (next s) (hi - lo)). lia.
Qed.

Lemma permutation_perm n s : (permutation n s).1 ≡ₚ seq 0 n.
Proof.
  unfold permutation. simpl.
  rewrite Permutation_app_comm. by rewrite take_drop.
Qed.

Lemma indices_length pop n s : length (indices pop n s).1 = n.
Proof.
  revert s. induction n as [|n IH]; intros s; simpl; [done|].
  specialize (IH (next s)). destruct (indices pop n (next s)). simpl in *.
  by rewrite IH.
Qed.

Lemma indices_bound pop n s :
  (0 < pop)%nat → Forall (λ i, i < pop)%nat (indices pop n s).1.
Proof.
  intros Hpop. revert s. induction n as [|n IH]; intros s; simpl.
  - constructor.
  - specialize (IH (next s)). destruct (indices pop n (next s)). simpl in *.
    constructor; [|done].
    pose proof (Z.mod_pos_bound (next s) (Z.of_nat pop)). lia.
Qed.

Lemma distinct_length pop n s :
  (n ≤ pop)%nat → length (distinct_indices pop n s).1 = n.
Proof.
  intros Hn. unfold distinct_indices.
  pose proof (permutation_perm pop s) as Hp.
  destruct (permutation pop s) as [p s']. simpl in *.
  rewrite length_take, Hp, length_seq. lia.
Qed.

Lemma distinct_bound pop n s :
  (n ≤ pop)%nat → Forall (λ i, i < pop)%nat (distinct_indices pop n s).1.
Proof.
  intros _. unfold distinct_indices.
  pose proof (permutation_perm pop s) as Hp.
  destruct (permutation pop s) as [p s']. simpl in *.
  apply Forall_take. rewrite Hp. apply Forall_forall.
  intros i Hi. apply elem_of_seq in Hi. lia.
Qed.

Lemma distinct_NoDup pop n s :
  (n ≤ pop)%nat → NoDup (distinct_indices pop n s).1.
Proof.
  intros _. unfold distinct_indices.
  pose proof (permutation_perm pop s) as Hp.
  destruct (permutation pop s) as [p s']. simpl in *.
  eapply sublist_NoDup; [|apply sublist_take].
  rewrite Hp. apply NoDup_seq.
Qed.

Lemma random_length n s : length (random n s).1 = n.
Proof.
  revert s. induction n as [|n IH]; intros s; simpl; [done|].
  specialize (IH (next s)). destruct (random n (next s)). simpl in *.
  by rewrite IH.
Qed.

Lemma exponential_length scale n s : length (exponential scale n s).1 = n.
Proof.
  unfold exponential. pose proof (random_length n s) as Hr.
  destruct (random n s). simpl in *. by rewrite length_map.
Qed.

#[export] Instance generator : Generator Z := {|
  default_rng := λ seed, seed;
  draw_integers := integers;
  draw_permutation := permutation;
  draw_indices := indices;
  draw_distinct_indices := distinct_indices;
  draw_random := random;
  draw_exponential := exponential;
  draw_integers_range := integers_range;
  draw_permutation_perm := permutation_perm;
  draw_indices_length := indices_length;
  draw_indices_bound := indices_bound;
  draw_distinct_length := distinct_length;
  draw_distinct_bound := distinct_bound;
  draw_distinct_NoDup := distinct_NoDup;
  draw_random_length := random_length;
  draw_exponential_length := exponential_length
|}.

Lemma legacy_distinct_fst pop n s :
  (legacy_distinct pop n (Global s)).1 = (distinct_indices pop n s).1.
Proof. unfold legacy_distinct. by destruct (distinct_indices pop n s). Qed.

#[export] Instance legacy : LegacyRandom GlobalState.
Proof.
  refine {| legacy_distinct_indices := legacy_distinct;
            recursion_budget := stack_room |}.
  - intros pop n [s] Hn. rewrite legacy_distinct_fst. by apply distinct_length.
  - intros pop n [s] Hn. rewrite legacy_distinct_fst. by apply distinct_bound.
  - intros pop n [s] Hn. rewrite legacy_distinct_fst. by apply distinct_NoDup.
Defined.
End ToyLaws.

(** ** The two monads *)

Lemma res_bind_Ok {A B : Type} (m : Res A) (k : A → Res B) (b : B) :
  res_bind m k = Ok b → ∃ a, m = Ok a ∧ k a = Ok b.
Proof. destruct m as [a|e]; simpl; [eauto|discriminate]. Qed.

Lemma m_bind_Ok {S A B : Type} (m : @M S A) (k : A → @M S B) s b s' :
  m_bind m k s = (Ok b, s') →
  ∃ a s1, m s = (Ok a, s1) ∧ k a s1 = (Ok b, s').
Proof.
  unfold m_bind. destruct (m s) as [[a|e] s1]; [eauto|discriminate].
Qed.

Lemma m_lift_Ok {S A : Type} (r : Res A) (s s' : S) a :
  m_lift r s = (Ok a, s') → r = Ok a ∧ s' = s.
Proof. unfold m_lift. by intros [= -> ->]. Qed.

Lemma m_ret_Ok {S A : Type} (a b : A) (s s' : S) :
  m_ret a s = (Ok b, s') → b = a ∧ s' = s.
Proof. unfold m_ret. by intros [= -> ->]. Qed.

(** Inversion of a computation that returned normally. *)
Ltac inv_Ok :=
  repeat match goal with
  | H : res_bind _ _ = Ok _ |- _ =>
      let a := fresh "a" in let Ha := fresh "Ha" in
      apply res_bind_Ok in H as (a & Ha & H)
  | H : m_bind _ _ _ = (Ok _, _) |- _ =>
      let a := fresh "a" in let s := fresh "s" in let Ha := fresh "Ha" in
      apply m_bind_Ok in H as (a & s & Ha & H)
  | H : m_lift _ _ = (Ok _, _) |- _ => apply m_lift_Ok in H as [H ->]
  | H : m_ret _ _ = (Ok _, _) |- _ => apply m_ret_Ok in H as [H ->]; simplify_eq
  | H : Ok _ = Ok _ |- _ => simplify_eq
  | H : Raise _ = Ok _ |- _ => discriminate H
  | H : (let '(_, _) := ?p in _) = _ |- _ => destruct p
  | H : (let '(_, _) := ?p in _) _ = _ |- _ => destruct p
  end.

Lemma ignores_global_ret {S A : Type} (a : A) : ignores_global (@m_ret S A a).
Proof. by exists (Ok a). Qed.

Lemma ignores_global_lift {S A : Type} (r : Res A) :
  ignores_global (@m_lift S A r).
Proof. by exists r. Qed.

Lemma ignores_global_bind {S A B : Type} (m : @M S A) (k : A → @M S B) :
  ignores_global m → (∀ a, ignores_global (k a)) → ignores_global (m_bind m k).
Proof.
  intros [[a|e] Hm] Hk.
  - destruct (Hk a) as [rb Hb]. exists rb. intros s.
    unfold m_bind. rewrite Hm. apply Hb.
  - exists (Raise e). intros s. unfold m_bind. by rewrite Hm.
Qed.

Lemma ignores_global_eq {S A : Type} (m : @M S A) (s1 s2 : S) :
  ignores_global m → (m s1).1 = (m s2).1 ∧ (m s1).2 = s1.
Proof. intros [r Hr]. by rewrite !Hr. Qed.

Ltac ignores_global_step :=
  match goal with
  | |- ignores_global (m_ret _) => apply ignores_global_ret
  | |- ignores_global (m_lift _) => apply ignores_global_lift
  | |- ignores_global (m_bind _ _) => apply ignores_global_bind
  | |- ignores_global (let '(_, _) := ?p in _) => destruct p
  | |- ignores_global (match ?p with (_, _) => _ end) => destruct p
  | |- ignores_global (if ?b then _ else _) => destruct b
  | |- ∀ _, _ => intros ?
  end.

(** ** Determinism of the main sessions *)

Section Determinism.
Context {G : Type} `{Generator G}.
Context {Gl : Type} `{LegacyRandom Gl}.
Variable surface_size : XpStim → Z * Z.
Variable sha256_int : string → Z.

(** The unbalanced sampler draws from the generator it is given only. *)
Lemma choice_unbalanced_ignores_global {A : Type} (l : list A) n (rng : G) :
  ignores_global (S:=Gl) (choice l n false rng).
Proof.
  unfold choice. destruct recursion_budget; simpl;
    destruct (n <? len l); repeat ignores_global_step.
Qed.

Ltac ignores_global_auto :=
  repeat first
    [ apply choice_unbalanced_ignores_global
    | ignores_global_step ].

Lemma gen_naming_block_ignores_global exp show (rng : G) :
  ignores_global (S:=Gl)
    (Strooper.gen_naming_block surface_size exp show rng).
Proof. unfold Strooper.gen_naming_block. ignores_global_auto. Qed.

Lemma switching_block_loop_ignores_global ref pairs ts (rng : G) :
  ignores_global (S:=Gl) (Strooper.switching_block_loop ref pairs ts rng).
Proof.
  revert ts rng. induction pairs as [|[nb sw] pairs IH]; intros ts rng; simpl.
  - ignores_global_auto.
  - apply ignores_global_bind; [ignores_global_auto|].
    intros [ts' rng']. apply IH.
Qed.

Lemma gen_switching_block_ignores_global exp show (rng : G) :
  ignores_global (S:=Gl)
    (Strooper.gen_switching_block surface_size exp show rng).
Proof.
  unfold Strooper.gen_switching_block.
  repeat first
    [ apply switching_block_loop_ignores_global
    | apply choice_unbalanced_ignores_global
    | ignores_global_step ].
Qed.

Lemma stroop_session_loop_ignores_global exp next pairs ts prev (rng : G) :
  ignores_global (S:=Gl)
    (Strooper.stroop_session_loop exp next pairs ts prev rng).
Proof.
  revert ts prev rng.
  induction pairs as [|[sym isi] pairs IH]; intros ts prev rng; simpl.
  - ignores_global_auto.
  - repeat first
      [ apply IH
      | apply choice_unbalanced_ignores_global
      | ignores_global_step ].
Qed.

Lemma generate_stroop_session_ignores_global exp stim_seq isis (rng : G) :
  ignores_global (S:=Gl)
    (Strooper.generate_stroop_session surface_size exp stim_seq isis rng).
Proof.
  unfold Strooper.generate_stroop_session.
  repeat first
    [ apply stroop_session_loop_ignores_global
    | ignores_global_step ].
Qed.

Lemma gen_main_session_ignores_global exp session_type label (rng : option G) :
  ignores_global (S:=Gl)
    (Strooper.gen_main_session surface_size sha256_int exp session_type
                               label rng).
Proof.
  unfold Strooper.gen_main_session.
  destruct (decide (session_type = "block")).
  - unfold Strooper.gen_main_session_block.
    repeat first
      [ apply gen_naming_block_ignores_global
      | apply gen_switching_block_ignores_global
      | ignores_global_step ].
  - unfold Strooper.gen_main_session_event_related.
    repeat first
      [ apply generate_stroop_session_ignores_global
      | ignores_global_step ].
Qed.
End Determinism.

(** ** numpy indexing and shuffling *)

Lemma take_at_cons_Ok {A : Type} (x : list A) i idx y :
  take_at x (i :: idx) = Ok y →
  ∃ a y', x !! i = Some a ∧ take_at x idx = Ok y' ∧ y = a :: y'.
Proof.
  unfold take_at. simpl. intros Hy. inv_Ok.
  destruct (x !! i) as [b|] eqn:Hi; [|discriminate]. inv_Ok. eauto.
Qed.

Lemma take_at_cons {A : Type} (x : list A) i idx a y :
  x !! i = Some a → take_at x idx = Ok y → take_at x (i :: idx) = Ok (a :: y).
Proof. unfold take_at. simpl. by intros -> ->. Qed.

Lemma take_at_Permutation {A : Type} (x : list A) idx1 idx2 :
  idx1 ≡ₚ idx2 →
  ∀ y1, take_at x idx1 = Ok y1 → ∃ y2, take_at x idx2 = Ok y2 ∧ y1 ≡ₚ y2.
Proof.
  induction 1 as [|i l1 l2 _ IH|i j l|l1 l2 l3 _ IH1 _ IH2]; intros y1 Hy1.
  - eauto.
  - apply take_at_cons_Ok in Hy1 as (a & y' & Hi & Hy' & ->).
    destruct (IH _ Hy') as (y2 & Hy2 & Hp).
    exists (a :: y2). split; [by apply take_at_cons|by constructor].
  - apply take_at_cons_Ok in Hy1 as (a & y' & Hi & Hy' & ->).
    apply take_at_cons_Ok in Hy' as (b & y'' & Hj & Hy'' & ->).
    exists (b :: a :: y''). split; [by repeat apply take_at_cons|constructor].
  - destruct (IH1 _ Hy1) as (y2 & Hy2 & Hp2).
    destruct (IH2 _ Hy2) as (y3 & Hy3 & Hp3).
    exists y3. split; [done|by etrans].
Qed.

Lemma take_at_seq_app {A : Type} (pre x : list A) :
  take_at (pre ++ x) (seq (length pre) (length x)) = Ok x.
Proof.
  revert pre. induction x as [|a x IH]; intros pre; [done|].
  simpl. apply take_at_cons.
  - by rewrite list_lookup_middle.
  - specialize (IH (pre ++ [a])).
    rewrite <- app_assoc, length_app in IH. simpl in IH.
    by rewrite Nat.add_1_r in IH.
Qed.

Lemma take_at_seq {A : Type} (x : list A) : take_at x (seq 0 (length x)) = Ok x.
Proof. apply (take_at_seq_app []). Qed.

(** Indices within bounds select elements of the array. *)
Lemma take_at_bound {A : Type} (x : list A) idx :
  Forall (λ i, i < length x)%nat idx →
  ∃ y, take_at x idx = Ok y ∧ length y = length idx ∧ Forall (λ a, a ∈ x) y.
Proof.
  induction 1 as [|i idx Hi _ (y & Hy & Hlen & Hin)].
  - by exists [].
  - destruct (lookup_lt_is_Some_2 x i Hi) as [a Ha].
    exists (a :: y). split; [by apply take_at_cons|]. split; [simpl; lia|].
    constructor; [|done]. by eapply list_elem_of_lookup_2.
Qed.

Section SamplingFacts.
Context {G : Type} `{Generator G}.

Lemma rng_shuffle_spec {A : Type} (x : list A) (rng : G) :
  ∃ y rng', rng_shuffle x rng = Ok (y, rng') ∧ y ≡ₚ x.
Proof.
  unfold rng_shuffle.
  pose proof (draw_permutation_perm (length x) rng) as Hp.
  destruct (draw_permutation (length x) rng) as [p rng']. simpl in Hp.
  destruct (take_at_Permutation x _ _ (symmetry Hp) x (take_at_seq x))
    as (y & -> & Hy).
  simpl. exists y, rng'. split; [done|by symmetry].
Qed.

Lemma rng_integers_spec lo hi (rng : G) :
  lo < hi → ∃ v rng', rng_integers lo hi rng = Ok (v, rng') ∧ lo ≤ v < hi.
Proof.
  intros Hlt. unfold rng_integers.
  destruct (Z.leb_spec hi lo); [lia|].
  pose proof (draw_integers_range lo hi rng Hlt).
  destruct (draw_integers lo hi rng) as [v rng']. eauto.
Qed.
End SamplingFacts.

(** ** Sub-block sizes of a switching block *)

Lemma sum_app (l1 l2 : list Z) : sum (l1 ++ l2) = sum l1 + sum l2.
Proof. unfold sum. induction l1 as [|a l1 IH]; simpl; lia. Qed.

Lemma sum_Permutation (l1 l2 : list Z) : l1 ≡ₚ l2 → sum l1 = sum l2.
Proof. unfold sum. induction 1; simpl; lia. Qed.

Section SubBlockSizes.
Context {G : Type} `{Generator G}.

(** One iteration of the loop draws from a non-empty range as long as
    the sizes drawn so far leave one trial to each later sub-block. *)
Lemma sub_block_sizes_loop_step total nb i range sizes (rng : G) :
  sum sizes ≤ total - (nb - i) - 1 →
  ∃ size rng',
    1 ≤ size ≤ 4 ∧ sum (sizes ++ [size]) ≤ total - (nb - i) ∧
    Strooper.sub_block_sizes_loop 1 4 total nb (i :: range) sizes rng
    = Strooper.sub_block_sizes_loop 1 4 total nb range (sizes ++ [size]) rng'.
Proof.
  intros Hsum. simpl.
  destruct (rng_integers_spec 1
              (Z.min 4 (total - (nb - i) * 1 - sum sizes) + 1) rng)
    as (size & rng' & -> & Hsize); [lia|].
  exists size, rng'. rewrite sum_app. unfold sum at 2. simpl.
  split; [lia|]. split; [lia|done].
Qed.

Lemma gen_inhib_sub_block_sizes_spec exp (rng : G) :
  ∃ sizes rng',
    Strooper.gen_inhib_sub_block_sizes exp rng = Ok (sizes, rng') ∧
    len sizes = Strooper.NB_TRIALS_SWITCH_PER_BLOCK + 1 ∧
    Forall (λ size, 1 ≤ size) sizes ∧
    sum sizes
    = Strooper.NB_TRIALS_PER_BLOCK - Strooper.NB_TRIALS_SWITCH_PER_BLOCK.
Proof.
  unfold Strooper.gen_inhib_sub_block_sizes.
  change (py_range (Strooper.NB_TRIALS_SWITCH_PER_BLOCK + 1 - 1))
    with [0; 1; 2; 3].
  change (Strooper.NB_TRIALS_PER_BLOCK - Strooper.NB_TRIALS_SWITCH_PER_BLOCK)
    with 11.
  change (Strooper.NB_TRIALS_SWITCH_PER_BLOCK + 1) with 5.
  destruct (sub_block_sizes_loop_step 11 5 0 [1; 2; 3] [] rng)
    as (s0 & rng0 & Hs0 & Hsum0 & ->); [done|].
  destruct (sub_block_sizes_loop_step 11 5 1 [2; 3] ([] ++ [s0]) rng0)
    as (s1 & rng1 & Hs1 & Hsum1 & ->); [lia|].
  destruct (sub_block_sizes_loop_step 11 5 2 [3] (([] ++ [s0]) ++ [s1]) rng1)
    as (s2 & rng2 & Hs2 & Hsum2 & ->); [lia|].
  destruct (sub_block_sizes_loop_step 11 5 3 [] ((([] ++ [s0]) ++ [s1]) ++ [s2])
                                      rng2)
    as (s3 & rng3 & Hs3 & Hsum3 & ->); [lia|].
  simpl app in *. cbn [Strooper.sub_block_sizes_loop res_bind].
  destruct (rng_shuffle_spec ([s0; s1; s2; s3] ++ [11 - sum [s0; s1; s2; s3]])
                             rng3)
    as (sizes & rng' & -> & Hperm).
  cbn [res_bind].
  assert (Hsum : sum sizes = 11).
  { rewrite (sum_Permutation _ _ Hperm). unfold sum. simpl. lia. }
  rewrite Hsum. simpl.
  exists sizes, rng'. split; [done|]. split; [|split; [|done]].
  - unfold len. rewrite Hperm. done.
  - rewrite Hperm. unfold sum in *. simpl in *.
    repeat constructor; lia.
Qed.
End SubBlockSizes.

(** ** The balanced sampler *)

Lemma take_at_Ok_elem_of {A : Type} (x : list A) idx y :
  take_at x idx = Ok y → length y = length idx ∧ Forall (λ a, a ∈ x) y.
Proof.
  revert y. induction idx as [|i idx IH]; intros y Hy.
  - unfold take_at in Hy. simpl in Hy. by inv_Ok.
  - apply take_at_cons_Ok in Hy as (a & y' & Hi & Hy' & ->).
    destruct (IH _ Hy') as [Hlen Hin]. split; [simpl; lia|].
    constructor; [|done]. by eapply list_elem_of_lookup_2.
Qed.

(** Distinct indices that exhaust the population select a rearrangement
    of the array. *)
Lemma take_at_full {A : Type} (x : list A) idx :
  NoDup idx → Forall (λ i, i < length x)%nat idx → length idx = length x →
  ∃ y, take_at x idx = Ok y ∧ y ≡ₚ x.
Proof.
  intros Hnd Hb Hlen.
  assert (Hp : idx ≡ₚ seq 0 (length x)).
  { apply submseteq_length_Permutation.
    - apply NoDup_submseteq; [done|]. intros i Hi. apply elem_of_seq.
      rewrite Forall_forall in Hb. specialize (Hb i Hi). lia.
    - rewrite length_seq. lia. }
  destruct (take_at_Permutation x _ _ (symmetry Hp) x (take_at_seq x))
    as (y & Hy & Hxy).
  exists y. split; [done|by symmetry].
Qed.

Section ChoiceFacts.
Context {G : Type} `{Generator G}.
Context {Gl : Type} `{LegacyRandom Gl}.

Lemma rng_choice_Ok {A : Type} (x : list A) size replace (rng rng' : G) r :
  rng_choice x size replace rng = Ok (r, rng') →
  len r = size ∧ Forall (λ a, a ∈ x) r.
Proof.
  unfold rng_choice. intros Hr.
  destruct (Z.ltb_spec size 0); [discriminate|].
  destruct ((length x =? 0)%nat && negb (Z.to_nat size =? 0)%nat);
    [discriminate|].
  destruct replace.
  - pose proof (draw_indices_length (length x) (Z.to_nat size) rng) as Hlen.
    destruct (draw_indices (length x) (Z.to_nat size) rng) as [idx g].
    inv_Ok. apply take_at_Ok_elem_of in Ha as [Hl Hin].
    split; [|done]. unfold len. simpl in Hlen. lia.
  - destruct (Nat.ltb_spec (length x) (Z.to_nat size)); [discriminate|].
    pose proof (draw_distinct_length (length x) (Z.to_nat size) rng) as Hlen.
    destruct (draw_distinct_indices (length x) (Z.to_nat size) rng) as [idx g].
    inv_Ok. apply take_at_Ok_elem_of in Ha as [Hl Hin].
    split; [|done]. unfold len. simpl in Hlen. lia.
Qed.

(** With replacement: any number of draws from a non-empty array. *)
Lemma rng_choice_replace_spec {A : Type} (x : list A) size (rng : G) :
  x ≠ [] → 0 ≤ size →
  ∃ r rng', rng_choice x size true rng = Ok (r, rng').
Proof.
  intros Hx Hsize. unfold rng_choice.
  destruct (Z.ltb_spec size 0); [lia|].
  destruct x as [|a x]; [done|]. simpl.
  pose proof (draw_indices_bound (S (length x)) (Z.to_nat size) rng) as Hb.
  destruct (draw_indices (S (length x)) (Z.to_nat size) rng) as [idx g].
  destruct (take_at_bound (a :: x) idx) as (y & -> & _); [apply Hb; lia|].
  simpl. eauto.
Qed.

(** Without replacement, fewer draws than the population. *)
Lemma rng_choice_no_replace_spec {A : Type} (x : list A) size (rng : G) :
  0 ≤ size ≤ len x →
  ∃ r rng', rng_choice x size false rng = Ok (r, rng').
Proof.
  intros Hsize. unfold rng_choice, len in *.
  destruct (Z.ltb_spec size 0); [lia|].
  destruct ((length x =? 0)%nat && negb (Z.to_nat size =? 0)%nat) eqn:Hempty.
  { apply andb_true_iff in Hempty as [Hpop%Nat.eqb_eq Hn%negb_true_iff].
    apply Nat.eqb_neq in Hn. lia. }
  destruct (Nat.ltb_spec (length x) (Z.to_nat size)); [lia|].
  pose proof (draw_distinct_bound (length x) (Z.to_nat size) rng) as Hb.
  destruct (draw_distinct_indices (length x) (Z.to_nat size) rng) as [idx g].
  destruct (take_at_bound x idx) as (y & -> & _); [apply Hb; lia|].
  simpl. eauto.
Qed.

(** Without replacement, as many draws as the population: a full
    permutation of the array. *)
Lemma rng_choice_full_spec {A : Type} (x : list A) (rng : G) :
  ∃ r rng', rng_choice x (len x) false rng = Ok (r, rng') ∧ r ≡ₚ x.
Proof.
  unfold rng_choice, len.
  destruct (Z.ltb_spec (Z.of_nat (length x)) 0); [lia|].
  rewrite Nat2Z.id, Nat.ltb_irrefl.
  replace ((length x =? 0)%nat && negb (length x =? 0)%nat) with false
    by by destruct (length x =? 0)%nat.
  pose proof (draw_distinct_bound (length x) (length x) rng) as Hb.
  pose proof (draw_distinct_NoDup (length x) (length x) rng) as Hnd.
  pose proof (draw_distinct_length (length x) (length x) rng) as Hlen.
  destruct (draw_distinct_indices (length x) (length x) rng) as [idx g].
  destruct (take_at_full x idx) as (y & -> & Hy); auto.
  simpl. eauto.
Qed.

Lemma np_random_choice_no_replace_Ok {A : Type} (x : list A) size
    (s s' : Gl) r :
  np_random_choice_no_replace x size s = (Ok r, s') →
  len r = size ∧ Forall (λ a, a ∈ x) r.
Proof.
  unfold np_random_choice_no_replace. intros Hr.
  destruct (Z.ltb_spec size 0); [discriminate|].
  destruct ((length x =? 0)%nat && negb (Z.to_nat size =? 0)%nat);
    [discriminate|].
  destruct (Nat.ltb_spec (length x) (Z.to_nat size)); [discriminate|].
  pose proof (legacy_distinct_length (length x) (Z.to_nat size) s) as Hlen.
  destruct (legacy_distinct_indices (length x) (Z.to_nat size) s) as [idx g].
  injection Hr as Hr ->. apply take_at_Ok_elem_of in Hr as [Hl Hin].
  split; [|done]. unfold len. simpl in Hlen. lia.
Qed.

Lemma np_random_choice_full_spec {A : Type} (x : list A) (s : Gl) :
  ∃ r s', np_random_choice_no_replace x (len x) s = (Ok r, s') ∧ r ≡ₚ x.
Proof.
  unfold np_random_choice_no_replace, len.
  destruct (Z.ltb_spec (Z.of_nat (length x)) 0); [lia|].
  rewrite Nat2Z.id, Nat.ltb_irrefl.
  replace ((length x =? 0)%nat && negb (length x =? 0)%nat) with false
    by by destruct (length x =? 0)%nat.
  pose proof (legacy_distinct_bound (length x) (length x) s) as Hb.
  pose proof (legacy_distinct_NoDup (length x) (length x) s) as Hnd.
  pose proof (legacy_distinct_length (length x) (length x) s) as Hlen.
  destruct (legacy_distinct_indices (length x) (length x) s) as [idx g].
  destruct (take_at_full x idx) as (y & -> & Hy); auto.
  eauto.
Qed.
End ChoiceFacts.

Section ChoiceSpec.
Context {G : Type} `{Generator G}.
Context {Gl : Type} `{LegacyRandom Gl}.

Lemma len_app {A : Type} (l1 l2 : list A) : len (l1 ++ l2) = len l1 + len l2.
Proof. unfold len. rewrite length_app. lia. Qed.

Lemma len_Permutation {A : Type} (l1 l2 : list A) :
  l1 ≡ₚ l2 → len l1 = len l2.
Proof. unfold len. by intros ->. Qed.

Lemma len_pos {A : Type} (l : list A) : l ≠ [] → 1 ≤ len l.
Proof. destruct l; [done|]. unfold len. simpl. lia. Qed.

(** The nested calls a balanced request of [n] items among [m] candidates
    needs: one per full copy of the candidates. *)
Lemma div_overflow (n m : Z) :
  0 < m → m ≤ n → 1 ≤ n `div` m ∧ (n - m) `div` m = n `div` m - 1.
Proof.
  intros Hm Hn. split.
  - apply Z.div_le_lower_bound; lia.
  - replace n with ((n - m) + 1 * m) at 2 by lia.
    rewrite Z.div_add by lia. lia.
Qed.

Lemma choice_rec_eq {A : Type} depth (l : list A) n balanced (rng : G) :
  choice_rec (Gl:=Gl) depth l n balanced rng =
  if n <? len l then
    if negb balanced then m_lift (rng_choice l n true rng)
    else m_lift (rng_choice l n false rng)
  else
    if negb balanced then
      let! '(p, rng) := m_lift (rng_choice l (len l) false rng) in
      let! '(r, rng) := m_lift (rng_choice l (n - len l) true rng) in
      m_ret (p ++ r, rng)
    else
      let! '(p, rng) := m_lift (rng_choice l (len l) false rng) in
      match depth with
      | O => m_lift (Raise RecursionError)
      | S depth' =>
          let! '(r, rng) := choice_rec depth' l (n - len l) true rng in
          let! c := np_random_choice_no_replace (p ++ r) n in
          m_ret (c, rng)
      end.
Proof. by destruct depth. Qed.

(** Whatever [choice] returns has the requested length and is made of
    candidates. *)
Lemma choice_rec_Ok {A : Type} depth (l : list A) n balanced (rng rng' : G)
    (s s' : Gl) r :
  choice_rec depth l n balanced rng s = (Ok (r, rng'), s') →
  len r = n ∧ Forall (λ a, a ∈ l) r.
Proof.
  revert n balanced rng rng' s s' r.
  induction depth as [|depth IH]; intros n balanced rng rng' s s' r;
    rewrite choice_rec_eq; destruct (n <? len l); destruct balanced; simpl;
    intros Hr; inv_Ok;
    try (by eapply rng_choice_Ok).
  - apply rng_choice_Ok in Ha as [Hp Hpin].
    apply rng_choice_Ok in Ha0 as [Hq Hqin].
    rewrite len_app. split; [lia|]. by apply Forall_app.
  - apply rng_choice_Ok in Ha as [Hp Hpin].
    apply IH in Ha0 as [Hq Hqin].
    apply np_random_choice_no_replace_Ok in Ha1 as [Hc Hcin].
    split; [done|].
    eapply Forall_impl; [exact Hcin|]. simpl. intros c Hcc.
    rewrite Forall_forall in Hpin, Hqin.
    apply elem_of_app in Hcc as [Hcc|Hcc]; auto.
  - apply rng_choice_Ok in Ha as [Hp Hpin].
    apply rng_choice_Ok in Ha0 as [Hq Hqin].
    rewrite len_app. split; [lia|]. by apply Forall_app.
Qed.

Lemma choice_Ok {A : Type} (l : list A) n balanced (rng rng' : G)
    (s s' : Gl) r :
  choice l n balanced rng s = (Ok (r, rng'), s') →
  len r = n ∧ Forall (λ a, a ∈ l) r.
Proof. apply choice_rec_Ok. Qed.

(** On a non-empty candidate list [choice] returns, provided the nesting
    has room for the balanced recursion, and when at least as many items
    are requested as there are candidates, each candidate is among
    them. *)
Lemma choice_rec_spec {A : Type} depth (l : list A) n balanced (rng : G)
    (s : Gl) :
  l ≠ [] → 0 ≤ n →
  (balanced = true → (Z.to_nat (n `div` len l) ≤ depth)%nat) →
  ∃ r rng' s',
    choice_rec depth l n balanced rng s = (Ok (r, rng'), s') ∧
    len r = n ∧ (len l ≤ n → ∀ a, a ∈ l → a ∈ r).
Proof.
  intros Hl. pose proof (len_pos l Hl) as Hlen.
  revert n balanced rng s.
  induction depth as [|depth IH]; intros n balanced rng s Hn Hdepth;
    rewrite choice_rec_eq; destruct (Z.ltb_spec n (len l)) as [Hlt|Hge].
  1, 3: destruct balanced; simpl;
    [ destruct (rng_choice_no_replace_spec l n rng) as (r & rng' & Hr);
        [lia|]
    | destruct (rng_choice_replace_spec l n rng) as (r & rng' & Hr);
        [done|done|] ];
    unfold m_lift; rewrite Hr; exists r, rng', s;
    (split; [done|]); (split; [by eapply rng_choice_Ok|lia]).
  1: destruct balanced;
    [destruct (div_overflow n (len l)) as [Hdiv _]; [lia|lia|];
     specialize (Hdepth eq_refl); lia|].
  2: destruct balanced.
  - (* unbalanced overflow *)
    simpl.
    destruct (rng_choice_full_spec l rng) as (p & rng1 & Hp & Hperm).
    destruct (rng_choice_replace_spec l (n - len l) rng1)
      as (r & rng2 & Hr); [done|lia|].
    unfold m_bind, m_lift, m_ret. rewrite Hp, Hr.
    exists (p ++ r), rng2, s. split; [done|].
    apply rng_choice_Ok in Hr as [Hrlen _].
    rewrite len_app, (len_Permutation _ _ Hperm). split; [lia|].
    intros _ a Ha. apply elem_of_app. left. by rewrite Hperm.
  - (* balanced overflow *)
    simpl.
    destruct (rng_choice_full_spec l rng) as (p & rng1 & Hp & Hperm).
    destruct (div_overflow n (len l)) as [Hdiv Hsub]; [lia|lia|].
    specialize (Hdepth eq_refl).
    destruct (IH (n - len l) true rng1 s) as (r & rng2 & s1 & Hr & Hrlen & _);
      [lia|intros _; rewrite Hsub; lia|].
    assert (Hpr : len (p ++ r) = n).
    { rewrite len_app, (len_Permutation _ _ Hperm). lia. }
    destruct (np_random_choice_full_spec (p ++ r) s1) as (c & s2 & Hc & Hcperm).
    rewrite Hpr in Hc.
    unfold m_bind, m_lift, m_ret. rewrite Hp, Hr, Hc.
    exists c, rng2, s2. split; [done|].
    split; [by rewrite (len_Permutation _ _ Hcperm)|].
    intros _ a Ha. rewrite Hcperm. apply elem_of_app. left. by rewrite Hperm.
  - (* unbalanced overflow *)
    simpl.
    destruct (rng_choice_full_spec l rng) as (p & rng1 & Hp & Hperm).
    destruct (rng_choice_replace_spec l (n - len l) rng1)
      as (r & rng2 & Hr); [done|lia|].
    unfold m_bind, m_lift, m_ret. rewrite Hp, Hr.
    exists (p ++ r), rng2, s. split; [done|].
    apply rng_choice_Ok in Hr as [Hrlen _].
    rewrite len_app, (len_Permutation _ _ Hperm). split; [lia|].
    intros _ a Ha. apply elem_of_app. left. by rewrite Hperm.
Qed.
End ChoiceSpec.

(** ** Python containers: facts *)

Lemma res_mapM_Ok {A B : Type} (f : A → Res B) l r :
  res_mapM f l = Ok r → Forall2 (λ a b, f a = Ok b) l r.
Proof.
  revert r. induction l as [|a l IH]; intros r Hr; simpl in Hr; inv_Ok.
  - constructor.
  - constructor; auto.
Qed.

Lemma res_mapM_total {A B : Type} (f : A → Res B) l :
  Forall (λ a, ∃ b, f a = Ok b) l → ∃ r, res_mapM f l = Ok r.
Proof.
  induction 1 as [|a l [b Hb] _ [r Hr]]; simpl; [eauto|].
  rewrite Hb, Hr. simpl. eauto.
Qed.

Lemma py_getitem_Ok {A : Type} (l : list A) i a :
  py_getitem l i = Ok a → a ∈ l.
Proof.
  unfold py_getitem.
  destruct ((_ <? 0) || _); [discriminate|].
  destruct (l !! _) as [b|] eqn:Hb; [|discriminate].
  intros [= ->]. by eapply list_elem_of_lookup_2.
Qed.

Lemma py_getitem_nonneg {A : Type} (l : list A) i :
  0 ≤ i < len l → py_getitem l i = match l !! Z.to_nat i with
                                   | Some a => Ok a
                                   | None => Raise IndexError
                                   end.
Proof.
  intros Hi. unfold py_getitem.
  destruct (Z.ltb_spec i 0); [lia|].
  destruct (Z.ltb_spec i 0); [lia|].
  destruct (Z.leb_spec (len l) i); [lia|]. done.
Qed.

Lemma py_getitem_total {A : Type} (l : list A) i :
  0 ≤ i < len l → ∃ a, py_getitem l i = Ok a.
Proof.
  intros Hi. rewrite py_getitem_nonneg by done.
  destruct (lookup_lt_is_Some_2 l (Z.to_nat i)) as [a ->]; [|eauto].
  unfold len in Hi. lia.
Qed.

Lemma elem_of_py_range n i : i ∈ py_range n ↔ 0 ≤ i < n.
Proof.
  unfold py_range. rewrite list_elem_of_fmap. split.
  - intros (k & -> & Hk%elem_of_seq). lia.
  - intros Hi. exists (Z.to_nat i). split; [lia|]. apply elem_of_seq. lia.
Qed.

Lemma enumerate_from_elem_of {A : Type} (l : list A) start p a :
  (p, a) ∈ enumerate_from start l →
  start ≤ p ∧ l !! Z.to_nat (p - start) = Some a.
Proof.
  revert start. induction l as [|b l IH]; intros start Hp; simpl in Hp.
  - by apply elem_of_nil in Hp.
  - apply elem_of_cons in Hp as [[= -> ->]|Hp].
    + split; [lia|]. by rewrite Z.sub_diag.
    + apply IH in Hp as [Hle Hl]. split; [lia|].
      replace (Z.to_nat (p - start)) with (S (Z.to_nat (p - (start + 1))))
        by lia.
      done.
Qed.

Lemma enumerate_from_length {A : Type} (l : list A) start :
  length (enumerate_from start l) = length l.
Proof.
  revert start. induction l as [|b l IH]; intros start; simpl; [done|].
  by rewrite IH.
Qed.

(** [np.where(a == v)[0]] has one entry per occurrence of [v]. *)
Lemma np_where_eq_from_length (a : list Z) v start :
  length (map fst (filter (λ p, p.2 = v) (enumerate_from start a)))
  = length (filter (λ t, t = v) a).
Proof.
  revert start. induction a as [|t a IH]; intros start; simpl; [done|].
  rewrite !filter_cons. simpl.
  destruct (decide (t = v)); simpl; by rewrite IH.
Qed.

Lemma np_where_eq_length (a : list Z) v :
  length (np_where_eq a v) = length (filter (λ t, t = v) a).
Proof. apply np_where_eq_from_length. Qed.

Lemma np_where_eq_elem_of (a : list Z) v p :
  p ∈ np_where_eq a v → (p, v) ∈ enumerate a.
Proof.
  unfold np_where_eq. rewrite list_elem_of_fmap.
  intros ([q t] & -> & Hq). apply list_elem_of_filter in Hq as [Hv Hq].
  simpl in *. by subst.
Qed.

(** ** Switching trials follow naming-inhibition trials *)

Lemma switching_follows_inhibition_nil : switching_follows_inhibition [].
Proof. intros i Hi. by rewrite lookup_nil in Hi. Qed.

Lemma switching_follows_inhibition_cons t trial_seq :
  t ≠ TRIAL_RI →
  switching_follows_inhibition trial_seq →
  switching_follows_inhibition (t :: trial_seq).
Proof.
  intros Ht Hseq [|i] Hi; simpl in Hi; [congruence|].
  destruct (Hseq i Hi) as (j & -> & Hj). by exists (S j).
Qed.

Lemma switching_follows_inhibition_spliced trial_seq :
  switching_follows_inhibition trial_seq →
  switching_follows_inhibition (TRIAL_NI :: TRIAL_RI :: trial_seq).
Proof.
  intros Hseq [|[|i]] Hi; simpl in Hi.
  - discriminate.
  - by exists 0%nat.
  - destruct (Hseq i Hi) as (j & -> & Hj). by exists (S (S j)).
Qed.

(** The splicing loop of [gen_random_stroop_seq]. *)
Lemma splice_switching_follows_inhibition (stim_seq itrial_switching : list Z)
    start :
  Forall (λ t, t ≠ TRIAL_RI) stim_seq →
  (∀ p t, p ∈ itrial_switching → (p, t) ∈ enumerate_from start stim_seq →
          t = TRIAL_NI) →
  switching_follows_inhibition
    (flat_map (λ '(itrial, trial),
                 if decide (itrial ∈ itrial_switching)
                 then [trial; TRIAL_RI] else [trial])
              (enumerate_from start stim_seq)).
Proof.
  revert start. induction stim_seq as [|t stim_seq IH]; intros start Hri Hsw.
  - apply switching_follows_inhibition_nil.
  - apply Forall_cons in Hri as [Ht Hri]. simpl.
    assert (Hrest : switching_follows_inhibition
              (flat_map (λ '(itrial, trial),
                           if decide (itrial ∈ itrial_switching)
                           then [trial; TRIAL_RI] else [trial])
                        (enumerate_from (start + 1) stim_seq))).
    { apply IH; [done|]. intros p t' Hp Hin.
      apply (Hsw p t' Hp). by apply list_elem_of_further. }
    destruct (decide (start ∈ itrial_switching)) as [Hstart|Hstart]; simpl.
    + rewrite (Hsw start t Hstart) by apply list_elem_of_here.
      by apply switching_follows_inhibition_spliced.
    + by apply switching_follows_inhibition_cons.
Qed.

Lemma filter_replicate_eq (n : nat) (v : Z) :
  filter (λ t, t = v) (replicate n v) = replicate n v.
Proof.
  induction n as [|n IH]; simpl; [done|].
  rewrite filter_cons. destruct (decide (v = v)); [|done]. by rewrite IH.
Qed.

Lemma filter_replicate_ne (n : nat) (v w : Z) :
  w ≠ v → filter (λ t, t = v) (replicate n w) = [].
Proof.
  intros Hne. induction n as [|n IH]; simpl; [done|].
  rewrite filter_cons. by destruct (decide (w = v)).
Qed.

Section StroopSeqFacts.
Context {G : Type} `{Generator G}.

Lemma gen_random_stroop_seq_Ok nb_naming_control nb_naming_inhib
    nb_switching (rng rng' : G) trial_seq :
  gen_random_stroop_seq nb_naming_control nb_naming_inhib nb_switching rng
  = Ok (trial_seq, rng') →
  switching_follows_inhibition trial_seq.
Proof.
  unfold gen_random_stroop_seq.
  destruct (negb (nb_switching <? nb_naming_inhib)); [discriminate|].
  unfold np_zeros_plus.
  destruct (nb_naming_control <? 0); [discriminate|].
  destruct (nb_naming_inhib <? 0); [discriminate|]. simpl.
  destruct (rng_shuffle_spec
              (replicate (Z.to_nat nb_naming_control) TRIAL_NX
               ++ replicate (Z.to_nat nb_naming_inhib) TRIAL_NI) rng)
    as (stim_seq & rng1 & -> & Hperm).
  simpl. intros Hr. inv_Ok.
  apply splice_switching_follows_inhibition.
  - rewrite Hperm. apply Forall_app. split; apply Forall_replicate; done.
  - intros p t Hp Hin.
    apply res_mapM_Ok in Ha0.
    assert (Hw : p ∈ np_where_eq stim_seq TRIAL_NI).
    { apply list_elem_of_lookup in Hp as [k Hk].
      destruct (Forall2_lookup_r _ _ _ _ _ Ha0 Hk) as (i & _ & Hi).
      by eapply py_getitem_Ok. }
    apply np_where_eq_elem_of in Hw.
    apply enumerate_from_elem_of in Hw as [_ Hw].
    apply enumerate_from_elem_of in Hin as [_ Hin].
    congruence.
Qed.

Lemma gen_random_stroop_seq_total nb_naming_control nb_naming_inhib
    nb_switching (rng : G) :
  0 ≤ nb_naming_control → 0 ≤ nb_switching < nb_naming_inhib →
  ∃ trial_seq rng',
    gen_random_stroop_seq nb_naming_control nb_naming_inhib nb_switching rng
    = Ok (trial_seq, rng').
Proof.
  intros Hc Hsw. unfold gen_random_stroop_seq, np_zeros_plus.
  destruct (Z.ltb_spec nb_switching nb_naming_inhib); [|lia].
  destruct (Z.ltb_spec nb_naming_control 0); [lia|].
  destruct (Z.ltb_spec nb_naming_inhib 0); [lia|]. simpl.
  destruct (rng_shuffle_spec
              (replicate (Z.to_nat nb_naming_control) TRIAL_NX
               ++ replicate (Z.to_nat nb_naming_inhib) TRIAL_NI) rng)
    as (stim_seq & rng1 & -> & Hperm).
  simpl.
  destruct (rng_choice_no_replace_spec (py_range nb_naming_inhib)
                                       nb_switching rng1)
    as (idx & rng2 & Hidx).
  { unfold len, py_range. rewrite length_map, length_seq. lia. }
  rewrite Hidx. simpl.
  apply rng_choice_Ok in Hidx as [_ Hin].
  destruct (res_mapM_total (py_getitem (np_where_eq stim_seq TRIAL_NI)) idx)
    as [positions ->]; [|simpl; eauto].
  eapply Forall_impl; [exact Hin|]. simpl. intros i Hi%elem_of_py_range.
  apply py_getitem_total. unfold len.
  rewrite np_where_eq_length, Hperm, filter_app, length_app.
  rewrite filter_replicate_ne by done.
  rewrite filter_replicate_eq, length_replicate. simpl. lia.
Qed.
End StroopSeqFacts.

(** ** The trial catalog *)

Lemma incongruences_COLORS_spec :
  Forall (λ '(word, col_name, col),
            word ≠ col_name ∧ dict_get COLOR_NAMES col = Ok col_name ∧
            (∃ rgb, (word, rgb) ∈ Strooper.COLORS))
         (incongruences Strooper.COLORS).
Proof.
  set (l := incongruences Strooper.COLORS). vm_compute in l. subst l.
  repeat constructor; try done;
    eexists; unfold Strooper.COLORS;
    repeat (first [apply list_elem_of_here | apply list_elem_of_further]).
Qed.

Section CatalogFacts.
Variable surface_size : XpStim → Z * Z.

Lemma gen_word_stim_Ok exp word color stim_type framed s :
  Strooper.gen_word_stim surface_size exp word color stim_type framed = Ok s →
  ink_color s = Some color ∧
  rendered_word exp s word ∧
  duration_ms s = Some (NInt Strooper.STIM_DURATION) ∧
  responses s = Some Strooper.KEYS ∧
  if framed then expected_answer s = Some word
  else ∃ name, dict_get COLOR_NAMES color = Ok name ∧
               expected_answer s = Some name.
Proof.
  unfold Strooper.gen_word_stim, rendered_word. intros Hs.
  apply res_bind_Ok in Hs as (text & Htext & Hs).
  destruct framed; cbn [negb res_bind] in Hs; inv_Ok;
    (split; [done|]); (split; [by eexists _, _, _|]); eauto.
Qed.

Lemma gen_inhib_trials_Ok exp colors framed prepend_cue ts :
  Strooper.gen_inhib_trials surface_size exp colors framed prepend_cue = Ok ts →
  Forall2 (word_trial surface_size exp framed prepend_cue)
          (incongruences (default Strooper.COLORS colors)) ts.
Proof.
  unfold Strooper.gen_inhib_trials. intros Hts%res_mapM_Ok.
  eapply Forall2_impl; [exact Hts|]. simpl.
  intros [[word col_name] col] t Ht. inv_Ok. exists a.
  by destruct prepend_cue.
Qed.

Lemma gen_switch_trials_Ok exp prepend_cue ts :
  Strooper.gen_switch_trials surface_size exp prepend_cue = Ok ts →
  Forall2 (word_trial surface_size exp true prepend_cue)
          (incongruences Strooper.COLORS) ts.
Proof.
  unfold Strooper.gen_switch_trials. intros Hts%res_mapM_Ok.
  eapply Forall2_impl; [exact Hts|]. simpl.
  intros [[word col_name] col] t Ht. inv_Ok. exists a.
  by destruct prepend_cue.
Qed.

Lemma gen_naming_trials_Ok exp words colors prepend_cue ts :
  Strooper.gen_naming_trials surface_size exp words colors prepend_cue = Ok ts →
  Forall (λ t, ∃ word color s,
            Strooper.gen_word_stim surface_size exp word color "control" false
            = Ok s ∧
            stimuli t = if prepend_cue then [Strooper.gen_cue_stim exp; s]
                        else [s]) ts.
Proof.
  unfold Strooper.gen_naming_trials. intros Hts%res_mapM_Ok.
  eapply Forall2_Forall_r; [exact Hts|].
  apply Forall_forall. intros [word [col_name col]] _ t Ht. inv_Ok.
  exists word, col, a. by destruct prepend_cue.
Qed.

Lemma Forall2_impl_Forall_l {A B : Type} (P : A → Prop) (R Q : A → B → Prop)
    l k :
  Forall P l → Forall2 R l k → (∀ x y, P x → R x y → Q x y) → Forall2 Q l k.
Proof.
  intros HP HR HQ. induction HR as [|x y l k Hxy _ IH]; [constructor|].
  apply Forall_cons in HP as [Hx HP]. constructor; auto.
Qed.

Lemma word_trial_catalog_answer exp framed prepend_cue item t :
  (let '(word, col_name, col) := item in
   word ≠ col_name ∧ dict_get COLOR_NAMES col = Ok col_name ∧
   (∃ rgb, (word, rgb) ∈ Strooper.COLORS)) →
  word_trial surface_size exp framed prepend_cue item t →
  catalog_answer exp framed item t.
Proof.
  destruct item as [[word col_name] col].
  intros (Hne & Hname & _) (s & Hs & Hstims). simpl in Hs.
  apply gen_word_stim_Ok in Hs as (Hink & Hword & _ & _ & Hans).
  split; [done|]. split.
  { exists s. split.
    - rewrite Hstims. destruct prepend_cue;
        [apply list_elem_of_further|]; apply list_elem_of_here.
    - destruct framed; [by rewrite Hans|].
      by destruct Hans as (name & _ & ->). }
  intros s' Hs' Hscored.
  assert (s' = s) as ->.
  { rewrite Hstims in Hs'. destruct prepend_cue.
    - apply elem_of_cons in Hs' as [->|Hs'].
      + by destruct Hscored.
      + by apply list_elem_of_singleton in Hs'.
    - by apply list_elem_of_singleton in Hs'. }
  split; [done|]. split.
  - unfold ink_color_name. by rewrite Hink, Hname.
  - destruct framed; [done|].
    destruct Hans as (name & Hname' & ->). congruence.
Qed.

Lemma gen_inhib_trials_catalog_answer exp framed prepend_cue ts :
  Strooper.gen_inhib_trials surface_size exp None framed prepend_cue = Ok ts →
  Forall2 (catalog_answer exp framed) (incongruences Strooper.COLORS) ts.
Proof.
  intros Hts%gen_inhib_trials_Ok.
  eapply Forall2_impl_Forall_l;
    [apply incongruences_COLORS_spec|exact Hts|].
  intros item t. apply word_trial_catalog_answer.
Qed.

Lemma gen_switch_trials_catalog_answer exp prepend_cue ts :
  Strooper.gen_switch_trials surface_size exp prepend_cue = Ok ts →
  Forall2 (catalog_answer exp true) (incongruences Strooper.COLORS) ts.
Proof.
  intros Hts%gen_switch_trials_Ok.
  eapply Forall2_impl_Forall_l;
    [apply incongruences_COLORS_spec|exact Hts|].
  intros item t. apply word_trial_catalog_answer.
Qed.
End CatalogFacts.

(** ** No expected answer is repeated in the event-related block *)

Lemma py_getitem_0 {A : Type} (l : list A) a :
  py_getitem l 0 = Ok a → ∃ l', l = a :: l'.
Proof.
  destruct l as [|b l].
  - intros Hr. cbv in Hr. discriminate.
  - rewrite py_getitem_nonneg by (unfold len; simpl; lia). simpl.
    intros [= ->]. eauto.
Qed.

Lemma first_answer_py_getitem t s0 :
  py_getitem (stimuli t) 0 = Ok s0 → first_answer t = expected_answer s0.
Proof. intros [l' Hl]%py_getitem_0. unfold first_answer. by rewrite Hl. Qed.

Lemma no_repeat_snoc answers a :
  no_repeat answers → last answers ≠ Some a → no_repeat (answers ++ [a]).
Proof.
  induction answers as [|b [|c answers] IH]; simpl; intros Hnr Hlast.
  - done.
  - split; [|done]. congruence.
  - destruct Hnr as [Hbc Hnr]. split; [done|]. by apply IH.
Qed.

Lemma scored_answers_snoc ts t a :
  first_answer t = Some a → scored_answers (ts ++ [t]) = scored_answers ts ++ [a].
Proof. intros Ht. unfold scored_answers. rewrite omap_app. simpl. by rewrite Ht. Qed.

Lemma scored_answers_snoc_unscored ts t :
  first_answer t = None → scored_answers (ts ++ [t]) = scored_answers ts.
Proof.
  intros Ht. unfold scored_answers. rewrite omap_app. simpl.
  by rewrite Ht, app_nil_r.
Qed.

Section EventRelated.
Context {G : Type} `{Generator G}.
Context {Gl : Type} `{LegacyRandom Gl}.
Variable surface_size : XpStim → Z * Z.

Lemma trials_not_answering_Ok prev all_trials kept :
  Strooper.trials_not_answering prev all_trials = Ok kept →
  Forall (λ t, is_Some (first_answer t)) all_trials →
  answers_another (Some prev) kept.
Proof.
  revert kept. induction all_trials as [|t all_trials IH]; intros kept Hk Hall.
  - simpl in Hk. inv_Ok. constructor.
  - apply Forall_cons in Hall as [[answer Ht] Hall]. simpl in Hk. inv_Ok.
    match goal with
    | Hs : py_getitem (stimuli t) 0 = Ok _ |- _ =>
        apply first_answer_py_getitem in Hs; rewrite Ht in Hs
    end.
    case_decide; inv_Ok.
    + constructor; [|by apply IH]. exists answer. split; [done|]. congruence.
    + by apply IH.
Qed.

Lemma next_trials_by_answer_Ok all_trials by_answer :
  Strooper.next_trials_by_answer all_trials = Ok by_answer →
  Forall (λ t, is_Some (first_answer t)) all_trials →
  ∀ prev candidates,
    dict_get by_answer prev = Ok candidates → answers_another prev candidates.
Proof.
  unfold Strooper.next_trials_by_answer. intros Hd Hall prev cands Hget.
  inv_Ok. apply res_mapM_Ok in Ha. simpl in Hget.
  destruct (decide (None = prev)) as [<-|Hprev].
  { inv_Ok. eapply Forall_impl; [exact Hall|]. simpl.
    intros t [b Hb]. by exists b. }
  induction Ha as [|[c rgb] entry colors by_color Hentry _ IH];
    simpl in Hget; [discriminate|].
  inv_Ok. simpl in Hget.
  destruct (decide (Some c = prev)) as [<-|_]; [|by apply IH].
  inv_Ok. by eapply trials_not_answering_Ok.
Qed.

Lemma stroop_session_loop_no_repeat exp next_trials pairs ts prev (rng : G)
    (s : Gl) ts' rng' s' :
  next_trials_differ next_trials →
  no_repeat (scored_answers ts) →
  last (scored_answers ts) = prev →
  Strooper.stroop_session_loop exp next_trials pairs ts prev rng s
  = (Ok (ts', rng'), s') →
  no_repeat (scored_answers ts').
Proof.
  intros Hnext. revert ts prev rng s.
  induction pairs as [|[stim_symbol isi_ms] pairs IH];
    intros ts prev rng s Hnr Hlast Hloop; simpl in Hloop; inv_Ok; [done|].
  match goal with
  | Hc : choice ?cands 1 false _ _ = (Ok (?picked, _), _),
    Hp : py_getitem ?picked 0 = Ok ?chosen,
    Hs : py_getitem (stimuli ?chosen) 0 = Ok ?stim0,
    H1 : dict_get next_trials _ = Ok ?by_type,
    H2 : dict_get ?by_type _ = Ok ?by_answer,
    H3 : dict_get ?by_answer prev = Ok ?cands |- _ =>
      apply choice_Ok in Hc as [_ Hpicked];
      apply py_getitem_Ok in Hp;
      rewrite Forall_forall in Hpicked; specialize (Hpicked _ Hp);
      specialize (Hnext _ _ _ _ _ _ H1 H2 H3);
      unfold answers_another in Hnext; rewrite Forall_forall in Hnext;
      destruct (Hnext _ Hpicked) as (answer & Hanswer & Hne);
      apply first_answer_py_getitem in Hs;
      change [chosen; Strooper.rest_trial exp (NFloat isi_ms)]
        with ([chosen] ++ [Strooper.rest_trial exp (NFloat isi_ms)]) in Hloop;
      rewrite app_assoc in Hloop;
      assert (Hscored :
        scored_answers ((ts ++ [chosen])
                        ++ [Strooper.rest_trial exp (NFloat isi_ms)])
        = scored_answers ts ++ [answer])
        by (rewrite scored_answers_snoc_unscored by done;
            by apply scored_answers_snoc)
  end.
  eapply IH; [| |exact Hloop]; rewrite Hscored.
  - apply no_repeat_snoc; [done|]. by rewrite Hlast.
  - rewrite last_snoc. congruence.
Qed.
End EventRelated.

Section EventRelatedSession.
Context {G : Type} `{Generator G}.
Context {Gl : Type} `{LegacyRandom Gl}.
Variable surface_size : XpStim → Z * Z.

Lemma gen_word_stim_scored exp word color stim_type framed s :
  Strooper.gen_word_stim surface_size exp word color stim_type framed = Ok s →
  is_Some (expected_answer s).
Proof.
  intros (_ & _ & _ & _ & Hans)%gen_word_stim_Ok.
  destruct framed; [by rewrite Hans|].
  destruct Hans as (name & _ & ->). done.
Qed.

Lemma word_trial_scored exp framed item t :
  word_trial surface_size exp framed false item t →
  is_Some (first_answer t).
Proof.
  intros (s & Hs & Hstims). unfold first_answer. rewrite Hstims.
  by eapply gen_word_stim_scored.
Qed.

Lemma gen_switch_trials_scored exp ts :
  Strooper.gen_switch_trials surface_size exp false = Ok ts →
  Forall (λ t, is_Some (first_answer t)) ts.
Proof.
  intros Hts%gen_switch_trials_Ok.
  eapply Forall2_Forall_r; [exact Hts|].
  apply Forall_forall. intros item _ t. apply word_trial_scored.
Qed.

Lemma gen_inhib_trials_scored exp colors framed ts :
  Strooper.gen_inhib_trials surface_size exp colors framed false = Ok ts →
  Forall (λ t, is_Some (first_answer t)) ts.
Proof.
  intros Hts%gen_inhib_trials_Ok.
  eapply Forall2_Forall_r; [exact Hts|].
  apply Forall_forall. intros item _ t. apply word_trial_scored.
Qed.

Lemma gen_naming_trials_scored exp words colors ts :
  Strooper.gen_naming_trials surface_size exp words colors false = Ok ts →
  Forall (λ t, is_Some (first_answer t)) ts.
Proof.
  intros Hts%gen_naming_trials_Ok.
  eapply Forall_impl; [exact Hts|]. simpl.
  intros t (word & color & s & Hs & Hstims).
  unfold first_answer. rewrite Hstims. by eapply gen_word_stim_scored.
Qed.

Lemma generate_stroop_session_Ok exp stim_seq isis_ms (rng rng' : G)
    (s s' : Gl) session :
  Strooper.generate_stroop_session surface_size exp stim_seq isis_ms rng s
  = (Ok (session, rng'), s') →
  ∃ pre main post,
    blocks session = [pre; main; post] ∧
    block_label main = "Block_Stroop_ER" ∧
    no_repeat (scored_answers (trials main)).
Proof.
  unfold Strooper.generate_stroop_session. intros Hs. inv_Ok.
  eexists _, _, _. split; [reflexivity|]. split; [reflexivity|]. simpl.
  match goal with
  | Hloop : Strooper.stroop_session_loop _ _ _ _ _ _ _ = _,
    Hsw : Strooper.gen_switch_trials _ _ _ = _,
    Hctrl : Strooper.gen_naming_trials _ _ _ _ _ = _,
    Hinhib : Strooper.gen_inhib_trials _ _ _ _ _ = _ |- _ =>
      eapply stroop_session_loop_no_repeat; [| | |exact Hloop];
        [|done|done];
      apply gen_switch_trials_scored in Hsw;
      apply gen_naming_trials_scored in Hctrl;
      apply gen_inhib_trials_scored in Hinhib
  end.
  intros task stim_type by_type by_answer prev cands Htask Htype Hprev.
  simpl in Htask.
  repeat case_decide; inv_Ok; simpl in Htype;
    repeat case_decide; inv_Ok;
    (eapply next_trials_by_answer_Ok; [| |exact Hprev]; eassumption).
Qed.
End EventRelatedSession.

(** ** Layout of an overflowing sample *)

Section ChoiceLayout.
Context {G : Type} `{Generator G}.
Context {Gl : Type} `{LegacyRandom Gl}.

(** The room on the call stack does not matter once it covers the nested
    calls of the request. *)
Lemma choice_rec_depth {A : Type} d1 d2 (l : list A) n balanced (rng : G)
    (s : Gl) :
  l ≠ [] →
  (Z.to_nat (n `div` len l) ≤ d1)%nat → (Z.to_nat (n `div` len l) ≤ d2)%nat →
  choice_rec d1 l n balanced rng s = choice_rec d2 l n balanced rng s.
Proof.
  intros Hl. pose proof (len_pos l Hl) as Hlen.
  revert d2 n balanced rng s.
  induction d1 as [|d1 IH]; intros d2 n balanced rng s Hd1 Hd2;
    rewrite !choice_rec_eq; destruct (Z.ltb_spec n (len l)) as [Hlt|Hge];
    try done; destruct balanced; try done; simpl;
    (destruct (div_overflow n (len l)) as [Hdiv Hsub]; [lia|lia|]).
  - lia.
  - destruct d2 as [|d2]; [lia|].
    unfold m_bind, m_lift.
    destruct (rng_choice l (len l) false rng) as [[p g]|e]; [|done].
    by rewrite (IH d2) by (rewrite Hsub; lia).
Qed.

Lemma choice_unbalanced_overflow {A : Type} (l : list A) n (rng : G) (s : Gl) :
  l ≠ [] → len l ≤ n →
  ∃ p extra rng1 rng2,
    rng_choice l (len l) false rng = Ok (p, rng1) ∧
    rng_choice l (n - len l) true rng1 = Ok (extra, rng2) ∧
    choice l n false rng s = (Ok (p ++ extra, rng2), s) ∧
    p ≡ₚ l ∧
    take (length l) (p ++ extra) ≡ₚ l.
Proof.
  intros Hl Hn. unfold choice. rewrite choice_rec_eq.
  destruct (Z.ltb_spec n (len l)); [lia|]. simpl.
  destruct (rng_choice_full_spec l rng) as (p & rng1 & Hp & Hperm).
  destruct (rng_choice_replace_spec l (n - len l) rng1)
    as (extra & rng2 & Hextra); [done|lia|].
  exists p, extra, rng1, rng2.
  unfold m_bind, m_lift, m_ret. rewrite Hp, Hextra.
  repeat split; try done.
  rewrite take_app_length'; [done|]. by rewrite Hperm.
Qed.

Lemma choice_balanced_overflow {A : Type} (l : list A) n (rng : G) (s : Gl) :
  l ≠ [] → len l ≤ n → (Z.to_nat (n `div` len l) ≤ recursion_budget)%nat →
  ∃ p extra rng1 rng2 s1 c s2,
    rng_choice l (len l) false rng = Ok (p, rng1) ∧
    choice l (n - len l) true rng1 s = (Ok (extra, rng2), s1) ∧
    np_random_choice_no_replace (p ++ extra) n s1 = (Ok c, s2) ∧
    choice l n true rng s = (Ok (c, rng2), s2) ∧
    p ≡ₚ l ∧
    c ≡ₚ p ++ extra.
Proof.
  intros Hl Hn Hroom. pose proof (len_pos l Hl) as Hlen.
  destruct (div_overflow n (len l)) as [Hdiv Hsub]; [lia|lia|].
  destruct (rng_choice_full_spec l rng) as (p & rng1 & Hp & Hperm).
  destruct (choice_rec_spec recursion_budget l (n - len l) true rng1 s)
    as (extra & rng2 & s1 & Hextra & Hextra_len & _);
    [done|lia|intros _; rewrite Hsub; lia|].
  assert (Hpr : len (p ++ extra) = n).
  { rewrite len_app, (len_Permutation _ _ Hperm). lia. }
  destruct (np_random_choice_full_spec (p ++ extra) s1)
    as (c & s2 & Hc & Hcperm).
  rewrite Hpr in Hc.
  exists p, extra, rng1, rng2, s1, c, s2.
  split; [done|]. split; [exact Hextra|]. split; [done|].
  split; [|done].
  unfold choice. rewrite choice_rec_eq.
  destruct (Z.ltb_spec n (len l)); [lia|]. cbn [negb].
  destruct recursion_budget as [|d] eqn:Hd; [lia|].
  rewrite (choice_rec_depth (S d) d) in Hextra by (first [done|rewrite Hsub; lia]).
  unfold m_bind, m_lift, m_ret. rewrite Hp, Hextra, Hc. done.
Qed.

(** A balanced request that needs more nested calls than the call stack
    has room for ends in [RecursionError], before any draw from the
    global state. *)
Lemma choice_rec_exhausts {A : Type} depth (l : list A) n (rng : G) (s : Gl) :
  l ≠ [] → (depth < Z.to_nat (n `div` len l))%nat →
  choice_rec depth l n true rng s = (Raise RecursionError, s).
Proof.
  intros Hl. pose proof (len_pos l Hl) as Hlen.
  revert n rng.
  induction depth as [|depth IH]; intros n rng Hdepth;
    rewrite choice_rec_eq;
    (destruct (Z.ltb_spec n (len l)) as [Hlt|Hge];
     [destruct (Z.le_gt_cases 0 n);
      [rewrite Z.div_small in Hdepth by lia; simpl in Hdepth; lia
      |pose proof (Z.div_lt_upper_bound n (len l) 0); lia]|]);
    cbn [negb];
    destruct (rng_choice_full_spec l rng) as (p & rng1 & Hp & _);
    unfold m_bind, m_lift; rewrite Hp; [done|].
  destruct (div_overflow n (len l)) as [Hdiv Hsub]; [lia|lia|].
  rewrite IH by (rewrite Hsub; lia). done.
Qed.
End ChoiceLayout.

(** * The stated properties *)

Import ToyLaws.

(** ** Determinism of session generation *)

(** C1: for every session label and session type, two calls to
    [Strooper.gen_main_session] with the same configuration return the
    same result, hence the same session tree at every level (blocks,
    labels, marker ids, trials, stimuli, durations, expected answers),
    whatever the state of the global numpy generator at each call, so
    whatever was drawn from it in between, and whatever generator argument
    is passed; the call leaves the global state as it found it. *)
Theorem gen_main_session_reproducible {G : Type} `{Generator G}
    {Gl : Type} `{LegacyRandom Gl}
    (surface_size : XpStim → Z * Z) (sha256_int : string → Z) (exp : ExpData)
    (session_type session_label : string) (rng1 rng2 : option G)
    (np_state1 np_state2 : Gl) :
  let first :=
    Strooper.gen_main_session surface_size sha256_int exp session_type
                              session_label rng1 np_state1 in
  let again :=
    Strooper.gen_main_session surface_size sha256_int exp session_type
                              session_label rng2 np_state2 in
  first.1 = again.1 ∧ first.2 = np_state1.
Proof.
  simpl.
  destruct (gen_main_session_ignores_global (Gl:=Gl) surface_size sha256_int
              exp session_type session_label rng1) as [r Hr].
  change (Strooper.gen_main_session surface_size sha256_int exp session_type
            session_label rng2)
    with (Strooper.gen_main_session (Gl:=Gl) surface_size sha256_int exp
            session_type session_label rng1).
  by rewrite !Hr.
Qed.

(** Both kinds of main session are generated on the concrete generator. *)
Example gen_main_session_block_runs :
  is_Ok (Strooper.gen_main_session Toy.surface_size Toy.sha256_int Toy.exp_data
           "block" "main_block" None (Toy.Global 4344)).1 = true.
Proof. vm_compute. reflexivity. Qed.

Example gen_main_session_ER_runs :
  is_Ok (Strooper.gen_main_session Toy.surface_size Toy.sha256_int Toy.exp_data
           "ER" "main_ER" None (Toy.Global 4344)).1 = true.
Proof. vm_compute. reflexivity. Qed.

(** ** The balanced sampler *)

(** C3 (as the code behaves): in the balanced overflow branch the result
    of [choice] depends on the global numpy state.  The same candidates,
    count and generator give two different samples under two global
    states. *)
Theorem choice_balanced_overflow_reads_global_state :
  (choice [10; 20; 30] 5 true (default_rng 7) (Toy.Global 1)).1
  = Ok ([30; 10; 20; 30; 20], 642666333) ∧
  (choice [10; 20; 30] 5 true (default_rng 7) (Toy.Global 2)).1
  = Ok ([30; 20; 30; 10; 20], 642666333).
Proof. split; vm_compute; reflexivity. Qed.

(** C5 (as the code behaves): for a non-empty candidate list [l] and
    [n >= |l|], the unbalanced [choice] returns [n] items among which
    every element of [l] occurs, and leaves the global state alone.  The
    balanced [choice] nests one call of itself per [|l|] items requested:
    it returns [n] items among which every element of [l] occurs when
    the call stack has room for the [n div |l|] nested calls, and it
    raises [RecursionError] when it has not. *)
Theorem choice_covers_candidates {G : Type} `{Generator G}
    {Gl : Type} `{LegacyRandom Gl} {A : Type}
    (l : list A) (n : Z) (rng : G) (np_state : Gl) :
  l ≠ [] → len l ≤ n →
  (∃ r rng',
     choice l n false rng np_state = (Ok (r, rng'), np_state) ∧
     len r = n ∧ ∀ a, a ∈ l → a ∈ r) ∧
  ((Z.to_nat (n `div` len l) ≤ recursion_budget)%nat →
   ∃ r rng' np_state',
     choice l n true rng np_state = (Ok (r, rng'), np_state') ∧
     len r = n ∧ ∀ a, a ∈ l → a ∈ r) ∧
  ((recursion_budget < Z.to_nat (n `div` len l))%nat →
   choice l n true rng np_state = (Raise RecursionError, np_state)).
Proof.
  intros Hl Hn. pose proof (len_pos l Hl). split; [|split].
  - destruct (choice_unbalanced_overflow l n rng np_state Hl Hn)
      as (p & extra & rng1 & rng2 & _ & Hextra & Hr & Hperm & _).
    exists (p ++ extra), rng2. split; [done|].
    apply rng_choice_Ok in Hextra as [Hlen _]. split.
    + rewrite len_app, (len_Permutation _ _ Hperm). lia.
    + intros a Ha. apply elem_of_app. left. by rewrite Hperm.
  - intros Hroom.
    destruct (choice_rec_spec recursion_budget l n true rng np_state)
      as (r & rng' & s' & Hr & Hlen & Hcov); [done|lia|done|].
    exists r, rng', s'. auto.
  - intros Hroom. by apply choice_rec_exhausts.
Qed.

Lemma choice_covers_candidates_witness :
  (∃ r rng',
     choice [10; 20; 30] 5 false (7 : Z) (Toy.Global 1)
     = (Ok (r, rng'), Toy.Global 1) ∧
     len r = 5 ∧ ∀ a, a ∈ [10; 20; 30] → a ∈ r) ∧
  (∃ r rng' np_state',
     choice [10; 20; 30] 5 true (7 : Z) (Toy.Global 1)
     = (Ok (r, rng'), np_state') ∧
     len r = 5 ∧ ∀ a, a ∈ [10; 20; 30] → a ∈ r) ∧
  choice [1] 1000 true (7 : Z) (Toy.Global 1)
  = (Raise RecursionError, Toy.Global 1).
Proof.
  destruct (choice_covers_candidates [10; 20; 30] 5 (7 : Z) (Toy.Global 1))
    as (Hunbalanced & Hbalanced & _);
    [discriminate|vm_compute; discriminate|].
  destruct (choice_covers_candidates [1] 1000 (7 : Z) (Toy.Global 1))
    as (_ & _ & Hexhausted);
    [discriminate|vm_compute; discriminate|].
  split; [exact Hunbalanced|]. split.
  - apply Hbalanced. apply Nat.leb_le. vm_compute. reflexivity.
  - apply Hexhausted. apply Nat.ltb_lt. vm_compute. reflexivity.
Defined.

(** C9 (as stated, refuted): on an overflowing request [choice] is not
    the sampler of the specification, which re-shuffles the concatenation
    in the unbalanced branch only.  Unbalanced, the code returns the
    concatenation as it is, the coverage first, where the specified
    sampler returns a re-shuffled one; balanced, the code returns a
    rearrangement of the concatenation, where the specified sampler
    returns the concatenation. *)
Lemma choice_is_not_choice_as_specified :
  let code_unbalanced :=
    sample_of (choice [10; 20; 30] 5 false (1 : Z) (Toy.Global 2)).1 in
  let specified_unbalanced :=
    sample_of (choice_as_specified [10; 20; 30] 5 false (1 : Z)) in
  let code_balanced :=
    sample_of (choice [10; 20; 30] 5 true (1 : Z) (Toy.Global 2)).1 in
  let specified_balanced :=
    sample_of (choice_as_specified [10; 20; 30] 5 true (1 : Z)) in
  code_unbalanced = Ok [10; 20; 30; 10; 20] ∧
  specified_unbalanced = Ok [20; 10; 20; 30; 10] ∧
  code_unbalanced ≠ specified_unbalanced ∧
  code_balanced = Ok [30; 10; 20; 10; 20] ∧
  specified_balanced = Ok [10; 20; 30; 10; 20] ∧
  code_balanced ≠ specified_balanced.
Proof. repeat split; vm_compute; (reflexivity || discriminate). Qed.

(** C9 (amended): for a non-empty candidate list and [n >= |l|],
    unbalanced [choice] returns a full permutation of the candidates
    followed by [n - |l|] draws with replacement, with no re-shuffle, so
    that the first [|l|] items of the result always are a permutation of
    the candidates; balanced [choice], when the call stack has room for
    the [n div |l|] nested calls of the request, returns a draw without
    replacement of all [n] items of the concatenation of a full
    permutation and a balanced sample of [n - |l|] items, that is a
    rearrangement of it, taken from the global numpy state. *)
Theorem choice_overflow_layout {G : Type} `{Generator G}
    {Gl : Type} `{LegacyRandom Gl} {A : Type}
    (l : list A) (n : Z) (rng : G) (np_state : Gl) :
  l ≠ [] → len l ≤ n →
  (∃ p extra rng1 rng2,
     rng_choice l (len l) false rng = Ok (p, rng1) ∧
     rng_choice l (n - len l) true rng1 = Ok (extra, rng2) ∧
     choice l n false rng np_state = (Ok (p ++ extra, rng2), np_state) ∧
     p ≡ₚ l ∧
     take (length l) (p ++ extra) ≡ₚ l) ∧
  ((Z.to_nat (n `div` len l) ≤ recursion_budget)%nat →
   ∃ p extra rng1 rng2 np_state1 c np_state2,
     rng_choice l (len l) false rng = Ok (p, rng1) ∧
     choice l (n - len l) true rng1 np_state = (Ok (extra, rng2), np_state1) ∧
     np_random_choice_no_replace (p ++ extra) n np_state1 = (Ok c, np_state2) ∧
     choice l n true rng np_state = (Ok (c, rng2), np_state2) ∧
     p ≡ₚ l ∧
     c ≡ₚ p ++ extra).
Proof.
  intros Hl Hn. split.
  - by apply choice_unbalanced_overflow.
  - intros Hroom. by apply choice_balanced_overflow.
Qed.

Lemma choice_overflow_layout_witness :
  (∃ p extra rng1 rng2,
     rng_choice [10; 20; 30] (len [10; 20; 30]) false (1 : Z) = Ok (p, rng1) ∧
     rng_choice [10; 20; 30] (5 - len [10; 20; 30]) true rng1
     = Ok (extra, rng2) ∧
     choice [10; 20; 30] 5 false (1 : Z) (Toy.Global 2)
     = (Ok (p ++ extra, rng2), Toy.Global 2) ∧
     p ≡ₚ [10; 20; 30] ∧
     take (length [10; 20; 30]) (p ++ extra) ≡ₚ [10; 20; 30]) ∧
  (∃ p extra rng1 rng2 np_state1 c np_state2,
     rng_choice [10; 20; 30] (len [10; 20; 30]) false (1 : Z) = Ok (p, rng1) ∧
     choice [10; 20; 30] (5 - len [10; 20; 30]) true rng1 (Toy.Global 2)
     = (Ok (extra, rng2), np_state1) ∧
     np_random_choice_no_replace (p ++ extra) 5 np_state1 = (Ok c, np_state2) ∧
     choice [10; 20; 30] 5 true (1 : Z) (Toy.Global 2)
     = (Ok (c, rng2), np_state2) ∧
     p ≡ₚ [10; 20; 30] ∧
     c ≡ₚ p ++ extra).
Proof.
  destruct (choice_overflow_layout [10; 20; 30] 5 (1 : Z) (Toy.Global 2))
    as [Hunbalanced Hbalanced]; [discriminate|vm_compute; discriminate|].
  split; [exact Hunbalanced|].
  apply Hbalanced. apply Nat.leb_le. vm_compute. reflexivity.
Defined.

(** ** The trial catalog *)

(** C4 (as stated, refuted): the switching trials of the catalog do not
    expect the name of their ink color.  The first one shows the word
    blue in red ink and expects the answer blue. *)
Lemma switch_trials_do_not_expect_ink_color :
  ¬ (∀ ts, Strooper.gen_switch_trials Toy.surface_size Toy.exp_data true = Ok ts →
           Forall expects_ink_color ts).
Proof.
  intros Hclaim.
  destruct (Strooper.gen_switch_trials Toy.surface_size Toy.exp_data true)
    as [ts|e] eqn:Hts; [|vm_compute in Hts; discriminate].
  specialize (Hclaim ts eq_refl). vm_compute in Hts. injection Hts as <-.
  apply Forall_cons in Hclaim as [Ht _].
  specialize (Ht _ (list_elem_of_further _ _ _ (list_elem_of_here _ _))
                 (mk_is_Some _ _ eq_refl)).
  vm_compute in Ht. discriminate.
Qed.

(** C4 (amended): every inhibition trial built without a frame has a
    scored stimulus, whose expected answer is the name of the ink color
    of the rendered word, which is not the word; every trial built with a
    frame ([gen_inhib_trials] with [framed], and [gen_switch_trials]) has
    a scored stimulus, whose expected answer is the rendered word, which
    is not the name of its ink color. *)
Theorem catalog_expected_answers (surface_size : XpStim → Z * Z)
    (exp : ExpData) (prepend_cue : bool) :
  (∀ framed ts,
     Strooper.gen_inhib_trials surface_size exp None framed prepend_cue = Ok ts →
     Forall2 (catalog_answer exp framed) (incongruences Strooper.COLORS) ts) ∧
  (∀ ts,
     Strooper.gen_switch_trials surface_size exp prepend_cue = Ok ts →
     Forall2 (catalog_answer exp true) (incongruences Strooper.COLORS) ts).
Proof.
  split.
  - intros framed ts. apply gen_inhib_trials_catalog_answer.
  - intros ts. apply gen_switch_trials_catalog_answer.
Qed.

Lemma catalog_expected_answers_witness :
  ∃ unframed framed switching,
    Strooper.gen_inhib_trials Toy.surface_size Toy.exp_data None false true
    = Ok unframed ∧
    Strooper.gen_inhib_trials Toy.surface_size Toy.exp_data None true true
    = Ok framed ∧
    Strooper.gen_switch_trials Toy.surface_size Toy.exp_data true
    = Ok switching ∧
    Forall2 (catalog_answer Toy.exp_data false)
            (incongruences Strooper.COLORS) unframed ∧
    Forall2 (catalog_answer Toy.exp_data true)
            (incongruences Strooper.COLORS) framed ∧
    Forall2 (catalog_answer Toy.exp_data true)
            (incongruences Strooper.COLORS) switching.
Proof.
  destruct (Strooper.gen_inhib_trials Toy.surface_size Toy.exp_data None false
              true) as [unframed|e] eqn:Hu; [|vm_compute in Hu; discriminate].
  destruct (Strooper.gen_inhib_trials Toy.surface_size Toy.exp_data None true
              true) as [framed|e] eqn:Hf; [|vm_compute in Hf; discriminate].
  destruct (Strooper.gen_switch_trials Toy.surface_size Toy.exp_data true)
    as [switching|e] eqn:Hs; [|vm_compute in Hs; discriminate].
  exists unframed, framed, switching.
  destruct (catalog_expected_answers Toy.surface_size Toy.exp_data true)
    as [Hinhib Hswitch].
  repeat split; auto.
Defined.

(** ** The event-related sequence *)

(** C6: for every generator state and all counts with
    [nb_switching < nb_naming_inhib], in the sequence returned by
    [gen_random_stroop_seq] every switching symbol ([TRIAL_RI]) is at a
    position [i > 0] whose predecessor holds a naming-inhibition symbol
    ([TRIAL_NI]), not a naming-control symbol ([TRIAL_NX]); and a sequence
    is returned whenever the counts are not negative. *)
Theorem gen_random_stroop_seq_switching_after_inhibition {G : Type}
    `{Generator G} (nb_naming_control nb_naming_inhib nb_switching : Z)
    (rng : G) :
  nb_switching < nb_naming_inhib →
  (∀ trial_seq rng',
     gen_random_stroop_seq nb_naming_control nb_naming_inhib nb_switching rng
     = Ok (trial_seq, rng') →
     ∀ i, trial_seq !! i = Some TRIAL_RI →
          ∃ j, i = S j ∧ trial_seq !! j = Some TRIAL_NI ∧
               trial_seq !! j ≠ Some TRIAL_NX) ∧
  (0 ≤ nb_naming_control → 0 ≤ nb_switching →
   ∃ trial_seq rng',
     gen_random_stroop_seq nb_naming_control nb_naming_inhib nb_switching rng
     = Ok (trial_seq, rng')).
Proof.
  intros Hsw. split.
  - intros trial_seq rng' Hseq i Hi.
    destruct (gen_random_stroop_seq_Ok _ _ _ _ _ _ Hseq i Hi) as (j & -> & Hj).
    exists j. rewrite Hj. done.
  - intros Hc Hs. by apply gen_random_stroop_seq_total.
Qed.

Lemma gen_random_stroop_seq_switching_after_inhibition_witness :
  (∀ trial_seq rng',
     gen_random_stroop_seq 25 75 25 (7 : Z) = Ok (trial_seq, rng') →
     ∀ i, trial_seq !! i = Some TRIAL_RI →
          ∃ j, i = S j ∧ trial_seq !! j = Some TRIAL_NI ∧
               trial_seq !! j ≠ Some TRIAL_NX) ∧
  (0 ≤ 25 → 0 ≤ 25 →
   ∃ trial_seq rng',
     gen_random_stroop_seq 25 75 25 (7 : Z) = Ok (trial_seq, rng')).
Proof.
  apply (gen_random_stroop_seq_switching_after_inhibition 25 75 25 (7 : Z)).
  reflexivity.
Defined.

(** C7: in the main block of every session produced by
    [generate_stroop_session], the expected answers of two consecutive
    scored trials (the trials whose first stimulus has an expected answer,
    the rest trials between them being skipped) differ. *)
Theorem generate_stroop_session_no_repeated_answer {G : Type} `{Generator G}
    {Gl : Type} `{LegacyRandom Gl} (surface_size : XpStim → Z * Z)
    (exp : ExpData) (stim_seq : list Z) (isis_ms : list float) (rng rng' : G)
    (np_state np_state' : Gl) (session : Session) :
  Strooper.generate_stroop_session surface_size exp stim_seq isis_ms rng
                                   np_state
  = (Ok (session, rng'), np_state') →
  ∃ pre main post,
    blocks session = [pre; main; post] ∧
    block_label main = "Block_Stroop_ER" ∧
    no_repeat (scored_answers (trials main)).
Proof. apply generate_stroop_session_Ok. Qed.

Lemma generate_stroop_session_no_repeated_answer_witness :
  ∃ session rng' np_state',
    Strooper.generate_stroop_session Toy.surface_size Toy.exp_data
      [0; 1; 2; 1; 1; 2; 0] [400; 500; 600; 700; 800; 900; 1000]%float
      (7 : Z) (Toy.Global 1)
    = (Ok (session, rng'), np_state') ∧
    length (scored_answers
              (trials (default (mkBlock "" None [] false)
                               (blocks session !! 1%nat)))) = 7%nat ∧
    ∃ pre main post,
      blocks session = [pre; main; post] ∧
      block_label main = "Block_Stroop_ER" ∧
      no_repeat (scored_answers (trials main)).
Proof.
  destruct (Strooper.generate_stroop_session Toy.surface_size Toy.exp_data
              [0; 1; 2; 1; 1; 2; 0] [400; 500; 600; 700; 800; 900; 1000]%float
              (7 : Z) (Toy.Global 1))
    as [[[session rng']|e] np_state'] eqn:Hrun;
    [|vm_compute in Hrun; discriminate].
  exists session, rng', np_state'. split; [reflexivity|]. split.
  - vm_compute in Hrun. injection Hrun as <- _ _. reflexivity.
  - exact (generate_stroop_session_no_repeated_answer _ _ _ _ _ _ _ _ _ Hrun).
Defined.

(** ** Switching blocks *)

(** C8: for every generator state, [gen_inhib_sub_block_sizes] returns
    (neither the integer draws nor the assertion on the sum fail)
    [NB_TRIALS_SWITCH_PER_BLOCK + 1] sizes, each at least 1, whose sum is
    [NB_TRIALS_PER_BLOCK - NB_TRIALS_SWITCH_PER_BLOCK], that is 11. *)
Theorem gen_inhib_sub_block_sizes_budget {G : Type} `{Generator G}
    (exp : ExpData) (rng : G) :
  ∃ sizes rng',
    Strooper.gen_inhib_sub_block_sizes exp rng = Ok (sizes, rng') ∧
    len sizes = Strooper.NB_TRIALS_SWITCH_PER_BLOCK + 1 ∧
    Forall (λ size, 1 ≤ size) sizes ∧
    sum sizes
    = Strooper.NB_TRIALS_PER_BLOCK - Strooper.NB_TRIALS_SWITCH_PER_BLOCK ∧
    sum sizes = 11.
Proof.
  destruct (gen_inhib_sub_block_sizes_spec exp rng)
    as (sizes & rng' & Hrun & Hlen & Hmin & Hsum).
  exists sizes, rng'. repeat split; auto.
Qed.

(** ** The session runner and the repetition controller *)

(** C2 (as the code behaves): on a session of a single block of 4 scored
    trials answered correct, incorrect, correct, correct, [run_session]
    returns 3.0, the number of correct answers of the block divided by the
    number of blocks of the session, whether or not the block shows its
    performance; the percentage shown after the block is 75. *)
Theorem run_session_accuracy_scenario (exp_data : ExpData) :
  (run_session exp_data (ItemSession (Scenario.accuracy_session false)) ""
               false false Scenario.accuracy_world).1
  = Ok (Some 3%float) ∧
  (run_session exp_data (ItemSession (Scenario.accuracy_session true)) ""
               false false Scenario.accuracy_world).1
  = Ok (Some 3%float) ∧
  PresentPerformance 75 (TEXT_SIZE exp_data)
  ∈ trace (run_session exp_data (ItemSession (Scenario.accuracy_session true))
                       "" false false Scenario.accuracy_world).2.
Proof.
  split; [|split].
  - vm_compute. reflexivity.
  - vm_compute. reflexivity.
  - vm_compute.
    repeat first [apply list_elem_of_here | apply list_elem_of_further].
Qed.

(** C10 (as the code behaves): a repetition aborted by the participant
    increments the repetition counter and records an entry, [None], in the
    performance list of the session, besides advancing the session index.
    With one repetition allowed the aborted run is the only one; with two
    allowed and a minimum performance of 1, the aborted run is the first
    of the two entries. *)
Theorem run_sessions_abort_scenario :
  let exp_data := Toy.exp_data in
  let session := ItemSession (Scenario.abort_session exp_data) in
  (repeat_session 1 exp_data "test_" 0 session (NInt 0) 1 0 None []
                  Scenario.abort_world).1
  = Ok ([("test_Strooper_main", [None])], increase_session_idx exp_data, 1) ∧
  (run_sessions exp_data (ArgPlan [(session, NInt 0, 1)]) "block" "test_"
                Scenario.abort_world).1
  = Ok ([("test_Strooper_main", [None])], increase_session_idx exp_data) ∧
  (run_sessions exp_data (ArgPlan [(session, NInt 1, 2)]) "block" "test_"
                Scenario.abort_world).1
  = Ok ([("test_Strooper_main", [None; Some 0%float])],
        increase_session_idx (increase_session_idx exp_data)).
Proof. repeat split; vm_compute; reflexivity. Qed.

(** * Further properties of the code *)

(** ** List helpers *)

#[local] Arguments Nat.mul : simpl never.

Lemma zip_longest_shorter {A : Type} (l intermediates : list A) a :
  length intermediates = length l →
  flat_map (λ '(x, y), [x; y]) (zip_longest (l ++ [a]) intermediates)
  = flat_map (λ '(x, y), [Some x; Some y]) (zip l intermediates)
    ++ [Some a; None].
Proof.
  revert intermediates.
  induction l as [|x l IH]; intros [|y intermediates] Hlen; simpl in *;
    try discriminate; [done|].
  rewrite IH by lia. done.
Qed.

Lemma drop_last_snoc2 {A : Type} (l : list A) x y :
  drop_last (l ++ [x; y]) = l ++ [x].
Proof.
  unfold drop_last. rewrite length_app. simpl.
  replace (length l + 2 - 1)%nat with (length (l ++ [x]) + 0)%nat
    by (rewrite length_app; simpl; lia).
  change (l ++ [x; y]) with (l ++ [x] ++ [y]). rewrite app_assoc.
  rewrite take_app_add'; [|done]. simpl. by rewrite app_nil_r.
Qed.

(** X1: [zip_join l intermediates] returns exactly when [intermediates]
    has one item less than [l], and otherwise fails its assertion (always
    so for an empty [l]).  The result then alternates the items of [l] and
    of [intermediates], starts and ends with an item of [l], and holds no
    fill value. *)
Theorem zip_join_spec {A : Type} (l intermediates : list A) :
  (len intermediates ≠ len l - 1 →
   zip_join l intermediates = Raise AssertionError) ∧
  (len intermediates = len l - 1 →
   ∃ r, zip_join l intermediates = Ok (Some <$> r) ∧
        length r = (2 * length l - 1)%nat ∧
        (∀ i, (i < length l)%nat → r !! (2 * i)%nat = l !! i) ∧
        (∀ i, (i < length intermediates)%nat →
              r !! (2 * i + 1)%nat = intermediates !! i)).
Proof.
  unfold zip_join. split.
  - intros Hne. by destruct (Z.eqb_spec (len intermediates) (len l - 1)).
  - intros Hlen. rewrite Hlen, Z.eqb_refl. simpl.
    destruct (exists_last (l := l)) as (l' & a & ->).
    { intros ->. unfold len in Hlen. simpl in Hlen. lia. }
    assert (Hlen' : length intermediates = length l').
    { unfold len in Hlen. rewrite length_app in Hlen. simpl in Hlen. lia. }
    rewrite zip_longest_shorter by done. rewrite drop_last_snoc2.
    exists (flat_map (λ '(x, y), [x; y]) (zip l' intermediates) ++ [a]).
    split; [|split; [|split]].
    + f_equal. rewrite fmap_app. f_equal.
      clear. revert intermediates.
      induction l' as [|x l' IH]; intros [|y intermediates]; simpl; try done.
      by rewrite IH.
    + rewrite !length_app. simpl.
      assert (length (flat_map (λ '(x, y), [x; y]) (zip l' intermediates))
              = (2 * length l')%nat) as ->; [|lia].
      clear -Hlen'. revert intermediates Hlen'.
      induction l' as [|x l' IH]; intros [|y intermediates] Hlen';
        simpl in *; try done.
      rewrite IH by lia. lia.
    + clear Hlen. revert intermediates Hlen'.
      induction l' as [|x l' IH]; intros [|y intermediates] Hlen' i Hi;
        simpl in *; try discriminate.
      * destruct i; [done|lia].
      * destruct i as [|i]; [done|].
        replace (2 * S i)%nat with (S (S (2 * i))) by lia. simpl.
        apply IH; lia.
    + clear Hlen. revert intermediates Hlen'.
      induction l' as [|x l' IH]; intros [|y intermediates] Hlen' i Hi;
        simpl in *; try discriminate; try lia.
      destruct i as [|i]; [done|].
      replace (2 * S i + 1)%nat with (S (S (2 * i + 1))) by lia. simpl.
      apply IH; lia.
Qed.

Lemma zip_join_spec_witness :
  ∃ r, zip_join [1; 2; 3; 4; 5] [10; 20; 30; 40] = Ok (Some <$> r) ∧
       length r = 9%nat ∧ r !! 2%nat = Some 2 ∧ r !! 3%nat = Some 20.
Proof.
  destruct (zip_join_spec [1; 2; 3; 4; 5] [10; 20; 30; 40]) as [_ Hjoin].
  destruct Hjoin as (r & Hr & Hlen & Heven & Hodd); [reflexivity|].
  exists r. split; [exact Hr|]. split; [exact Hlen|]. split.
  - apply (Heven 1%nat). simpl. lia.
  - apply (Hodd 1%nat). simpl. lia.
Defined.

(** X2: [interleave_element l1 e] has twice the length of [l1], with the
    items of [l1] at the even positions and [e] at every odd position. *)
Theorem interleave_element_spec {A : Type} (l1 : list A) (e : A) :
  length (interleave_element l1 e) = (2 * length l1)%nat ∧
  (∀ i, interleave_element l1 e !! (2 * i)%nat = l1 !! i) ∧
  (∀ i, (i < length l1)%nat →
        interleave_element l1 e !! (2 * i + 1)%nat = Some e).
Proof.
  unfold interleave_element. induction l1 as [|x l1 (IHlen & IHeven & IHodd)].
  - repeat split; try done. simpl. lia.
  - simpl. split; [lia|]. split.
    + intros [|i]; [done|].
      replace (2 * S i)%nat with (S (S (2 * i))) by lia. apply IHeven.
    + intros [|i] Hi; [done|].
      replace (2 * S i + 1)%nat with (S (S (2 * i + 1))) by lia. simpl.
      apply IHodd. lia.
Qed.

(** ** Vocabulary and catalog *)

Lemma flat_map_constant_length {A B : Type} (f : A → list B) (c : nat) l :
  (∀ x, x ∈ l → length (f x) = c) → length (flat_map f l) = (length l * c)%nat.
Proof.
  induction l as [|x l IH]; intros Hc; simpl; [done|].
  rewrite length_app, Hc by apply list_elem_of_here.
  rewrite IH; [lia|]. intros y Hy. apply Hc. by apply list_elem_of_further.
Qed.

Lemma filter_other_keys_all (colors : list (string * RGB)) (k : string) :
  k ∉ colors.*1 → filter (λ '(cn, _), cn ≠ k) colors = colors.
Proof.
  induction colors as [|[k' v'] colors IH]; intros Hk; [done|].
  rewrite filter_cons. simpl in Hk. apply not_elem_of_cons in Hk as [Hne Hk].
  destruct (decide (k' ≠ k)) as [_|Hnn]; [|destruct Hnn; congruence].
  by rewrite IH.
Qed.

Lemma filter_other_keys_length (colors : list (string * RGB)) k v :
  NoDup colors.*1 → (k, v) ∈ colors →
  length (filter (λ '(cn, _), cn ≠ k) colors) = (length colors - 1)%nat.
Proof.
  induction colors as [|[k' v'] colors IH]; intros Hnd Hin.
  - by apply elem_of_nil in Hin.
  - simpl in Hnd. apply NoDup_cons in Hnd as [Hk' Hnd].
    rewrite filter_cons.
    destruct (decide (k' ≠ k)) as [Hne|Heq].
    + apply elem_of_cons in Hin as [[= <- <-]|Hin]; [done|].
      simpl. rewrite IH by done.
      destruct colors; [by apply elem_of_nil in Hin|simpl; lia].
    + assert (k' = k) as -> by (by destruct (decide (k' = k))).
      rewrite filter_other_keys_all by done. simpl. lia.
Qed.

(** X3: for a dict [colors] (distinct keys) of [n] colors,
    [incongruences colors] has [n * (n - 1)] triples, and its triples
    [(word, col_name, col)] are exactly those made of a key [word] of
    [colors] and an entry [(col_name, col)] of [colors] under another
    key. *)
Theorem incongruences_spec (colors : list (string * RGB)) :
  NoDup colors.*1 →
  length (incongruences colors)
  = (length colors * (length colors - 1))%nat ∧
  ∀ word col_name col,
    (word, col_name, col) ∈ incongruences colors ↔
    word ∈ colors.*1 ∧ (col_name, col) ∈ colors ∧ col_name ≠ word.
Proof.
  intros Hnd. unfold incongruences. split.
  - apply flat_map_constant_length. intros [k v] Hin.
    rewrite length_map. by eapply filter_other_keys_length.
  - intros word col_name col.
    rewrite list_elem_of_In, in_flat_map. split.
    + intros ([k v] & Hk%list_elem_of_In & Hin%list_elem_of_In).
      apply list_elem_of_fmap in Hin as ([cn c] & [= -> -> ->] & Hin).
      apply list_elem_of_filter in Hin as [Hne Hin].
      split; [|done]. apply list_elem_of_fmap. by exists (k, v).
    + intros (Hword & Hin & Hne).
      apply list_elem_of_fmap in Hword as ([k v] & -> & Hk).
      exists (k, v). split; [by apply list_elem_of_In|].
      apply list_elem_of_In, list_elem_of_fmap. exists (col_name, col).
      split; [done|]. by apply list_elem_of_filter.
Qed.

Lemma incongruences_spec_witness :
  length (incongruences Strooper.COLORS)
  = (length Strooper.COLORS * (length Strooper.COLORS - 1))%nat ∧
  ∀ word col_name col,
    (word, col_name, col) ∈ incongruences Strooper.COLORS ↔
    word ∈ Strooper.COLORS.*1 ∧ (col_name, col) ∈ Strooper.COLORS ∧
    col_name ≠ word.
Proof.
  apply (incongruences_spec Strooper.COLORS).
  unfold Strooper.COLORS. simpl.
  repeat (apply NoDup_cons_2;
          [rewrite ?elem_of_cons, elem_of_nil; intros Hin;
           repeat destruct Hin as [Hin|Hin]; done || discriminate|]).
  apply NoDup_nil_2.
Defined.

Lemma dict_get_Ok_elem_of {K V : Type} `{EqDecision K} (d : list (K * V)) k v :
  dict_get d k = Ok v → (k, v) ∈ d.
Proof.
  induction d as [|[k' v'] d IH]; simpl; [discriminate|].
  destruct (decide (k' = k)) as [->|_].
  - intros [= ->]. apply list_elem_of_here.
  - intros Hd. by apply list_elem_of_further, IH.
Qed.

Lemma dict_get_elem_of {K V : Type} `{EqDecision K} (d : list (K * V)) k v :
  NoDup d.*1 → (k, v) ∈ d → dict_get d k = Ok v.
Proof.
  induction d as [|[k' v'] d IH]; intros Hnd Hin.
  - by apply elem_of_nil in Hin.
  - simpl in Hnd. apply NoDup_cons in Hnd as [Hk' Hnd]. simpl.
    apply elem_of_cons in Hin as [[= <- <-]|Hin].
    + by destruct (decide (k = k)).
    + destruct (decide (k' = k)) as [->|_]; [|by apply IH].
      destruct Hk'. apply list_elem_of_fmap. by exists (k, v).
Qed.

(** X4: [COLOR_NAMES] is the inverse of [ALL_COLORS]: a name maps to an
    RGB value in [ALL_COLORS] exactly when that value maps back to the
    name in [COLOR_NAMES]; no two colors share an RGB value. *)
Theorem COLOR_NAMES_inverse (name : string) (rgb : RGB) :
  dict_get ALL_COLORS name = Ok rgb ↔ dict_get COLOR_NAMES rgb = Ok name.
Proof.
  assert (Hkeys : NoDup ALL_COLORS.*1).
  { unfold ALL_COLORS. simpl.
    repeat (apply NoDup_cons_2;
            [rewrite ?elem_of_cons, elem_of_nil; intros Hin;
             repeat destruct Hin as [Hin|Hin]; done || discriminate|]).
    apply NoDup_nil_2. }
  assert (Hvalues : NoDup COLOR_NAMES.*1).
  { unfold COLOR_NAMES, ALL_COLORS. simpl.
    repeat (apply NoDup_cons_2;
            [rewrite ?elem_of_cons, elem_of_nil; intros Hin;
             repeat destruct Hin as [Hin|Hin]; done || discriminate|]).
    apply NoDup_nil_2. }
  assert (Hswap : (name, rgb) ∈ ALL_COLORS ↔ (rgb, name) ∈ COLOR_NAMES).
  { unfold COLOR_NAMES. rewrite list_elem_of_fmap. split.
    - intros Hin. by exists (name, rgb).
    - intros ([n c] & [= -> ->] & Hin). done. }
  split; intros Hget%dict_get_Ok_elem_of; apply dict_get_elem_of; try done;
    by apply Hswap.
Qed.

Lemma tr_unknown_language word lang :
  lang ≠ "e" → lang ≠ "f" → tr word lang = Raise UnknownLanguage.
Proof. intros He Hf. unfold tr. by repeat case_decide. Qed.

Lemma gen_word_stim_unknown_language surface_size exp word color stim_type
    framed :
  language exp ≠ "e" → language exp ≠ "f" →
  Strooper.gen_word_stim surface_size exp word color stim_type framed
  = Raise UnknownLanguage.
Proof.
  intros He Hf. unfold Strooper.gen_word_stim.
  by rewrite tr_unknown_language.
Qed.

Lemma catalogs_supported_language (surface_size : XpStim → Z * Z)
    (exp : ExpData) (framed prepend_cue : bool) :
  language exp = "e" ∨ language exp = "f" →
  ∃ naming inhib switch congruent,
    Strooper.gen_naming_trials surface_size exp None None prepend_cue
    = Ok naming ∧ length naming = 4%nat ∧
    Strooper.gen_inhib_trials surface_size exp None framed prepend_cue
    = Ok inhib ∧ length inhib = 12%nat ∧
    Strooper.gen_switch_trials surface_size exp prepend_cue
    = Ok switch ∧ length switch = 12%nat ∧
    Strooper.gen_congruent_naming_trials surface_size exp
    = Ok congruent ∧ length congruent = 4%nat.
Proof.
  intros Hlang.
  destruct exp as [lang pin idx test cross text pad lw fc]. simpl in Hlang.
  destruct (Strooper.gen_naming_trials _ _ None None prepend_cue)
    as [naming|e] eqn:Hn;
    [|destruct Hlang as [-> | ->], prepend_cue; vm_compute in Hn;
      discriminate].
  destruct (Strooper.gen_inhib_trials _ _ None framed prepend_cue)
    as [inhib|e] eqn:Hi;
    [|destruct Hlang as [-> | ->], prepend_cue, framed; vm_compute in Hi;
      discriminate].
  destruct (Strooper.gen_switch_trials _ _ prepend_cue)
    as [switch|e] eqn:Hs;
    [|destruct Hlang as [-> | ->], prepend_cue; vm_compute in Hs;
      discriminate].
  destruct (Strooper.gen_congruent_naming_trials _ _)
    as [congruent|e] eqn:Hc;
    [|destruct Hlang as [-> | ->]; vm_compute in Hc; discriminate].
  exists naming, inhib, switch, congruent.
  apply res_mapM_Ok, Forall2_length in Hn, Hi, Hs, Hc.
  assert (length naming = 4%nat) by (symmetry; exact Hn).
  assert (length inhib = 12%nat) by (symmetry; exact Hi).
  assert (length switch = 12%nat) by (symmetry; exact Hs).
  assert (length congruent = 4%nat) by (symmetry; exact Hc).
  repeat split; done.
Qed.

(** X5: the four catalog builders return exactly under the two supported
    languages: with language ['e'] or ['f'] they return the 4 naming
    trials, the 12 inhibition trials, the 12 switching trials and the 4
    congruent trials; under any other language each of them raises the
    unknown-language exception. *)
Theorem catalogs_by_language (surface_size : XpStim → Z * Z) (exp : ExpData)
    (framed prepend_cue : bool) :
  (language exp = "e" ∨ language exp = "f" →
   ∃ naming inhib switch congruent,
     Strooper.gen_naming_trials surface_size exp None None prepend_cue
     = Ok naming ∧ length naming = 4%nat ∧
     Strooper.gen_inhib_trials surface_size exp None framed prepend_cue
     = Ok inhib ∧ length inhib = 12%nat ∧
     Strooper.gen_switch_trials surface_size exp prepend_cue
     = Ok switch ∧ length switch = 12%nat ∧
     Strooper.gen_congruent_naming_trials surface_size exp
     = Ok congruent ∧ length congruent = 4%nat) ∧
  (language exp ≠ "e" → language exp ≠ "f" →
   Strooper.gen_naming_trials surface_size exp None None prepend_cue
   = Raise UnknownLanguage ∧
   Strooper.gen_inhib_trials surface_size exp None framed prepend_cue
   = Raise UnknownLanguage ∧
   Strooper.gen_switch_trials surface_size exp prepend_cue
   = Raise UnknownLanguage ∧
   Strooper.gen_congruent_naming_trials surface_size exp
   = Raise UnknownLanguage).
Proof.
  split.
  - apply catalogs_supported_language.
  - intros He Hf.
    unfold Strooper.gen_naming_trials, Strooper.gen_inhib_trials,
      Strooper.gen_switch_trials, Strooper.gen_congruent_naming_trials.
    repeat split; simpl res_mapM;
      by rewrite gen_word_stim_unknown_language.
Qed.

Lemma catalogs_by_language_witness :
  ∃ naming inhib switch congruent,
    Strooper.gen_naming_trials Toy.surface_size Toy.exp_data None None true
    = Ok naming ∧ length naming = 4%nat ∧
    Strooper.gen_inhib_trials Toy.surface_size Toy.exp_data None false true
    = Ok inhib ∧ length inhib = 12%nat ∧
    Strooper.gen_switch_trials Toy.surface_size Toy.exp_data true
    = Ok switch ∧ length switch = 12%nat ∧
    Strooper.gen_congruent_naming_trials Toy.surface_size Toy.exp_data
    = Ok congruent ∧ length congruent = 4%nat.
Proof.
  apply (catalogs_by_language Toy.surface_size Toy.exp_data false true).
  left. reflexivity.
Defined.

(** ** The sampler: edge cases and balance *)

Lemma take_at_app_Ok {A : Type} (x : list A) idx1 idx2 y :
  take_at x (idx1 ++ idx2) = Ok y →
  ∃ y1 y2, take_at x idx1 = Ok y1 ∧ take_at x idx2 = Ok y2 ∧ y = y1 ++ y2.
Proof.
  revert y. induction idx1 as [|i idx1 IH]; intros y Hy; simpl in Hy.
  - by exists [], y.
  - apply take_at_cons_Ok in Hy as (a & y' & Hi & Hy' & ->).
    destruct (IH _ Hy') as (y1 & y2 & Hy1 & Hy2 & ->).
    exists (a :: y1), y2. split; [by apply take_at_cons|done].
Qed.

(** Distinct indices within bounds select a sub-multiset of the array. *)
Lemma take_at_distinct {A : Type} (x : list A) idx :
  NoDup idx → Forall (λ i, i < length x)%nat idx →
  ∃ y, take_at x idx = Ok y ∧ y ⊆+ x.
Proof.
  intros Hnd Hb.
  assert (Hsub : idx ⊆+ seq 0 (length x)).
  { apply NoDup_submseteq; [done|]. intros i Hi. apply elem_of_seq.
    rewrite Forall_forall in Hb. specialize (Hb i Hi). lia. }
  apply submseteq_Permutation in Hsub as [rest Hrest].
  destruct (take_at_Permutation x _ _ Hrest x (take_at_seq x))
    as (y' & Hy' & Hperm).
  apply take_at_app_Ok in Hy' as (y1 & y2 & Hy1 & _ & ->).
  exists y1. split; [done|]. rewrite Hperm. by apply submseteq_inserts_r.
Qed.

Section ChoiceEdges.
Context {G : Type} `{Generator G}.
Context {Gl : Type} `{LegacyRandom Gl}.

Lemma rng_choice_negative {A : Type} (x : list A) size replace (rng : G) :
  size < 0 → rng_choice x size replace rng = Raise ValueError.
Proof. intros Hs. unfold rng_choice. by destruct (Z.ltb_spec size 0); [|lia]. Qed.

Lemma rng_choice_empty_0 {A : Type} replace (rng : G) :
  ∃ rng', rng_choice ([] : list A) 0 replace rng = Ok ([], rng').
Proof.
  unfold rng_choice. simpl. change (Z.to_nat 0) with 0%nat. destruct replace.
  - pose proof (draw_indices_length 0 0 rng) as Hlen.
    destruct (draw_indices 0 0 rng) as [idx rng']. simpl in Hlen.
    apply nil_length_inv in Hlen as ->. simpl. eauto.
  - pose proof (draw_distinct_length 0 0 rng (le_n 0)) as Hlen.
    destruct (draw_distinct_indices 0 0 rng) as [idx rng']. simpl in Hlen.
    apply nil_length_inv in Hlen as ->. simpl. eauto.
Qed.

Lemma choice_rec_empty_balanced {A : Type} depth n (rng : G) (s : Gl) :
  0 ≤ n →
  choice_rec depth ([] : list A) n true rng s = (Raise RecursionError, s).
Proof.
  intros Hn. revert rng.
  induction depth as [|depth IH]; intros rng; rewrite choice_rec_eq;
    change (len ([] : list A)) with 0;
    (destruct (Z.ltb_spec n 0); [lia|]); simpl;
    destruct (rng_choice_empty_0 (A:=A) false rng) as [rng' Hp];
    unfold m_bind, m_lift; change (len ([] : list A)) with 0; rewrite Hp.
  - done.
  - by rewrite Z.sub_0_r, IH.
Qed.

(** X6: the edge cases of [choice].  A negative count raises
    [ValueError] whatever the candidates.  On an empty candidate list the
    unbalanced call returns the empty sample for a count of 0 and raises
    [ValueError] for a positive count, and the balanced call ends in
    [RecursionError] for every count that is not negative. *)
Theorem choice_edge_cases {A : Type} (l : list A) (n : Z) (balanced : bool)
    (rng : G) (np_state : Gl) :
  (n < 0 → choice l n balanced rng np_state = (Raise ValueError, np_state)) ∧
  (∃ rng', choice ([] : list A) 0 false rng np_state
           = (Ok ([], rng'), np_state)) ∧
  (0 < n → choice ([] : list A) n false rng np_state
           = (Raise ValueError, np_state)) ∧
  (0 ≤ n → choice ([] : list A) n true rng np_state
           = (Raise RecursionError, np_state)).
Proof.
  split; [|split; [|split]].
  - intros Hn. unfold choice. rewrite choice_rec_eq.
    destruct (Z.ltb_spec n (len l)); [|unfold len in *; lia].
    unfold m_lift. by destruct balanced; simpl; rewrite rng_choice_negative.
  - unfold choice. rewrite choice_rec_eq. change (len ([] : list A)) with 0.
    change (0 <? 0) with false. change (0 - 0) with 0. cbv beta iota.
    change (negb false) with true. cbv beta iota.
    destruct (rng_choice_empty_0 (A:=A) false rng) as [rng1 Hp].
    destruct (rng_choice_empty_0 (A:=A) true rng1) as [rng2 Hr].
    unfold m_bind, m_lift, m_ret. rewrite Hp. cbv beta iota. rewrite Hr. eauto.
  - intros Hn. unfold choice. rewrite choice_rec_eq.
    change (len ([] : list A)) with 0.
    destruct (Z.ltb_spec n 0); [lia|].
    change (negb false) with true. cbv beta iota.
    destruct (rng_choice_empty_0 (A:=A) false rng) as [rng1 Hp].
    unfold m_bind, m_lift, m_ret. rewrite Hp, Z.sub_0_r. cbv beta iota.
    unfold rng_choice. destruct (Z.ltb_spec n 0); [lia|]. simpl.
    destruct (Nat.eqb_spec (Z.to_nat n) 0); [lia|]. done.
  - intros Hn. by apply choice_rec_empty_balanced.
Qed.

End ChoiceEdges.

Lemma choice_edge_cases_witness :
  choice [10; 20; 30] (-1) true (7 : Z) (Toy.Global 1)
  = (Raise ValueError, Toy.Global 1) ∧
  choice ([] : list Z) 3 false (7 : Z) (Toy.Global 1)
  = (Raise ValueError, Toy.Global 1) ∧
  choice ([] : list Z) 3 true (7 : Z) (Toy.Global 1)
  = (Raise RecursionError, Toy.Global 1).
Proof.
  split; [|split].
  - destruct (choice_edge_cases [10; 20; 30] (-1) true (7 : Z) (Toy.Global 1))
      as (Hnegative & _ & _ & _).
    apply Hnegative. reflexivity.
  - destruct (choice_edge_cases ([] : list Z) 3 false (7 : Z) (Toy.Global 1))
      as (_ & _ & Hpositive & _).
    apply Hpositive. reflexivity.
  - destruct (choice_edge_cases ([] : list Z) 3 true (7 : Z) (Toy.Global 1))
      as (_ & _ & _ & Hbalanced).
    apply Hbalanced. discriminate.
Defined.


Section ChoiceBalance.
Context {G : Type} `{Generator G}.
Context {Gl : Type} `{LegacyRandom Gl}.

Lemma rng_choice_no_replace_submseteq {A : Type} (x : list A) size (rng : G) :
  0 ≤ size ≤ len x →
  ∃ r rng', rng_choice x size false rng = Ok (r, rng') ∧ r ⊆+ x.
Proof.
  intros Hsize. unfold rng_choice, len in *.
  destruct (Z.ltb_spec size 0); [lia|].
  destruct ((length x =? 0)%nat && negb (Z.to_nat size =? 0)%nat) eqn:Hempty.
  { apply andb_true_iff in Hempty as [Hpop%Nat.eqb_eq Hn%negb_true_iff].
    apply Nat.eqb_neq in Hn. lia. }
  destruct (Nat.ltb_spec (length x) (Z.to_nat size)); [lia|].
  pose proof (draw_distinct_bound (length x) (Z.to_nat size) rng) as Hb.
  pose proof (draw_distinct_NoDup (length x) (Z.to_nat size) rng) as Hnd.
  destruct (draw_distinct_indices (length x) (Z.to_nat size) rng) as [idx g].
  destruct (take_at_distinct x idx) as (y & -> & Hy); [apply Hnd; lia|apply Hb; lia|].
  simpl. eauto.
Qed.

Lemma choice_rec_balanced_multiset {A : Type} depth (l : list A) n (rng : G)
    (s : Gl) :
  l ≠ [] → 0 ≤ n → (Z.to_nat (n `div` len l) ≤ depth)%nat →
  ∃ r rng' s' partial,
    choice_rec depth l n true rng s = (Ok (r, rng'), s') ∧
    partial ⊆+ l ∧ len partial = n `mod` len l ∧
    r ≡ₚ mjoin (replicate (Z.to_nat (n `div` len l)) l) ++ partial.
Proof.
  intros Hl. pose proof (len_pos l Hl) as Hlen.
  revert n rng s.
  induction depth as [|depth IH]; intros n rng s Hn Hdepth;
    rewrite choice_rec_eq; destruct (Z.ltb_spec n (len l)) as [Hlt|Hge];
    try (destruct (div_overflow n (len l)) as [Hdiv _]; [lia|lia|]; lia).
  1, 2: cbn [negb];
    destruct (rng_choice_no_replace_submseteq l n rng) as (r & rng' & Hr & Hsub);
      [lia|];
    unfold m_lift; rewrite Hr; exists r, rng', s, r;
    (split; [done|]); (split; [done|]);
    rewrite Z.mod_small, Z.div_small by lia;
    (split; [by eapply rng_choice_Ok|done]).
  cbn [negb].
  destruct (rng_choice_full_spec l rng) as (p & rng1 & Hp & Hperm).
  destruct (div_overflow n (len l)) as [Hdiv Hless]; [lia|lia|].
  destruct (IH (n - len l) rng1 s) as (r & rng2 & s1 & partial & Hr & Hsub
                                       & Hpartial & Hrperm);
    [lia|rewrite Hless; lia|].
  pose proof (choice_rec_Ok _ _ _ _ _ _ _ _ _ Hr) as [Hrlen _].
  assert (Hpr : len (p ++ r) = n).
  { rewrite len_app, (len_Permutation _ _ Hperm). lia. }
  destruct (np_random_choice_full_spec (p ++ r) s1) as (c & s2 & Hc & Hcperm).
  rewrite Hpr in Hc.
  unfold m_bind, m_lift, m_ret. rewrite Hp, Hr, Hc.
  exists c, rng2, s2, partial. split; [done|]. split; [done|].
  replace (n - len l) with (n + (-1) * len l) in Hpartial, Hrperm by lia.
  rewrite Z.mod_add in Hpartial by lia.
  rewrite Z.div_add in Hrperm by lia.
  split; [done|].
  rewrite Hcperm, Hperm, Hrperm.
  replace (Z.to_nat (n `div` len l))
    with (S (Z.to_nat (n `div` len l + -1))).
  - simpl. by rewrite app_assoc.
  - assert (1 ≤ n `div` len l); [|lia].
    apply Z.div_le_lower_bound; lia.
Qed.
End ChoiceBalance.

(** X7: a balanced sample is balanced.  For a non-empty candidate list
    [l] and a count [n >= 0], when the call stack has room for the
    [n div |l|] nested calls of the request, [choice l n True rng]
    returns a rearrangement of [n div |l|] full copies of [l] followed by
    a sub-multiset of [l] of [n mod |l|] items. *)
Theorem choice_balanced_multiset {G : Type} `{Generator G}
    {Gl : Type} `{LegacyRandom Gl} {A : Type}
    (l : list A) (n : Z) (rng : G) (np_state : Gl) :
  l ≠ [] → 0 ≤ n → (Z.to_nat (n `div` len l) ≤ recursion_budget)%nat →
  ∃ r rng' np_state' partial,
    choice l n true rng np_state = (Ok (r, rng'), np_state') ∧
    partial ⊆+ l ∧ len partial = n `mod` len l ∧
    r ≡ₚ mjoin (replicate (Z.to_nat (n `div` len l)) l) ++ partial.
Proof. intros Hl Hn Hroom. by apply choice_rec_balanced_multiset. Qed.

Lemma choice_balanced_multiset_witness :
  ∃ r rng' np_state' partial,
    choice [10; 20; 30] 8 true (7 : Z) (Toy.Global 1)
    = (Ok (r, rng'), np_state') ∧
    partial ⊆+ [10; 20; 30] ∧ len partial = 8 `mod` len [10; 20; 30] ∧
    r ≡ₚ mjoin (replicate (Z.to_nat (8 `div` len [10; 20; 30])) [10; 20; 30])
         ++ partial.
Proof.
  apply (choice_balanced_multiset [10; 20; 30] 8 (7 : Z) (Toy.Global 1)).
  - discriminate.
  - discriminate.
  - apply Nat.leb_le. vm_compute. reflexivity.
Defined.

(** ** Composition of the event-related sequence *)

Lemma take_at_Forall2 {A : Type} (x : list A) idx y :
  take_at x idx = Ok y → Forall2 (λ i a, x !! i = Some a) idx y.
Proof.
  revert y. induction idx as [|i idx IH]; intros y Hy.
  - unfold take_at in Hy. simpl in Hy. inv_Ok. constructor.
  - apply take_at_cons_Ok in Hy as (a & y' & Hi & Hy' & ->).
    constructor; auto.
Qed.

Lemma take_at_NoDup {A : Type} (x : list A) idx y :
  NoDup x → NoDup idx → take_at x idx = Ok y → NoDup y.
Proof.
  intros Hx Hidx Hy%take_at_Forall2.
  induction Hy as [|i a idx y Hi Hy IH]; [constructor|].
  apply NoDup_cons in Hidx as [Hnotin Hidx].
  apply NoDup_cons. split; [|by apply IH].
  intros Ha. apply list_elem_of_lookup in Ha as [k Hk].
  destruct (Forall2_lookup_r _ _ _ _ _ Hy Hk) as (j & Hj & Hxj).
  assert (i = j) as -> by exact (NoDup_lookup _ _ _ _ Hx Hi Hxj).
  apply Hnotin. by eapply list_elem_of_lookup_2.
Qed.

Lemma py_getitem_nonneg_Ok {A : Type} (w : list A) i p :
  0 ≤ i → py_getitem w i = Ok p → w !! Z.to_nat i = Some p.
Proof.
  intros Hi. unfold py_getitem.
  destruct (Z.ltb_spec i 0); [lia|].
  destruct ((i <? 0) || (len w <=? i)); [discriminate|].
  by destruct (w !! Z.to_nat i); intros [= ->].
Qed.

Lemma res_mapM_py_getitem_take_at {A : Type} (w : list A) idx ps :
  Forall (λ i, 0 ≤ i) idx →
  res_mapM (py_getitem w) idx = Ok ps →
  take_at w (Z.to_nat <$> idx) = Ok ps.
Proof.
  intros Hidx. revert ps.
  induction Hidx as [|i idx Hi _ IH]; intros ps Hps; simpl in Hps; inv_Ok.
  - done.
  - simpl. apply take_at_cons; [by apply py_getitem_nonneg_Ok|by apply IH].
Qed.

Lemma enumerate_from_keys {A : Type} (l : list A) start :
  (enumerate_from start l).*1 = seqZ start (len l).
Proof.
  revert start. induction l as [|a l IH]; intros start; [done|].
  unfold len. simpl length. rewrite seqZ_cons by lia. simpl.
  rewrite IH. unfold len. do 2 f_equal; lia.
Qed.

Lemma enumerate_from_values {A : Type} (l : list A) start :
  (enumerate_from start l).*2 = l.
Proof.
  revert start. induction l as [|a l IH]; intros start; [done|].
  simpl. by rewrite IH.
Qed.

Lemma np_where_eq_NoDup (a : list Z) v : NoDup (np_where_eq a v).
Proof.
  unfold np_where_eq, enumerate.
  eapply sublist_NoDup; [|apply fmap_sublist, sublist_filter].
  rewrite enumerate_from_keys. apply NoDup_seqZ.
Qed.

Lemma filter_keys_length {A : Type} (es : list (Z * A)) (positions : list Z) :
  NoDup es.*1 → NoDup positions → (∀ p, p ∈ positions → p ∈ es.*1) →
  length (filter (λ e, e.1 ∈ positions) es) = length positions.
Proof.
  intros Hes Hps Hin.
  rewrite <- (length_fmap fst (filter _ es)).
  apply Permutation_length, NoDup_Permutation; [|done|].
  - eapply sublist_NoDup; [exact Hes|]. apply fmap_sublist, sublist_filter.
  - intros p. rewrite list_elem_of_fmap. split.
    + intros ([k t] & -> & [Hk _]%list_elem_of_filter). done.
    + intros Hp. specialize (Hin p Hp).
      apply list_elem_of_fmap in Hin as ([k t] & -> & Hkt).
      exists (k, t). split; [done|]. by apply list_elem_of_filter.
Qed.

(** The symbols of the spliced sequence: those of the shuffled sequence,
    and one switching symbol per selected position. *)
Lemma splice_count (es : list (Z * Z)) (positions : list Z) v :
  length (filter (λ t, t = v)
            (flat_map (λ '(itrial, trial),
                         if decide (itrial ∈ positions)
                         then [trial; TRIAL_RI] else [trial]) es))
  = (length (filter (λ t, t = v) es.*2)
     + if decide (v = TRIAL_RI)
       then length (filter (λ e, e.1 ∈ positions) es) else 0)%nat.
Proof.
  induction es as [|[k t] es IH].
  - simpl. by destruct (decide (v = TRIAL_RI)).
  - cbn [flat_map fmap list_fmap snd].
    rewrite filter_app, length_app, IH, (filter_cons _ (k, t)). cbn [fst].
    rewrite (filter_cons _ t).
    destruct (decide (k ∈ positions)); rewrite !filter_cons, ?filter_nil;
      destruct (decide (t = v)); destruct (decide (TRIAL_RI = v));
      destruct (decide (v = TRIAL_RI)); try congruence; simpl; lia.
Qed.

Lemma splice_symbols (es : list (Z * Z)) (positions : list Z) :
  Forall (λ t, t = TRIAL_NX ∨ t = TRIAL_NI) es.*2 →
  Forall (λ t, t = TRIAL_NX ∨ t = TRIAL_NI ∨ t = TRIAL_RI)
         (flat_map (λ '(itrial, trial),
                      if decide (itrial ∈ positions)
                      then [trial; TRIAL_RI] else [trial]) es).
Proof.
  induction es as [|[k t] es IH]; intros Hes; [constructor|].
  apply Forall_cons in Hes as [Ht Hes]. cbn [flat_map]. simpl in Ht.
  apply Forall_app. split; [|by apply IH].
  destruct (decide (k ∈ positions)); repeat apply Forall_cons_2;
    try apply Forall_nil_2; tauto.
Qed.

Section StroopSeqCounts.
Context {G : Type} `{Generator G}.

Lemma rng_choice_no_replace_NoDup {A : Type} (x : list A) size (rng rng' : G)
    r :
  NoDup x → rng_choice x size false rng = Ok (r, rng') → NoDup r.
Proof.
  intros Hx. unfold rng_choice.
  destruct (size <? 0); [discriminate|].
  destruct ((length x =? 0)%nat && negb (Z.to_nat size =? 0)%nat);
    [discriminate|].
  destruct (Nat.ltb_spec (length x) (Z.to_nat size)); [discriminate|].
  pose proof (draw_distinct_NoDup (length x) (Z.to_nat size) rng) as Hnd.
  destruct (draw_distinct_indices (length x) (Z.to_nat size) rng) as [idx g].
  intros Hr. inv_Ok. eapply take_at_NoDup; eauto.
Qed.

Lemma gen_random_stroop_seq_symbols nb_naming_control nb_naming_inhib
    nb_switching (rng rng' : G) trial_seq :
  gen_random_stroop_seq nb_naming_control nb_naming_inhib nb_switching rng
  = Ok (trial_seq, rng') →
  Forall (λ t, t = TRIAL_NX ∨ t = TRIAL_NI ∨ t = TRIAL_RI) trial_seq.
Proof.
  unfold gen_random_stroop_seq.
  destruct (negb (nb_switching <? nb_naming_inhib)); [discriminate|].
  unfold np_zeros_plus.
  destruct (nb_naming_control <? 0); [discriminate|].
  destruct (nb_naming_inhib <? 0); [discriminate|]. simpl.
  destruct (rng_shuffle_spec
              (replicate (Z.to_nat nb_naming_control) TRIAL_NX
               ++ replicate (Z.to_nat nb_naming_inhib) TRIAL_NI) rng)
    as (stim_seq & rng1 & -> & Hperm).
  simpl. intros Hr. inv_Ok.
  apply splice_symbols. unfold enumerate.
  rewrite enumerate_from_values, Hperm.
  apply Forall_app. split; apply Forall_replicate; tauto.
Qed.

Lemma gen_random_stroop_seq_counts nb_naming_control nb_naming_inhib
    nb_switching (rng rng' : G) trial_seq :
  gen_random_stroop_seq nb_naming_control nb_naming_inhib nb_switching rng
  = Ok (trial_seq, rng') →
  len (filter (λ t, t = TRIAL_NX) trial_seq) = nb_naming_control ∧
  len (filter (λ t, t = TRIAL_NI) trial_seq) = nb_naming_inhib ∧
  len (filter (λ t, t = TRIAL_RI) trial_seq) = nb_switching.
Proof.
  unfold gen_random_stroop_seq.
  destruct (negb (nb_switching <? nb_naming_inhib)); [discriminate|].
  unfold np_zeros_plus.
  destruct (Z.ltb_spec nb_naming_control 0); [discriminate|].
  destruct (Z.ltb_spec nb_naming_inhib 0); [discriminate|]. simpl.
  destruct (rng_shuffle_spec
              (replicate (Z.to_nat nb_naming_control) TRIAL_NX
               ++ replicate (Z.to_nat nb_naming_inhib) TRIAL_NI) rng)
    as (stim_seq & rng1 & -> & Hperm).
  simpl. intros Hr. inv_Ok.
  match goal with
  | Hidx : rng_choice (py_range _) _ false _ = Ok (?idx, _),
    Hpos : res_mapM _ ?idx = Ok ?positions |- _ =>
      pose proof (rng_choice_Ok _ _ _ _ _ _ Hidx) as [Hidx_len Hidx_in];
      apply rng_choice_no_replace_NoDup in Hidx;
        [|unfold py_range; apply NoDup_fmap_2, NoDup_seq; apply _];
      assert (Hnonneg : Forall (λ i, 0 ≤ i) idx)
        by (eapply Forall_impl; [exact Hidx_in|];
            intros i Hi%elem_of_py_range; simpl; lia);
      pose proof (res_mapM_Ok _ _ _ Hpos) as Hpos2;
      apply res_mapM_py_getitem_take_at in Hpos; [|done];
      assert (Hpositions : NoDup positions);
        [eapply take_at_NoDup; [apply np_where_eq_NoDup| |exact Hpos];
         apply NoDup_fmap_2_strong; [|done];
         intros i j Hi Hj Hij; rewrite Forall_forall in Hnonneg;
         specialize (Hnonneg i Hi) as Hi'; specialize (Hnonneg j Hj) as Hj';
         lia|];
      assert (Hcount : length (filter (λ e, e.1 ∈ positions) (enumerate stim_seq))
                       = length positions);
        [apply filter_keys_length; [|done|];
         [unfold enumerate; rewrite enumerate_from_keys; apply NoDup_seqZ|];
         intros p Hp; apply list_elem_of_lookup in Hp as [k Hk];
         destruct (Forall2_lookup_r _ _ _ _ _ Hpos2 Hk) as (i & _ & Hi);
         apply py_getitem_Ok, np_where_eq_elem_of in Hi;
         apply list_elem_of_fmap; by exists (p, TRIAL_NI)|];
      apply Forall2_length in Hpos2
  end.
  unfold len. rewrite !splice_count. unfold enumerate.
  rewrite enumerate_from_values, Hperm, !filter_app.
  rewrite !length_app.
  rewrite filter_replicate_eq, (filter_replicate_ne _ TRIAL_NX TRIAL_NI) by done.
  rewrite (filter_replicate_ne _ TRIAL_NI TRIAL_NX) by done.
  rewrite filter_replicate_eq.
  rewrite (filter_replicate_ne _ TRIAL_RI TRIAL_NX) by done.
  rewrite (filter_replicate_ne _ TRIAL_RI TRIAL_NI) by done.
  rewrite !length_replicate. simpl.
  unfold enumerate in Hcount. rewrite Hcount.
  unfold len in Hidx_len. lia.
Qed.
End StroopSeqCounts.

(** X8: the sequence returned by [gen_random_stroop_seq] has exactly
    [nb_naming_control] naming-control symbols, [nb_naming_inhib]
    naming-inhibition symbols and [nb_switching] switching symbols, hence
    as many items as the three counts add up to. *)
Theorem gen_random_stroop_seq_composition {G : Type} `{Generator G}
    (nb_naming_control nb_naming_inhib nb_switching : Z) (rng rng' : G)
    (trial_seq : list Z) :
  gen_random_stroop_seq nb_naming_control nb_naming_inhib nb_switching rng
  = Ok (trial_seq, rng') →
  len (filter (λ t, t = TRIAL_NX) trial_seq) = nb_naming_control ∧
  len (filter (λ t, t = TRIAL_NI) trial_seq) = nb_naming_inhib ∧
  len (filter (λ t, t = TRIAL_RI) trial_seq) = nb_switching ∧
  len trial_seq = nb_naming_control + nb_naming_inhib + nb_switching.
Proof.
  intros Hseq.
  pose proof (gen_random_stroop_seq_counts _ _ _ _ _ _ Hseq)
    as (Hnx & Hni & Hri).
  repeat split; try done.
  pose proof (gen_random_stroop_seq_symbols _ _ _ _ _ _ Hseq) as Hsym.
  rewrite <- Hnx, <- Hni, <- Hri. unfold len.
  clear -Hsym. induction Hsym as [|t l Ht _ IH]; [done|].
  rewrite !filter_cons. simpl length.
  destruct Ht as [Ht|[Ht|Ht]]; subst t; repeat case_decide;
    try discriminate; simpl length; lia.
Qed.

Lemma gen_random_stroop_seq_composition_witness :
  let trial_seq := [0; 0; 1; 1; 2; 1; 2] in
  len (filter (λ t, t = TRIAL_NX) trial_seq) = 2 ∧
  len (filter (λ t, t = TRIAL_NI) trial_seq) = 3 ∧
  len (filter (λ t, t = TRIAL_RI) trial_seq) = 2 ∧
  len trial_seq = 2 + 3 + 2.
Proof.
  apply (gen_random_stroop_seq_composition 2 3 2 (7 : Z) 642666333).
  vm_compute. reflexivity.
Defined.

(** ** Layout of the blocks *)

Section BlockLayout.
Context {G : Type} `{Generator G}.
Context {Gl : Type} `{LegacyRandom Gl}.
Variable surface_size : XpStim → Z * Z.

Lemma choice_total {A : Type} (l : list A) n (rng : G) (s : Gl) :
  l ≠ [] → 0 ≤ n →
  ∃ r rng' s',
    choice l n false rng s = (Ok (r, rng'), s') ∧
    len r = n ∧ (len l ≤ n → ∀ a, a ∈ l → a ∈ r).
Proof. intros Hl Hn. by apply choice_rec_spec. Qed.

(** The loop of [gen_switching_block] appends, for each pair, a group of
    reference trials of the requested size and the switching trial. *)
Lemma switching_block_loop_Ok ref pairs trials (rng rng' : G) (s s' : Gl) ts :
  Strooper.switching_block_loop ref pairs trials rng s = (Ok (ts, rng'), s') →
  ∃ groups,
    ts = trials ++ mjoin (zip_with (λ g p, g ++ [p.2]) groups pairs) ∧
    Forall2 (λ g p, len g = p.1 ∧ Forall (λ t, t ∈ ref) g) groups pairs.
Proof.
  revert trials rng s.
  induction pairs as [|[n sw] pairs IH]; intros trials rng s Hloop;
    simpl in Hloop; inv_Ok.
  - exists []. split; [by rewrite app_nil_r|constructor].
  - match goal with
    | Hc : choice _ _ _ _ _ = _, Hl : Strooper.switching_block_loop _ _ _ _ _ = _
      |- _ => apply choice_Ok in Hc as [Hlen Hin];
              apply IH in Hl as (groups & -> & Hgroups)
    end.
    eexists (_ :: groups). split; [|by constructor].
    simpl. by rewrite <- !app_assoc.
Qed.

Lemma switching_block_loop_total ref pairs trials (rng : G) (s : Gl) :
  ref ≠ [] → Forall (λ p, 0 ≤ p.1) pairs →
  ∃ ts rng' s',
    Strooper.switching_block_loop ref pairs trials rng s = (Ok (ts, rng'), s').
Proof.
  intros Href Hpairs. revert trials rng s.
  induction Hpairs as [|[n sw] pairs Hn _ IH]; intros trials rng s; simpl.
  - unfold m_ret. eauto.
  - destruct (choice_total ref n rng s) as (g & rng1 & s1 & Hg & _);
      [done..|].
    unfold m_bind at 1. rewrite Hg. apply IH.
Qed.

Lemma gen_switching_block_Ok exp show (rng rng' : G) (s s' : Gl) block :
  Strooper.gen_switching_block surface_size exp show rng s
  = (Ok (block, rng'), s') →
  ∃ inhib switch g0 sw0 g1 sw1 g2 sw2 g3 sw3 g4,
    Strooper.gen_inhib_trials surface_size exp None false true = Ok inhib ∧
    Strooper.gen_switch_trials surface_size exp true = Ok switch ∧
    trials block
    = [Strooper.block_cue_trial exp] ++ g0 ++ [sw0] ++ g1 ++ [sw1]
      ++ g2 ++ [sw2] ++ g3 ++ [sw3] ++ g4 ∧
    Forall (λ g, g ≠ [] ∧ Forall (λ t, t ∈ inhib) g) [g0; g1; g2; g3; g4] ∧
    Forall (λ t, t ∈ switch) [sw0; sw1; sw2; sw3] ∧
    length (trials block) = 16%nat.
Proof.
  unfold Strooper.gen_switching_block. intros Hb. inv_Ok.
  match goal with
  | Hsizes : Strooper.gen_inhib_sub_block_sizes _ ?r = Ok (?sizes, _) |- _ =>
      destruct (gen_inhib_sub_block_sizes_spec exp r)
        as (sizes' & rng2 & Hspec & Hlen & Hpos & Hsum);
      rewrite Hspec in Hsizes; simplify_eq; clear Hspec
  end.
  match goal with
  | Hinhib : Strooper.gen_inhib_trials _ _ _ _ _ = Ok ?inhib,
    Hswitch : Strooper.gen_switch_trials _ _ _ = Ok ?switch,
    Hsw : choice ?switch _ false _ _ = (Ok (?sws, _), _),
    Hloop : Strooper.switching_block_loop _ (zip ?sizes ?sws) _ _ _ = _,
    Hlast : py_getitem ?sizes (-1) = Ok ?last,
    Hg : choice _ ?last false _ _ = (Ok (?g4, _), _) |- _ =>
      apply choice_Ok in Hsw as [Hsws Hswin];
      apply choice_Ok in Hg as [Hg4 Hg4in];
      apply switching_block_loop_Ok in Hloop as (groups & -> & Hgroups);
      assert (Hlen' : length sizes = 5%nat)
        by (unfold len in Hlen;
            change (Strooper.NB_TRIALS_SWITCH_PER_BLOCK + 1) with 5 in Hlen;
            lia);
      assert (Hsws' : length sws = 4%nat)
        by (unfold len in Hsws;
            change Strooper.NB_TRIALS_SWITCH_PER_BLOCK with 4 in Hsws; lia);
      clear Hlen Hsws;
      destruct sizes as [|n0 [|n1 [|n2 [|n3 [|n4 [|? ?]]]]]];
        try discriminate Hlen';
      destruct sws as [|sw0 [|sw1 [|sw2 [|sw3 [|? ?]]]]];
        try discriminate Hsws';
      clear Hlen' Hsws';
      assert (last = n4) by (vm_compute in Hlast; congruence); subst last;
      clear Hlast;
      exists inhib, switch;
      generalize dependent inhib; generalize dependent switch
  end.
  intros switch Hswitch Hswin inhib Hinhib Hgroups Hg4in.
  cbn [zip zip_with] in Hgroups.
  apply Forall2_cons_inv_r in Hgroups as (grp0 & gs & [Hgrp0 Hgrp0in] & Hgroups & ->).
  apply Forall2_cons_inv_r in Hgroups as (grp1 & gs' & [Hgrp1 Hgrp1in] & Hgroups & ->).
  apply Forall2_cons_inv_r in Hgroups as (grp2 & gs & [Hgrp2 Hgrp2in] & Hgroups & ->).
  apply Forall2_cons_inv_r in Hgroups as (grp3 & gs' & [Hgrp3 Hgrp3in] & Hgroups & ->).
  apply Forall2_nil_inv_r in Hgroups as ->.
  cbn [fst] in Hgrp0, Hgrp1, Hgrp2, Hgrp3.
  apply Forall_cons in Hpos as [Hn0 Hpos].
  apply Forall_cons in Hpos as [Hn1 Hpos].
  apply Forall_cons in Hpos as [Hn2 Hpos].
  apply Forall_cons in Hpos as [Hn3 Hpos].
  apply Forall_cons in Hpos as [Hn4 _].
  apply Forall_cons in Hswin as [Hsw0 Hswin].
  apply Forall_cons in Hswin as [Hsw1 Hswin].
  apply Forall_cons in Hswin as [Hsw2 Hswin].
  apply Forall_cons in Hswin as [Hsw3 _].
  unfold sum in Hsum. cbn [foldr] in Hsum.
  change (Strooper.NB_TRIALS_PER_BLOCK - Strooper.NB_TRIALS_SWITCH_PER_BLOCK)
    with 11 in Hsum.
  unfold len in *.
  exists grp0, sw0, grp1, sw1, grp2, sw2, grp3, sw3.
  match goal with |- ∃ g4, _ ∧ _ ∧ trials (mkBlock _ _ (_ ++ ?l) _) = _ ∧ _ =>
    exists l end.
  split; [exact Hinhib|]. split; [exact Hswitch|].
  cbn [trials zip_with mjoin list_join zip snd].
  assert (Hne : ∀ (grp : list Trial) n,
            Z.of_nat (length grp) = n → 1 ≤ n → grp ≠ [])
    by (intros grp n Hgrp Hn ->; simpl in Hgrp; lia).
  split; [by rewrite app_nil_r, <- !app_assoc|].
  split; [|split].
  - repeat apply Forall_cons_2; try apply Forall_nil_2;
      (split; [eapply Hne; eassumption|assumption]).
  - repeat apply Forall_cons_2; try apply Forall_nil_2; assumption.
  - rewrite !length_app. cbn [length]. lia.
Qed.

Lemma gen_switching_block_total exp show (rng : G) (s : Gl) :
  language exp = "e" ∨ language exp = "f" →
  ∃ block rng' s',
    Strooper.gen_switching_block surface_size exp show rng s
    = (Ok (block, rng'), s').
Proof.
  intros Hlang. unfold Strooper.gen_switching_block.
  destruct (catalogs_supported_language surface_size exp false true Hlang)
    as (naming & inhib & switch & congruent & _ & _ & Hi & Hilen & Hs & Hslen
        & _).
  rewrite Hs, Hi.
  assert (Hine : inhib ≠ []) by (by intros ->).
  assert (Hsne : switch ≠ []) by (by intros ->).
  destruct (choice_total switch Strooper.NB_TRIALS_SWITCH_PER_BLOCK
                         rng s) as (sws & rng1 & s1 & Hsws & _); [done..|].
  destruct (gen_inhib_sub_block_sizes_spec exp rng1)
    as (sizes & rng2 & Hsizes & Hlen & Hpos & _).
  destruct (switching_block_loop_total inhib (zip sizes sws)
              [Strooper.block_cue_trial exp] rng2 s1)
    as (ts & rng3 & s3 & Hloop); [done| |].
  { clear -Hpos. revert sws.
    induction Hpos as [|n sizes Hn _ IH]; intros [|sw sws];
      cbn [zip zip_with]; try apply Forall_nil_2.
    apply Forall_cons_2; [cbn [fst]; lia|apply IH]. }
  destruct (py_getitem sizes (-1)) as [last|e] eqn:Hlast.
  2: { assert (Hlen' : length sizes = 5%nat)
         by (unfold len in Hlen;
             change (Strooper.NB_TRIALS_SWITCH_PER_BLOCK + 1) with 5 in Hlen;
             lia).
       destruct sizes as [|n0 [|n1 [|n2 [|n3 [|n4 [|? ?]]]]]];
         try discriminate Hlen'. vm_compute in Hlast. discriminate. }
  assert (Hlastpos : 0 ≤ last).
  { apply py_getitem_Ok in Hlast. rewrite Forall_forall in Hpos.
    specialize (Hpos _ Hlast). lia. }
  destruct (choice_total inhib last rng3 s3)
    as (g4 & rng4 & s4 & Hg4 & _); [done..|].
  unfold m_bind, m_lift, m_ret. simpl.
  rewrite Hsws, Hsizes. simpl. rewrite Hloop, Hlast, Hg4. eauto.
Qed.
End BlockLayout.

(** X9: a switching block is a block cue followed by 15 trials: five
    non-empty groups of inhibition trials (11 in all) separated by four
    switching trials, so that every switching trial has an inhibition
    trial before and after it.  Under the two supported languages the
    block is generated. *)
Theorem gen_switching_block_layout {G : Type} `{Generator G} {Gl : Type}
    `{LegacyRandom Gl} (surface_size : XpStim → Z * Z) (exp : ExpData)
    (show : bool) (rng : G) (s : Gl) :
  (∀ block rng' s',
     Strooper.gen_switching_block surface_size exp show rng s
     = (Ok (block, rng'), s') →
     ∃ inhib switch g0 sw0 g1 sw1 g2 sw2 g3 sw3 g4,
       Strooper.gen_inhib_trials surface_size exp None false true = Ok inhib ∧
       Strooper.gen_switch_trials surface_size exp true = Ok switch ∧
       trials block
       = [Strooper.block_cue_trial exp] ++ g0 ++ [sw0] ++ g1 ++ [sw1]
         ++ g2 ++ [sw2] ++ g3 ++ [sw3] ++ g4 ∧
       Forall (λ g, g ≠ [] ∧ Forall (λ t, t ∈ inhib) g) [g0; g1; g2; g3; g4] ∧
       Forall (λ t, t ∈ switch) [sw0; sw1; sw2; sw3] ∧
       length (trials block) = 16%nat) ∧
  (language exp = "e" ∨ language exp = "f" →
   ∃ block rng' s',
     Strooper.gen_switching_block surface_size exp show rng s
     = (Ok (block, rng'), s')).
Proof.
  split.
  - intros block rng' s'. apply gen_switching_block_Ok.
  - apply gen_switching_block_total.
Qed.

Section SampledBlocks.
Context {G : Type} `{Generator G}.
Context {Gl : Type} `{LegacyRandom Gl}.
Variable surface_size : XpStim → Z * Z.

Lemma choice_covers_catalog exp (catalog : list Trial) n (rng : G) (s : Gl) :
  catalog ≠ [] → len catalog ≤ n →
  ∃ ts rng',
    choice catalog n false rng s = (Ok (ts, rng'), s) ∧
    ∀ label char_id show,
      covers_catalog exp catalog (Z.to_nat (n - len catalog))
        (mkBlock label char_id (Strooper.prepend_block_cue exp ts) show).
Proof.
  intros Hne Hn.
  destruct (choice_unbalanced_overflow catalog n rng s Hne Hn)
    as (p & more & rng1 & rng2 & _ & Hmore & Hc & Hperm & _).
  exists (p ++ more), rng2. split; [done|]. intros label char_id show.
  exists p, more. apply rng_choice_Ok in Hmore as [Hlen Hin].
  split; [reflexivity|]. split; [exact Hperm|]. split; [|exact Hin].
  rewrite <- Hlen. unfold len. lia.
Qed.

Lemma gen_naming_block_covers exp show (rng : G) (s : Gl) :
  language exp = "e" ∨ language exp = "f" →
  ∃ catalog block rng',
    Strooper.gen_naming_trials surface_size exp None None true = Ok catalog ∧
    Strooper.gen_naming_block surface_size exp show rng s
    = (Ok (block, rng'), s) ∧
    covers_catalog exp catalog 11 block.
Proof.
  intros Hlang.
  destruct (catalogs_supported_language surface_size exp false true Hlang)
    as (naming & _ & _ & _ & Hn & Hnlen & _).
  destruct (choice_covers_catalog exp naming Strooper.NB_TRIALS_PER_BLOCK
                                  rng s)
    as (ts & rng' & Hts & Hcov).
  { by intros ->. }
  { unfold len. rewrite Hnlen. done. }
  eexists naming, _, rng'. split; [done|].
  unfold Strooper.gen_naming_block, m_bind, m_lift, m_ret. simpl.
  rewrite Hn, Hts. split; [reflexivity|].
  specialize (Hcov "Block_Naming" (Some "L") show).
  unfold len in Hcov. rewrite Hnlen in Hcov. exact Hcov.
Qed.

Lemma gen_inhibit_color_block_covers exp show (rng : G) (s : Gl) :
  language exp = "e" ∨ language exp = "f" →
  ∃ catalog block rng',
    Strooper.gen_inhib_trials surface_size exp None true true = Ok catalog ∧
    Strooper.gen_inhibit_color_block surface_size exp show rng s
    = (Ok (block, rng'), s) ∧
    covers_catalog exp catalog 3 block.
Proof.
  intros Hlang.
  destruct (catalogs_supported_language surface_size exp true true Hlang)
    as (_ & inhib & _ & _ & _ & _ & Hi & Hilen & _).
  destruct (choice_covers_catalog exp inhib Strooper.NB_TRIALS_PER_BLOCK
                                  rng s)
    as (ts & rng' & Hts & Hcov).
  { by intros ->. }
  { unfold len. rewrite Hilen. done. }
  eexists inhib, _, rng'. split; [done|].
  unfold Strooper.gen_inhibit_color_block, m_bind, m_lift, m_ret. simpl.
  rewrite Hi, Hts. split; [reflexivity|].
  specialize (Hcov "Block_Naming_Incongruent" (Some "G") show).
  unfold len in Hcov. rewrite Hilen in Hcov. exact Hcov.
Qed.

Lemma gen_inhibit_reading_block_covers exp show (rng : G) (s : Gl) :
  language exp = "e" ∨ language exp = "f" →
  ∃ catalog block rng',
    Strooper.gen_inhib_trials surface_size exp None false true = Ok catalog ∧
    Strooper.gen_inhibit_reading_block surface_size exp show rng s
    = (Ok (block, rng'), s) ∧
    covers_catalog exp catalog 3 block.
Proof.
  intros Hlang.
  destruct (catalogs_supported_language surface_size exp false true Hlang)
    as (_ & inhib & _ & _ & _ & _ & Hi & Hilen & _).
  destruct (choice_covers_catalog exp inhib Strooper.NB_TRIALS_PER_BLOCK
                                  rng s)
    as (ts & rng' & Hts & Hcov).
  { by intros ->. }
  { unfold len. rewrite Hilen. done. }
  eexists inhib, _, rng'. split; [done|].
  unfold Strooper.gen_inhibit_reading_block, m_bind, m_lift, m_ret. simpl.
  rewrite Hi, Hts. split; [reflexivity|].
  specialize (Hcov "Block_Reading_Incongruent" (Some "H") show).
  unfold len in Hcov. rewrite Hilen in Hcov. exact Hcov.
Qed.

Lemma gen_congruent_naming_block_balanced exp show (rng : G) (s : Gl) :
  language exp = "e" ∨ language exp = "f" →
  (3 ≤ recursion_budget)%nat →
  ∃ catalog block rng' s' partial,
    Strooper.gen_congruent_naming_trials surface_size exp = Ok catalog ∧
    Strooper.gen_congruent_naming_block surface_size exp show rng s
    = (Ok (block, rng'), s') ∧
    partial ⊆+ catalog ∧ length partial = 3%nat ∧
    presents exp (catalog ++ catalog ++ catalog ++ partial) block.
Proof.
  intros Hlang Hroom.
  destruct (catalogs_supported_language surface_size exp false true Hlang)
    as (_ & _ & _ & congruent & _ & _ & _ & _ & _ & _ & Hc & Hclen).
  destruct (choice_rec_balanced_multiset recursion_budget congruent
              Strooper.NB_TRIALS_PER_BLOCK rng s)
    as (ts & rng' & s' & partial & Hts & Hsub & Hplen & Hperm);
    [by intros ->|done|unfold len; rewrite Hclen; exact Hroom|].
  unfold len in Hplen, Hperm. rewrite Hclen in Hplen, Hperm.
  change (Z.to_nat (Strooper.NB_TRIALS_PER_BLOCK `div` Z.of_nat 4))
    with 3%nat in Hperm.
  change (Strooper.NB_TRIALS_PER_BLOCK `mod` Z.of_nat 4) with 3 in Hplen.
  eexists congruent, _, rng', s', partial. split; [done|].
  unfold Strooper.gen_congruent_naming_block, m_bind, m_lift, m_ret. simpl.
  rewrite Hc. unfold choice. rewrite Hts.
  split; [reflexivity|]. split; [done|]. split; [lia|].
  exists ts. split; [reflexivity|].
  rewrite Hperm. cbn [replicate mjoin list_join].
  by rewrite app_nil_r, <- !app_assoc.
Qed.
End SampledBlocks.

(** X10: under the two supported languages the naming block, the
    color-inhibition block and the reading-inhibition block are generated
    without touching the global random state, and each shows the block
    cue, then its whole catalog in some order, then further trials of the
    catalog up to 15: 11 for the 4 naming trials, 3 for the 12
    inhibition trials. *)
Theorem sampled_blocks_cover_their_catalog {G : Type} `{Generator G}
    {Gl : Type} `{LegacyRandom Gl} (surface_size : XpStim → Z * Z)
    (exp : ExpData) (show : bool) (rng : G) (np_state : Gl) :
  language exp = "e" ∨ language exp = "f" →
  (∃ catalog block rng',
     Strooper.gen_naming_trials surface_size exp None None true = Ok catalog ∧
     Strooper.gen_naming_block surface_size exp show rng np_state
     = (Ok (block, rng'), np_state) ∧
     covers_catalog exp catalog 11 block) ∧
  (∃ catalog block rng',
     Strooper.gen_inhib_trials surface_size exp None true true = Ok catalog ∧
     Strooper.gen_inhibit_color_block surface_size exp show rng np_state
     = (Ok (block, rng'), np_state) ∧
     covers_catalog exp catalog 3 block) ∧
  (∃ catalog block rng',
     Strooper.gen_inhib_trials surface_size exp None false true = Ok catalog ∧
     Strooper.gen_inhibit_reading_block surface_size exp show rng np_state
     = (Ok (block, rng'), np_state) ∧
     covers_catalog exp catalog 3 block).
Proof.
  intros Hlang. split; [|split].
  - by apply gen_naming_block_covers.
  - by apply gen_inhibit_color_block_covers.
  - by apply gen_inhibit_reading_block_covers.
Qed.

Lemma sampled_blocks_cover_their_catalog_witness :
  (∃ catalog block rng',
     Strooper.gen_naming_trials Toy.surface_size Toy.exp_data None None true
     = Ok catalog ∧
     Strooper.gen_naming_block Toy.surface_size Toy.exp_data false (7 : Z)
                               (Toy.Global 1)
     = (Ok (block, rng'), Toy.Global 1) ∧
     covers_catalog Toy.exp_data catalog 11 block) ∧
  (∃ catalog block rng',
     Strooper.gen_inhib_trials Toy.surface_size Toy.exp_data None true true
     = Ok catalog ∧
     Strooper.gen_inhibit_color_block Toy.surface_size Toy.exp_data false
                                      (7 : Z) (Toy.Global 1)
     = (Ok (block, rng'), Toy.Global 1) ∧
     covers_catalog Toy.exp_data catalog 3 block) ∧
  (∃ catalog block rng',
     Strooper.gen_inhib_trials Toy.surface_size Toy.exp_data None false true
     = Ok catalog ∧
     Strooper.gen_inhibit_reading_block Toy.surface_size Toy.exp_data false
                                        (7 : Z) (Toy.Global 1)
     = (Ok (block, rng'), Toy.Global 1) ∧
     covers_catalog Toy.exp_data catalog 3 block).
Proof.
  apply (sampled_blocks_cover_their_catalog Toy.surface_size Toy.exp_data
           false (7 : Z) (Toy.Global 1)).
  left. reflexivity.
Defined.

(** X11: under the two supported languages, and with room on the call
    stack for the three nested calls of the balanced sampler, the
    congruent naming block is generated, and it shows the block cue and
    then 15 trials that are a rearrangement of three full copies of the
    4 congruent trials and of 3 of them taken without repetition: each
    congruent trial is shown three or four times. *)
Theorem gen_congruent_naming_block_is_balanced {G : Type} `{Generator G}
    {Gl : Type} `{LegacyRandom Gl} (surface_size : XpStim → Z * Z)
    (exp : ExpData) (show : bool) (rng : G) (np_state : Gl) :
  language exp = "e" ∨ language exp = "f" →
  (3 ≤ recursion_budget)%nat →
  ∃ catalog block rng' np_state' partial,
    Strooper.gen_congruent_naming_trials surface_size exp = Ok catalog ∧
    Strooper.gen_congruent_naming_block surface_size exp show rng np_state
    = (Ok (block, rng'), np_state') ∧
    partial ⊆+ catalog ∧ length partial = 3%nat ∧
    presents exp (catalog ++ catalog ++ catalog ++ partial) block.
Proof. apply gen_congruent_naming_block_balanced. Qed.

Lemma gen_congruent_naming_block_is_balanced_witness :
  ∃ catalog block rng' np_state' partial,
    Strooper.gen_congruent_naming_trials Toy.surface_size Toy.exp_data
    = Ok catalog ∧
    Strooper.gen_congruent_naming_block Toy.surface_size Toy.exp_data false
                                        (7 : Z) (Toy.Global 1)
    = (Ok (block, rng'), np_state') ∧
    partial ⊆+ catalog ∧ length partial = 3%nat ∧
    presents Toy.exp_data (catalog ++ catalog ++ catalog ++ partial) block.
Proof.
  apply (gen_congruent_naming_block_is_balanced Toy.surface_size Toy.exp_data
           false (7 : Z) (Toy.Global 1)).
  - left. reflexivity.
  - apply Nat.leb_le. vm_compute. reflexivity.
Defined.

(** ** Layout of the event-related session *)

Lemma trials_not_answering_subset prev all_trials kept :
  Strooper.trials_not_answering prev all_trials = Ok kept →
  ∀ t, t ∈ kept → t ∈ all_trials.
Proof.
  revert kept. induction all_trials as [|t0 all_trials IH]; intros kept Hk t Ht;
    simpl in Hk; inv_Ok.
  - by apply elem_of_nil in Ht.
  - case_decide; inv_Ok.
    + apply elem_of_cons in Ht as [->|Ht]; [apply list_elem_of_here|].
      apply list_elem_of_further. by eapply IH.
    + apply list_elem_of_further. by eapply IH.
Qed.

Lemma next_trials_by_answer_subset all_trials by_answer prev candidates :
  Strooper.next_trials_by_answer all_trials = Ok by_answer →
  dict_get by_answer prev = Ok candidates →
  ∀ t, t ∈ candidates → t ∈ all_trials.
Proof.
  unfold Strooper.next_trials_by_answer. intros Hd Hget. inv_Ok.
  match goal with Hm : res_mapM _ _ = Ok _ |- _ => apply res_mapM_Ok in Hm;
    rename Hm into Hcolors end.
  simpl in Hget.
  destruct (decide (None = prev)) as [<-|Hprev]; [by inv_Ok|].
  induction Hcolors as [|[c rgb] entry colors by_color Hentry _ IH];
    simpl in Hget; [discriminate|].
  inv_Ok. simpl in Hget.
  destruct (decide (Some c = prev)) as [<-|_]; [|by apply IH].
  inv_Ok. by eapply trials_not_answering_subset.
Qed.

Lemma zip_with_zip_snd {A B C D : Type} (g : A → C → D) (chosen : list A)
    (a : list B) (b : list C) :
  length chosen = length (zip a b) →
  zip_with (λ t p, g t p.2) chosen (zip a b) = zip_with g chosen b.
Proof.
  revert a b. induction chosen as [|c chosen IH]; intros [|x a] [|y b] Hlen;
    cbn [zip zip_with length] in *; try done.
  f_equal. apply IH. by injection Hlen.
Qed.

Lemma Forall2_zip_fst {A B C : Type} (Q : A → B → Prop) (chosen : list A)
    (a : list B) (b : list C) :
  Forall2 (λ t p, Q t p.1) chosen (zip a b) →
  Forall2 Q chosen (take (length chosen) a).
Proof.
  revert a b. induction chosen as [|c chosen IH]; intros a b Hf.
  - constructor.
  - destruct a as [|x a], b as [|y b]; simpl in Hf;
      try (by apply Forall2_nil_inv_r in Hf).
    apply Forall2_cons in Hf as [Hc Hf]. simpl. constructor; [done|].
    by eapply IH.
Qed.

Section EventRelatedLayout.
Context {G : Type} `{Generator G}.
Context {Gl : Type} `{LegacyRandom Gl}.
Variable surface_size : XpStim → Z * Z.

(** The loop of [generate_stroop_session] appends, for each pair of a
    symbol and an interval, a trial among the candidates of the symbol and
    a rest trial lasting the interval. *)
Lemma stroop_session_loop_layout exp next_trials pairs ts prev (rng rng' : G)
    (s s' : Gl) ts' :
  Strooper.stroop_session_loop exp next_trials pairs ts prev rng s
  = (Ok (ts', rng'), s') →
  ∃ chosen,
    ts' = ts ++ mjoin (zip_with
                         (λ t p, [t; Strooper.rest_trial exp (NFloat p.2)])
                         chosen pairs) ∧
    Forall2 (λ t p,
               ∃ task stim_type by_type by_answer prev_answer candidates,
                 py_getitem TRIALS_SPEC p.1 = Ok (task, stim_type) ∧
                 dict_get next_trials task = Ok by_type ∧
                 dict_get by_type stim_type = Ok by_answer ∧
                 dict_get by_answer prev_answer = Ok candidates ∧
                 t ∈ candidates)
            chosen pairs.
Proof.
  revert ts prev rng s.
  induction pairs as [|[stim_symbol isi_ms] pairs IH];
    intros ts prev rng s Hloop; simpl in Hloop; inv_Ok.
  - exists []. split; [by rewrite app_nil_r|constructor].
  - match goal with
    | Hc : choice ?cands 1 false _ _ = (Ok (?picked, _), _),
      Hp : py_getitem ?picked 0 = Ok ?chosen_trial,
      Hl : Strooper.stroop_session_loop _ _ _ _ _ _ _ = _ |- _ =>
        apply choice_Ok in Hc as [_ Hpicked];
        apply py_getitem_Ok in Hp;
        rewrite Forall_forall in Hpicked; specialize (Hpicked _ Hp);
        apply IH in Hl as (chosen & -> & Hchosen);
        exists (chosen_trial :: chosen)
    end.
    split; [cbn [zip_with mjoin list_join snd]; by rewrite <- !app_assoc|].
    constructor; [|done]. cbn [fst].
    do 6 eexists. repeat split; eassumption.
Qed.

Lemma generate_stroop_session_layout exp stim_seq isis_ms (rng rng' : G)
    (s s' : Gl) session :
  Strooper.generate_stroop_session surface_size exp stim_seq isis_ms rng s
  = (Ok (session, rng'), s') →
  ∃ naming inhib switch chosen,
    Strooper.gen_naming_trials surface_size exp None None false = Ok naming ∧
    Strooper.gen_inhib_trials surface_size exp None false false = Ok inhib ∧
    Strooper.gen_switch_trials surface_size exp false = Ok switch ∧
    blocks session
    = [ mkBlock "rest" None
          [Strooper.rest_trial exp (NInt Strooper.BASELINE_PRE_DURATION)] false;
        mkBlock "Block_Stroop_ER" None
          (mjoin (zip_with (λ t isi, [t; Strooper.rest_trial exp (NFloat isi)])
                           chosen isis_ms)) false;
        mkBlock "rest" None
          [Strooper.rest_trial exp (NInt Strooper.BASELINE_POST_DURATION)]
          false ] ∧
    length chosen = Nat.min (length stim_seq) (length isis_ms) ∧
    Forall2 (λ t symbol,
               (symbol = TRIAL_NX → t ∈ naming) ∧
               (symbol = TRIAL_NI → t ∈ inhib) ∧
               (symbol = TRIAL_RI → t ∈ switch))
            chosen (take (length chosen) stim_seq).
Proof.
  unfold Strooper.generate_stroop_session. intros Hs. inv_Ok.
  match goal with
  | Hloop : Strooper.stroop_session_loop _ _ _ _ _ _ _ = _,
    Hsw : Strooper.gen_switch_trials _ _ _ = Ok ?switch,
    Hctrl : Strooper.gen_naming_trials _ _ _ _ _ = Ok ?naming,
    Hinhib : Strooper.gen_inhib_trials _ _ _ _ _ = Ok ?inhib,
    Hn : Strooper.next_trials_by_answer ?naming = Ok _,
    Hi : Strooper.next_trials_by_answer ?inhib = Ok _,
    Hw : Strooper.next_trials_by_answer ?switch = Ok _ |- _ =>
      apply stroop_session_loop_layout in Hloop as (chosen & -> & Hchosen);
      exists naming, inhib, switch, chosen;
      pose proof (λ prev cands,
                    next_trials_by_answer_subset _ _ prev cands Hn) as Hnsub;
      pose proof (λ prev cands,
                    next_trials_by_answer_subset _ _ prev cands Hi) as Hisub;
      pose proof (λ prev cands,
                    next_trials_by_answer_subset _ _ prev cands Hw) as Hwsub;
      clear Hn Hi Hw
  end.
  split; [assumption|]. split; [assumption|]. split; [assumption|].
  assert (Hlen : length chosen = length (zip stim_seq isis_ms))
    by (by eapply Forall2_length).
  split; [|split].
  - cbn [blocks app].
    rewrite <- (zip_with_zip_snd
                  (λ t isi, [t; Strooper.rest_trial exp (NFloat isi)])
                  chosen stim_seq isis_ms Hlen).
    reflexivity.
  - by rewrite Hlen, length_zip.
  - apply (Forall2_zip_fst _ _ _ isis_ms).
    eapply Forall2_impl; [exact Hchosen|]. cbn beta.
    intros t [symbol isi]
      (task & stim_type & by_type & by_answer & prev & cands & Hspec & Htask
       & Htype & Hprev & Ht).
    cbn [fst] in *.
    repeat split; intros ->; vm_compute in Hspec; inv_Ok;
      simpl in Htask; repeat case_decide; try discriminate; inv_Ok;
      simpl in Htype; repeat case_decide; try discriminate; inv_Ok; eauto.
Qed.
End EventRelatedLayout.

(** X12: an event-related session has three blocks: a 30 s rest, the main
    block and a 30 s rest.  The main block alternates a chosen trial and a
    rest trial: there are as many chosen trials as the shorter of the
    symbol sequence and the interval sequence has items, the i-th rest
    lasts the i-th interval, and the i-th chosen trial comes from the
    catalog (without cue) of the i-th symbol: naming control, naming
    inhibition or switching. *)
Theorem generate_stroop_session_alternates {G : Type} `{Generator G}
    {Gl : Type} `{LegacyRandom Gl} (surface_size : XpStim → Z * Z)
    (exp : ExpData) (stim_seq : list Z) (isis_ms : list float) (rng rng' : G)
    (np_state np_state' : Gl) (session : Session) :
  Strooper.generate_stroop_session surface_size exp stim_seq isis_ms rng
                                   np_state
  = (Ok (session, rng'), np_state') →
  ∃ naming inhib switch chosen,
    Strooper.gen_naming_trials surface_size exp None None false = Ok naming ∧
    Strooper.gen_inhib_trials surface_size exp None false false = Ok inhib ∧
    Strooper.gen_switch_trials surface_size exp false = Ok switch ∧
    blocks session
    = [ mkBlock "rest" None
          [Strooper.rest_trial exp (NInt Strooper.BASELINE_PRE_DURATION)] false;
        mkBlock "Block_Stroop_ER" None
          (mjoin (zip_with (λ t isi, [t; Strooper.rest_trial exp (NFloat isi)])
                           chosen isis_ms)) false;
        mkBlock "rest" None
          [Strooper.rest_trial exp (NInt Strooper.BASELINE_POST_DURATION)]
          false ] ∧
    length chosen = Nat.min (length stim_seq) (length isis_ms) ∧
    Forall2 (λ t symbol,
               (symbol = TRIAL_NX → t ∈ naming) ∧
               (symbol = TRIAL_NI → t ∈ inhib) ∧
               (symbol = TRIAL_RI → t ∈ switch))
            chosen (take (length chosen) stim_seq).
Proof. apply generate_stroop_session_layout. Qed.

Lemma generate_stroop_session_alternates_witness :
  ∃ session naming inhib switch chosen,
    Strooper.gen_naming_trials Toy.surface_size Toy.exp_data None None false
    = Ok naming ∧
    Strooper.gen_inhib_trials Toy.surface_size Toy.exp_data None false false
    = Ok inhib ∧
    Strooper.gen_switch_trials Toy.surface_size Toy.exp_data false
    = Ok switch ∧
    blocks session
    = [ mkBlock "rest" None
          [Strooper.rest_trial Toy.exp_data
             (NInt Strooper.BASELINE_PRE_DURATION)] false;
        mkBlock "Block_Stroop_ER" None
          (mjoin (zip_with
                    (λ t isi, [t; Strooper.rest_trial Toy.exp_data (NFloat isi)])
                    chosen [400; 500; 600; 700]%float)) false;
        mkBlock "rest" None
          [Strooper.rest_trial Toy.exp_data
             (NInt Strooper.BASELINE_POST_DURATION)] false ] ∧
    length chosen = Nat.min (length [0; 1; 2; 1; 0]) 4 ∧
    Forall2 (λ t symbol,
               (symbol = TRIAL_NX → t ∈ naming) ∧
               (symbol = TRIAL_NI → t ∈ inhib) ∧
               (symbol = TRIAL_RI → t ∈ switch))
            chosen (take (length chosen) [0; 1; 2; 1; 0]).
Proof.
  destruct (Strooper.generate_stroop_session Toy.surface_size Toy.exp_data
              [0; 1; 2; 1; 0] [400; 500; 600; 700]%float
              (7 : Z) (Toy.Global 1))
    as [[[session rng']|e] np_state'] eqn:Hrun;
    [|vm_compute in Hrun; discriminate].
  exists session.
  exact (generate_stroop_session_alternates _ _ _ _ _ _ _ _ _ Hrun).
Defined.

(** ** Layout of the block-designed session *)

Lemma next_each_Ok {A B : Type} (f : A → B) range yields bs :
  Strooper.next_each f range yields = Ok bs →
  Forall2 (λ y b, b = f y) (take (length range) yields) bs.
Proof.
  revert yields bs. induction range as [|i range IH]; intros yields bs Hbs;
    simpl in Hbs.
  - inv_Ok. constructor.
  - destruct yields as [|y yields]; [discriminate|]. inv_Ok.
    simpl. constructor; [done|]. by apply IH.
Qed.

Lemma interleave_Ok {A : Type} (s r all : list A) :
  Strooper.interleave s r = Ok all →
  length s = length r ∧ all = mjoin (zip_with (λ x y, [x; y]) s r).
Proof.
  revert r all. induction s as [|x s IH]; intros [|y r] all Hall;
    simpl in Hall; try discriminate; inv_Ok; [done|].
  match goal with Hi : Strooper.interleave _ _ = Ok _ |- _ =>
    apply IH in Hi as [Hlen ->] end.
  split; [simpl; by rewrite Hlen|done].
Qed.

Section BlockSession.
Context {G : Type} `{Generator G}.
Context {Gl : Type} `{LegacyRandom Gl}.
Variable surface_size : XpStim → Z * Z.

Lemma rd_gen_Ok (rng rng' : G) rd :
  Strooper.rd_gen rng = Ok (rd, rng') →
  Forall (λ n, ∃ d, n = NFloat d ∧
                    PrimFloat.leb (float_of_Z 20000) d = true ∧
                    PrimFloat.leb d (float_of_Z 50000) = true) rd.
Proof.
  unfold Strooper.rd_gen. intros Hrd. inv_Ok.
  match goal with
  | Hrd : (if negb (forallb ?upper ?rests) then _ else _) = _ |- _ =>
      destruct (forallb upper rests) eqn:Hup; [|discriminate];
      cbn [negb] in Hrd;
      match type of Hrd with
      | (if negb (forallb ?lower _) then _ else _) = _ =>
          destruct (forallb lower rests) eqn:Hlow; [|discriminate]
      end;
      cbn [negb] in Hrd; inv_Ok
  end.
  rewrite Forall_fmap, Forall_forall. intros d Hd.
  rewrite forallb_forall in Hup, Hlow.
  apply list_elem_of_In, in_rev in Hd.
  exists d. split; [reflexivity|]. split.
  - exact (Hlow d Hd).
  - exact (Hup d Hd).
Qed.

Lemma gen_naming_block_label exp show (rng rng' : G) (s s' : Gl) b :
  Strooper.gen_naming_block surface_size exp show rng s = (Ok (b, rng'), s') →
  block_label b = "Block_Naming".
Proof. unfold Strooper.gen_naming_block. intros Hb. by inv_Ok. Qed.

Lemma gen_switching_block_label exp show (rng rng' : G) (s s' : Gl) b :
  Strooper.gen_switching_block surface_size exp show rng s
  = (Ok (b, rng'), s') →
  block_label b = "Block_Switching_Incongruent".
Proof. unfold Strooper.gen_switching_block. intros Hb. by inv_Ok. Qed.

Lemma gen_main_session_block_Ok exp session_label (rng : G) (s s' : Gl)
    session :
  Strooper.gen_main_session_block surface_size exp session_label rng s
  = (Ok session, s') →
  ∃ n0 s1 s2 n3 n4 s5 n6 s7 r0 r1 r2 r3 r4 r5 r6 r7,
    blocks session
    = [ mkBlock "baseline_pre" NO_TRIGGER
          [Strooper.rest_trial exp (NInt Strooper.BASELINE_PRE_DURATION)] false;
        n0; r0; s1; r1; s2; r2; n3; r3; n4; r4; s5; r5; n6; r6; s7; r7 ] ∧
    Forall (λ b, block_label b = "Block_Naming") [n0; n3; n4; n6] ∧
    Forall (λ b, block_label b = "Block_Switching_Incongruent")
           [s1; s2; s5; s7] ∧
    Forall (bounded_rest_block exp) [r0; r1; r2; r3; r4; r5; r6; r7].
Proof.
  unfold Strooper.gen_main_session_block. intros Hs. inv_Ok.
  repeat match goal with
  | Hb : Strooper.gen_naming_block _ _ _ _ _ = _ |- _ =>
      apply gen_naming_block_label in Hb
  | Hb : Strooper.gen_switching_block _ _ _ _ _ = _ |- _ =>
      apply gen_switching_block_label in Hb
  end.
  match goal with
  | Hrd' : Strooper.rd_gen _ = Ok (?l', _),
    Hnext' : Strooper.next_each _ _ _ = Ok ?rest_blocks',
    Hall' : Strooper.interleave _ _ = Ok _ |- _ =>
      rename Hrd' into Hrd; rename Hnext' into Hnext; rename Hall' into Hall;
      rename rest_blocks' into rest_blocks; rename l' into l
  end.
  apply rd_gen_Ok in Hrd. apply next_each_Ok in Hnext.
  apply interleave_Ok in Hall as [Hlen ->].
  assert (Hrest : Forall (bounded_rest_block exp) rest_blocks).
  { clear Hlen.
    assert (Hys : Forall
              (λ n, ∃ d, n = NFloat d ∧
                         PrimFloat.leb (float_of_Z 20000) d = true ∧
                         PrimFloat.leb d (float_of_Z 50000) = true)
              (take (length (py_range Strooper.NB_BLOCKS)) l))
      by (by apply Forall_take).
    clear Hrd. rename Hys into Hrd.
    induction Hnext as [|y rb ys bs -> _ IH]; [constructor|].
    apply Forall_cons in Hrd as [(d & -> & Hlow & Hup) Hrd].
    constructor; [by exists d|by apply IH]. }
  clear Hrd Hnext.
  destruct rest_blocks
    as [|r0 [|r1 [|r2 [|r3 [|r4 [|r5 [|r6 [|r7 [|? ?]]]]]]]]];
    try discriminate Hlen.
  cbn [blocks zip_with mjoin list_join app].
  do 16 eexists. split; [reflexivity|].
  split; [|split].
  - repeat apply Forall_cons_2; try apply Forall_nil_2; assumption.
  - repeat apply Forall_cons_2; try apply Forall_nil_2; assumption.
  - exact Hrest.
Qed.
End BlockSession.

(** X13: a block-designed main session has 17 blocks: the 30 s baseline,
    then the eight task blocks in the order naming, switching, switching,
    naming, naming, switching, naming, switching, each followed by a rest
    block of one rest trial lasting between 20 s and 50 s. *)
Theorem gen_main_session_block_layout {G : Type} `{Generator G} {Gl : Type}
    `{LegacyRandom Gl} (surface_size : XpStim → Z * Z) (exp : ExpData)
    (session_label : string) (rng : G) (np_state np_state' : Gl)
    (session : Session) :
  Strooper.gen_main_session_block surface_size exp session_label rng np_state
  = (Ok session, np_state') →
  ∃ n0 s1 s2 n3 n4 s5 n6 s7 r0 r1 r2 r3 r4 r5 r6 r7,
    blocks session
    = [ mkBlock "baseline_pre" NO_TRIGGER
          [Strooper.rest_trial exp (NInt Strooper.BASELINE_PRE_DURATION)] false;
        n0; r0; s1; r1; s2; r2; n3; r3; n4; r4; s5; r5; n6; r6; s7; r7 ] ∧
    Forall (λ b, block_label b = "Block_Naming") [n0; n3; n4; n6] ∧
    Forall (λ b, block_label b = "Block_Switching_Incongruent")
           [s1; s2; s5; s7] ∧
    Forall (bounded_rest_block exp) [r0; r1; r2; r3; r4; r5; r6; r7].
Proof. apply gen_main_session_block_Ok. Qed.

Lemma gen_main_session_block_layout_witness :
  ∃ session n0 s1 s2 n3 n4 s5 n6 s7 r0 r1 r2 r3 r4 r5 r6 r7,
    blocks session
    = [ mkBlock "baseline_pre" NO_TRIGGER
          [Strooper.rest_trial Toy.exp_data
             (NInt Strooper.BASELINE_PRE_DURATION)] false;
        n0; r0; s1; r1; s2; r2; n3; r3; n4; r4; s5; r5; n6; r6; s7; r7 ] ∧
    Forall (λ b, block_label b = "Block_Naming") [n0; n3; n4; n6] ∧
    Forall (λ b, block_label b = "Block_Switching_Incongruent")
           [s1; s2; s5; s7] ∧
    Forall (bounded_rest_block Toy.exp_data) [r0; r1; r2; r3; r4; r5; r6; r7].
Proof.
  destruct (Strooper.gen_main_session_block Toy.surface_size Toy.exp_data
              "main_block" (7 : Z) (Toy.Global 1))
    as [[session|e] np_state'] eqn:Hrun;
    [|vm_compute in Hrun; discriminate].
  exists session.
  exact (gen_main_session_block_layout _ _ _ _ _ _ _ Hrun).
Defined.

(** ** What a run adds to the trace *)

Lemma count_events_app p es1 es2 :
  count_events p (es1 ++ es2)
  = (count_events p es1 + count_events p es2)%nat.
Proof. unfold count_events. by rewrite List.filter_app, length_app. Qed.

Lemma count_events_snoc p es e :
  count_events p (es ++ [e])
  = (count_events p es + if p e then 1 else 0)%nat.
Proof.
  rewrite count_events_app. unfold count_events. simpl. by destruct (p e).
Qed.

Section PrimitiveCounts.
Variable p : Event → bool.

Lemma emit_count e w u w' :
  emit e w = (Ok u, w') →
  count_events p (trace w')
  = (count_events p (trace w) + if p e then 1 else 0)%nat.
Proof. unfold emit. intros [= _ <-]. simpl. apply count_events_snoc. Qed.

Lemma time_ms_count w t w' :
  time_ms w = (Ok t, w') → count_events p (trace w') = count_events p (trace w).
Proof. unfold time_ms. destruct (clock w); by intros [= _ <-]. Qed.

Lemma present_count xp c u w t w' :
  present xp c u w = (Ok t, w') →
  count_events p (trace w')
  = (count_events p (trace w) + if p (Present xp c u) then 1 else 0)%nat.
Proof. unfold present. intros [= _ <-]. simpl. apply count_events_snoc. Qed.

Lemma keyboard_wait_count keys d w r w' :
  keyboard_wait keys d w = (Ok r, w') →
  count_events p (trace w') = count_events p (trace w).
Proof.
  unfold keyboard_wait.
  destruct (inputs w) as [|[[key rt]|] later]; destruct d as [d|];
    repeat case_match; by intros [= _ <-].
Qed.

Lemma emit_all_count es w u w' :
  emit_all es w = (Ok u, w') →
  count_events p (trace w')
  = (count_events p (trace w) + count_events p es)%nat.
Proof.
  revert w. induction es as [|e es IH]; intros w Hes; simpl in Hes; inv_Ok.
  - unfold count_events. simpl. lia.
  - match goal with
    | He : emit _ _ = _, Hr : emit_all _ _ = _ |- _ =>
        apply emit_count in He; apply IH in Hr; rewrite Hr, He
    end.
    change (e :: es) with ([e] ++ es). rewrite (count_events_app _ [e]).
    unfold count_events at 4. simpl. destruct (p e); simpl; lia.
Qed.
End PrimitiveCounts.

(** Inversion of a run that returned normally, through its branches. *)
Ltac inv_run :=
  repeat first
    [ progress inv_Ok
    | match goal with
      | H : (match ?x with _ => _ end) _ = (Ok _, _) |- _ => destruct x eqn:?
      | H : (if ?b then _ else _) _ = (Ok _, _) |- _ => destruct b eqn:?
      | H : (_, _) = (_, _) |- _ => injection H as ? ?; subst
      end ].

Section RunnerCounts.
Variable p : Event → bool.
(** What a data row weighs: 1 when [p] counts the rows, 0 when it
    ignores them. *)
Variable row_weight : nat.
Hypothesis p_row : ∀ r, (if p (DataAdd r) then 1 else 0)%nat = row_weight.
Hypothesis p_present : ∀ xp c u, p (Present xp c u) = false.
Hypothesis p_trigger_on : ∀ c l, p (TriggerOn c l) = false.
Hypothesis p_trigger_off : ∀ c l, p (TriggerOff c l) = false.
Hypothesis p_clock_wait : ∀ d, p (ClockWait d) = false.
Hypothesis p_data_save : p DataSave = false.

Lemma trigger_on_count c l w u w' :
  trigger_on c l w = (Ok u, w') →
  count_events p (trace w') = count_events p (trace w).
Proof.
  destruct c as [c|]; simpl; intros Ht; inv_Ok; [|done].
  apply (emit_count p) in Ht. rewrite p_trigger_on in Ht. lia.
Qed.

Lemma trigger_off_count c l w u w' :
  trigger_off c l w = (Ok u, w') →
  count_events p (trace w') = count_events p (trace w).
Proof.
  destruct c as [c|]; simpl; intros Ht; inv_Ok; [|done].
  apply (emit_count p) in Ht. rewrite p_trigger_off in Ht. lia.
Qed.

Lemma present_all_count xps nb ptime w t w' :
  present_all xps nb ptime w = (Ok t, w') →
  count_events p (trace w') = count_events p (trace w).
Proof.
  revert ptime w. induction xps as [|[i xp] xps IH]; intros ptime w Hp;
    simpl in Hp; inv_Ok; [done|].
  match goal with
  | Hx : present _ _ _ _ = _, Hr : present_all _ _ _ _ = _ |- _ =>
      apply (present_count p) in Hx; apply IH in Hr;
      rewrite p_present in Hx; lia
  end.
Qed.

(** The counts of the events met so far, as equations between traces. *)
Ltac count_steps :=
  repeat match goal with
  | H : emit _ _ = (Ok _, _) |- _ => apply (emit_count p) in H
  | H : time_ms _ = (Ok _, _) |- _ => apply (time_ms_count p) in H
  | H : present _ _ _ _ = (Ok _, _) |- _ => apply (present_count p) in H
  | H : keyboard_wait _ _ _ = (Ok _, _) |- _ =>
      apply (keyboard_wait_count p) in H
  | H : trigger_on _ _ _ = (Ok _, _) |- _ => apply trigger_on_count in H
  | H : trigger_off _ _ _ = (Ok _, _) |- _ => apply trigger_off_count in H
  | H : present_all _ _ _ _ = (Ok _, _) |- _ => apply present_all_count in H
  end;
  rewrite ?p_present, ?p_trigger_on, ?p_trigger_off, ?p_clock_wait,
    ?p_data_save, ?p_row in *.

Lemma run_stim_count exp_data session block block_idx trial trial_idx stim
    performance nb_expected_answers w flow w' :
  run_stim exp_data session block block_idx trial trial_idx stim performance
           nb_expected_answers w = (Ok flow, w') →
  count_events p (trace w')
  = (count_events p (trace w)
     + match flow with Continue _ => row_weight | Return => 0 end)%nat.
Proof.
  unfold run_stim. intros Hrun. inv_run; count_steps; lia.
Qed.
End RunnerCounts.

Lemma added_refl p w : added p w w 0.
Proof. unfold added. lia. Qed.

Lemma added_trans p w1 w2 w3 n m :
  added p w1 w2 n → added p w2 w3 m → added p w1 w3 (n + m).
Proof. unfold added. lia. Qed.

Lemma added_eq p w w' n m : n = m → added p w w' n → added p w w' m.
Proof. by intros ->. Qed.

Section LoopCounts.
Variable exp_data : ExpData.
Variable session : Session.

Lemma run_stim_added block block_idx trial trial_idx stim performance
    nb_expected_answers w flow w' p weight :
  row_counter p weight →
  run_stim exp_data session block block_idx trial trial_idx stim performance
           nb_expected_answers w = (Ok flow, w') →
  added p w w' (match flow with Continue _ => weight | Return => 0 end).
Proof.
  intros (Hrow & Hpresent & Hon & Hoff & Hclock & Hsave).
  by apply run_stim_count.
Qed.

Lemma trigger_on_added c l w u w' p weight :
  row_counter p weight → trigger_on c l w = (Ok u, w') → added p w w' 0.
Proof.
  intros (_ & _ & Hon & _) Ht. unfold added. rewrite Nat.add_0_r.
  by eapply trigger_on_count.
Qed.

Lemma trigger_off_added c l w u w' p weight :
  row_counter p weight → trigger_off c l w = (Ok u, w') → added p w w' 0.
Proof.
  intros (_ & _ & _ & Hoff & _) Ht. unfold added. rewrite Nat.add_0_r.
  by eapply trigger_off_count.
Qed.

(** The stimuli of a trial add one row each, up to the stimulus during
    which the run is aborted. *)
Lemma run_stimuli_added block block_idx trial trial_idx stims performance
    nb_expected_answers w flow w' :
  run_stimuli exp_data session block block_idx trial trial_idx stims
              performance nb_expected_answers w = (Ok flow, w') →
  ∃ k, match flow with
       | Continue _ => k = length stims
       | Return => (k < length stims)%nat
       end ∧
       ∀ p weight, row_counter p weight → added p w w' (weight * k).
Proof.
  revert performance nb_expected_answers w.
  induction stims as [|stim stims IH]; intros performance nb w Hrun;
    simpl in Hrun; inv_Ok.
  - exists 0%nat. split; [done|]. intros p weight _.
    rewrite Nat.mul_0_r. apply added_refl.
  - match goal with
    | Hs : run_stim _ _ _ _ _ _ _ _ _ _ = (Ok ?flow1, _) |- _ =>
        destruct flow1 as [[performance1 nb1]|]
    end.
    + match goal with
      | Hr : run_stimuli _ _ _ _ _ _ _ _ _ _ = _ |- _ =>
          apply IH in Hr as (k & Hk & Hadded)
      end.
      exists (S k). split; [destruct flow; simpl; lia|].
      intros p weight Hp.
      match goal with
      | Hs : run_stim _ _ _ _ _ _ _ _ _ _ = _ |- _ =>
          apply (run_stim_added _ _ _ _ _ _ _ _ _ _ p weight Hp) in Hs
      end.
      eapply added_eq; [|eapply added_trans; [eassumption|by apply Hadded]].
      lia.
    + inv_Ok. exists 0%nat. split; [simpl; lia|]. intros p weight Hp.
      match goal with
      | Hs : run_stim _ _ _ _ _ _ _ _ _ _ = _ |- _ =>
          apply (run_stim_added _ _ _ _ _ _ _ _ _ _ p weight Hp) in Hs
      end.
      by rewrite Nat.mul_0_r.
Qed.

Lemma run_trials_added block block_idx block_trials trial_idx performance
    nb_expected_answers w flow w' :
  run_trials exp_data session block block_idx block_trials trial_idx
             performance nb_expected_answers w = (Ok flow, w') →
  ∃ k, match flow with
       | Continue _ => k = length (flat_map stimuli block_trials)
       | Return => (k < length (flat_map stimuli block_trials))%nat
       end ∧
       ∀ p weight, row_counter p weight → added p w w' (weight * k).
Proof.
  revert trial_idx performance nb_expected_answers w.
  induction block_trials as [|trial block_trials IH];
    intros trial_idx performance nb w Hrun; simpl in Hrun; inv_Ok.
  - exists 0%nat. split; [done|]. intros p weight _.
    rewrite Nat.mul_0_r. apply added_refl.
  - match goal with
    | Hs : run_stimuli _ _ _ _ _ _ _ _ _ _ = (Ok ?flow1, _) |- _ =>
        apply run_stimuli_added in Hs as (k1 & Hk1 & Hadded1);
        destruct flow1 as [[performance1 nb1]|]
    end.
    + inv_Ok.
      match goal with
      | Hr : run_trials _ _ _ _ _ _ _ _ _ = _ |- _ =>
          apply IH in Hr as (k & Hk & Hadded)
      end.
      exists (k1 + k)%nat. cbn [flat_map]. rewrite length_app.
      split; [destruct flow; lia|].
      intros p weight Hp.
      repeat match goal with
      | Ht : trigger_on _ _ _ = _ |- _ =>
          apply (trigger_on_added _ _ _ _ _ p weight Hp) in Ht
      | Ht : trigger_off _ _ _ = _ |- _ =>
          apply (trigger_off_added _ _ _ _ _ p weight Hp) in Ht
      end.
      specialize (Hadded1 p weight Hp). specialize (Hadded p weight Hp).
      unfold added in *. lia.
    + inv_Ok. exists k1. cbn [flat_map]. rewrite length_app.
      split; [lia|].
      intros p weight Hp.
      repeat match goal with
      | Ht : trigger_on _ _ _ = _ |- _ =>
          apply (trigger_on_added _ _ _ _ _ p weight Hp) in Ht
      end.
      specialize (Hadded1 p weight Hp). unfold added in *. lia.
Qed.

Lemma run_block_added block_idx block trial_idx session_performance w flow
    w' :
  show_performance block = false →
  run_block exp_data session block_idx block trial_idx session_performance w
  = (Ok flow, w') →
  ∃ k, match flow with
       | Continue _ => k = length (flat_map stimuli (trials block))
       | Return => (k < length (flat_map stimuli (trials block)))%nat
       end ∧
       ∀ p weight, row_counter p weight → added p w w' (weight * k).
Proof.
  intros Hshow. unfold run_block. rewrite Hshow. intros Hrun. inv_Ok.
  match goal with
  | Hs : run_trials _ _ _ _ _ _ _ _ _ = (Ok ?flow1, _) |- _ =>
      apply run_trials_added in Hs as (k & Hk & Hadded);
      destruct flow1 as [[[trial_idx1 performance1] nb1]|]
  end.
  - subst k. inv_run; subst; (eexists; split; [reflexivity|]);
      intros p weight Hp;
      repeat match goal with
      | Ht : trigger_on _ _ _ = _ |- _ =>
          apply (trigger_on_added _ _ _ _ _ p weight Hp) in Ht
      | Ht : trigger_off _ _ _ = _ |- _ =>
          apply (trigger_off_added _ _ _ _ _ p weight Hp) in Ht
      end;
      specialize (Hadded p weight Hp); unfold added in *; lia.
  - inv_Ok. exists k. split; [done|]. intros p weight Hp.
    repeat match goal with
    | Ht : trigger_on _ _ _ = _ |- _ =>
        apply (trigger_on_added _ _ _ _ _ p weight Hp) in Ht
    end.
    specialize (Hadded p weight Hp). unfold added in *. lia.
Qed.

Lemma run_blocks_added session_blocks trial_idx session_performance w flow
    w' :
  Forall (λ b, show_performance b = false) session_blocks.*2 →
  run_blocks exp_data session session_blocks trial_idx session_performance w
  = (Ok flow, w') →
  ∃ k, match flow with
       | Continue _ =>
           k = length (flat_map (λ b, flat_map stimuli (trials b))
                                session_blocks.*2)
       | Return =>
           (k < length (flat_map (λ b, flat_map stimuli (trials b))
                                 session_blocks.*2))%nat
       end ∧
       ∀ p weight, row_counter p weight → added p w w' (weight * k).
Proof.
  revert trial_idx session_performance w.
  induction session_blocks as [|[block_idx block] session_blocks IH];
    intros trial_idx session_performance w Hshow Hrun; simpl in Hrun; inv_Ok.
  - exists 0%nat. split; [done|]. intros p weight _.
    rewrite Nat.mul_0_r. apply added_refl.
  - cbn [fmap list_fmap snd] in Hshow.
    apply Forall_cons in Hshow as [Hblock Hshow].
    match goal with
    | Hb : run_block _ _ _ _ _ _ _ = (Ok ?flow1, _) |- _ =>
        apply run_block_added in Hb as (k1 & Hk1 & Hadded1); [|done];
        destruct flow1 as [[trial_idx1 performance1]|]
    end.
    + match goal with
      | Hr : run_blocks _ _ _ _ _ _ = _ |- _ =>
          apply IH in Hr as (k & Hk & Hadded); [|done]
      end.
      exists (k1 + k)%nat. cbn [fmap list_fmap snd flat_map].
      rewrite length_app. split; [destruct flow; lia|].
      intros p weight Hp.
      specialize (Hadded1 p weight Hp). specialize (Hadded p weight Hp).
      unfold added in *. lia.
    + inv_Ok. exists k1. cbn [fmap list_fmap snd flat_map].
      rewrite length_app. split; [lia|].
      intros p weight Hp. by apply Hadded1.
Qed.
End LoopCounts.

Lemma count_events_all p es (b : bool) :
  (∀ e, In e es → p e = b) →
  count_events p es = if b then length es else 0%nat.
Proof.
  unfold count_events. induction es as [|e es IH]; intros Hall; simpl.
  - by destruct b.
  - rewrite (Hall e) by (by left).
    specialize (IH (λ e' He', Hall e' (or_intror He'))).
    destruct b; simpl; by rewrite IH.
Qed.

Lemma for_each_xp_stimuli_In f s e :
  In e (for_each_xp_stimuli f s) → ∃ xp, e = f xp.
Proof.
  unfold for_each_xp_stimuli. intros He.
  apply in_flat_map in He as (b & _ & He).
  apply in_flat_map in He as (t & _ & He).
  apply in_flat_map in He as (stim & _ & He).
  apply in_map_iff in He as (xp & <- & _). by exists xp.
Qed.

Lemma count_events_for_each p f s (b : bool) :
  (∀ xp, p (f xp) = b) →
  count_events p (for_each_xp_stimuli f s)
  = if b then length (for_each_xp_stimuli f s) else 0%nat.
Proof.
  intros Hf. apply count_events_all.
  intros e (xp & ->)%for_each_xp_stimuli_In. apply Hf.
Qed.

(** What a run of a session adds to the trace, whether it completes or
    is aborted after [k] stimuli. *)
Lemma run_session_added exp_data s label start_with_key show_prep_text w
    perf w' :
  Forall (λ b, show_performance b = false) (blocks s) →
  run_session exp_data (ItemSession s) label start_with_key show_prep_text w
  = (Ok perf, w') →
  ∃ (k : nat) (completed : bool),
    (if completed then k = length (session_stimuli s)
     else (k < length (session_stimuli s))%nat ∧ perf = None) ∧
    ∀ p weight, row_counter p weight →
      added p w w'
        (count_events p (for_each_xp_stimuli Preload s)
         + (if p ReinitTriggers then 1 else 0)
         + weight * k
         + if completed
           then (if p EventsSave then 1 else 0)
                + (if p ResetTriggers then 1 else 0)
                + count_events p (for_each_xp_stimuli Unload s)
           else 0).
Proof.
  intros Hshow Hrun. unfold run_session, reinit_triggers, reset_triggers in Hrun.
  assert (Hshow' : Forall (λ b, show_performance b = false)
                          (enumerate (blocks s)).*2)
    by (unfold enumerate; by rewrite enumerate_from_values).
  assert (Hn : length (flat_map (λ b, flat_map stimuli (trials b))
                                (enumerate (blocks s)).*2)
               = length (session_stimuli s))
    by (unfold enumerate, session_stimuli; by rewrite enumerate_from_values).
  inv_run;
    match goal with
    | Hb : run_blocks _ _ _ _ _ _ = (Ok ?flow, _) |- _ =>
        apply run_blocks_added in Hb as (k & Hk & Hadded); [|exact Hshow'];
        rewrite Hn in Hk; exists k;
        match flow with
        | Return => exists false
        | _ => exists true
        end
    end;
    (split; [done|]);
    intros p weight Hp; specialize (Hadded p weight Hp);
    pose proof Hp as (Hrow & Hpresent & Hon & Hoff & Hclock & Hsave);
    repeat match goal with
    | H : emit _ _ = (Ok _, _) |- _ => apply (emit_count p) in H
    | H : present _ _ _ _ = (Ok _, _) |- _ => apply (present_count p) in H
    | H : keyboard_wait _ _ _ = (Ok _, _) |- _ =>
        apply (keyboard_wait_count p) in H
    | H : emit_all _ _ = (Ok _, _) |- _ => apply (emit_all_count p) in H
    | H : trigger_on _ _ _ = (Ok _, _) |- _ =>
        apply (trigger_on_added _ _ _ _ _ p weight Hp) in H
    | H : trigger_off _ _ _ = (Ok _, _) |- _ =>
        apply (trigger_off_added _ _ _ _ _ p weight Hp) in H
    end;
    rewrite ?Hpresent, ?Hsave in *; unfold added in *; lia.
Qed.

(** X14: a run of a session whose blocks show no performance feedback
    either completes or is aborted.  A completed run adds one data row
    per stimulus of the session, saves the events once, resets the
    triggers once and unloads every stimulus.  An aborted run returns no
    performance, adds fewer data rows than the session has stimuli, and
    neither saves the events, resets the triggers nor unloads a
    stimulus. *)
Theorem run_session_completes_or_aborts (exp_data : ExpData) (s : Session)
    (label : string) (start_with_key show_prep_text : bool) (w w' : World)
    (perf : option float) :
  Forall (λ b, show_performance b = false) (blocks s) →
  run_session exp_data (ItemSession s) label start_with_key show_prep_text w
  = (Ok perf, w') →
  (added is_data_row w w' (length (session_stimuli s)) ∧
   added is_events_save w w' 1 ∧
   added is_reset_triggers w w' 1 ∧
   added is_unload w w' (length (for_each_xp_stimuli Unload s))) ∨
  (perf = None ∧
   (∃ k, (k < length (session_stimuli s))%nat ∧ added is_data_row w w' k) ∧
   added is_events_save w w' 0 ∧
   added is_reset_triggers w w' 0 ∧
   added is_unload w w' 0).
Proof.
  intros Hshow Hrun.
  destruct (run_session_added _ _ _ _ _ _ _ _ Hshow Hrun)
    as (k & completed & Hk & Hadded).
  assert (Hrows : row_counter is_data_row 1) by (by repeat split).
  assert (Hsave : row_counter is_events_save 0) by (by repeat split).
  assert (Hreset : row_counter is_reset_triggers 0) by (by repeat split).
  assert (Hunload : row_counter is_unload 0) by (by repeat split).
  pose proof (Hadded _ _ Hrows) as Hr.
  pose proof (Hadded _ _ Hsave) as Hs.
  pose proof (Hadded _ _ Hreset) as Ht.
  pose proof (Hadded _ _ Hunload) as Hu.
  clear Hadded.
  rewrite !(count_events_for_each is_data_row _ s false) in Hr by done.
  rewrite !(count_events_for_each is_events_save _ s false) in Hs by done.
  rewrite !(count_events_for_each is_reset_triggers _ s false) in Ht by done.
  rewrite (count_events_for_each is_unload Preload s false) in Hu by done.
  rewrite (count_events_for_each is_unload Unload s true) in Hu by done.
  cbn [is_data_row is_events_save is_reset_triggers is_unload] in *.
  destruct completed.
  - left. subst k. unfold added in *. repeat split; lia.
  - right. destruct Hk as [Hk ->]. split; [done|]. split.
    + exists k. split; [done|]. unfold added in *. lia.
    + unfold added in *. repeat split; lia.
Qed.

Lemma run_session_completes_or_aborts_witness :
  let s := Scenario.accuracy_session false in
  let w := Scenario.accuracy_world in
  let w' := (run_session Toy.exp_data (ItemSession s) "" false false w).2 in
  (added is_data_row w w' (length (session_stimuli s)) ∧
   added is_events_save w w' 1 ∧
   added is_reset_triggers w w' 1 ∧
   added is_unload w w' (length (for_each_xp_stimuli Unload s))) ∨
  (Some 3%float = None ∧
   (∃ k, (k < length (session_stimuli s))%nat ∧ added is_data_row w w' k) ∧
   added is_events_save w w' 0 ∧
   added is_reset_triggers w w' 0 ∧
   added is_unload w w' 0).
Proof.
  apply (run_session_completes_or_aborts Toy.exp_data
           (Scenario.accuracy_session false) "" false false
           Scenario.accuracy_world).
  - repeat constructor.
  - vm_compute. reflexivity.
Defined.

(** ** The abort exception is never raised *)

Lemma never_aborts_ret {A : Type} (a : A) : never_aborts (m_ret a).
Proof. intros w w'. unfold m_ret. discriminate. Qed.

Lemma never_aborts_lift {A : Type} (r : Res A) :
  r ≠ Raise AbortBlockException → never_aborts (m_lift r).
Proof. intros Hr w w'. unfold m_lift. congruence. Qed.

Lemma never_aborts_bind {A B : Type} (m : Run A) (k : A → Run B) :
  never_aborts m → (∀ a, never_aborts (k a)) → never_aborts (m_bind m k).
Proof.
  intros Hm Hk w w'. unfold m_bind.
  destruct (m w) as [[a|e] w1] eqn:Hmw.
  - apply Hk.
  - intros [= -> ->]. by apply (Hm w w').
Qed.

Lemma dict_get_never_aborts {K V : Type} `{EqDecision K} (d : list (K * V)) k :
  dict_get d k ≠ Raise AbortBlockException.
Proof.
  induction d as [|[k' v] d IH]; simpl; [discriminate|].
  by destruct (decide (k' = k)).
Qed.

Lemma tr_never_aborts word lang : tr word lang ≠ Raise AbortBlockException.
Proof.
  unfold tr. repeat case_decide; try discriminate.
  apply dict_get_never_aborts.
Qed.

Lemma never_aborts_emit e : never_aborts (emit e).
Proof. intros w w'. unfold emit. discriminate. Qed.

Lemma never_aborts_time_ms : never_aborts time_ms.
Proof. intros w w'. unfold time_ms. destruct (clock w); discriminate. Qed.

Lemma never_aborts_present xp c u : never_aborts (present xp c u).
Proof. intros w w'. unfold present. discriminate. Qed.

Lemma never_aborts_keyboard_wait keys d : never_aborts (keyboard_wait keys d).
Proof.
  intros w w'. unfold keyboard_wait.
  destruct (inputs w) as [|[[key rt]|] later]; destruct d as [d|];
    repeat case_match; discriminate.
Qed.

Lemma never_aborts_trigger_on c l : never_aborts (trigger_on c l).
Proof.
  destruct c; simpl; [apply never_aborts_emit|apply never_aborts_ret].
Qed.

Lemma never_aborts_trigger_off c l : never_aborts (trigger_off c l).
Proof.
  destruct c; simpl; [apply never_aborts_emit|apply never_aborts_ret].
Qed.

Ltac never_aborts_step :=
  match goal with
  | |- never_aborts (m_ret _) => apply never_aborts_ret
  | |- never_aborts (m_lift _) => apply never_aborts_lift
  | |- never_aborts (m_bind _ _) => apply never_aborts_bind
  | |- never_aborts (emit _) => apply never_aborts_emit
  | |- never_aborts time_ms => apply never_aborts_time_ms
  | |- never_aborts (present _ _ _) => apply never_aborts_present
  | |- never_aborts (keyboard_wait _ _) => apply never_aborts_keyboard_wait
  | |- never_aborts (trigger_on _ _) => apply never_aborts_trigger_on
  | |- never_aborts (trigger_off _ _) => apply never_aborts_trigger_off
  | |- never_aborts (match ?x with _ => _ end) => destruct x
  | |- never_aborts (if ?b then _ else _) => destruct b
  | |- ∀ _, _ => intros ?
  | |- tr _ _ ≠ _ => apply tr_never_aborts
  | |- dict_get _ _ ≠ _ => apply dict_get_never_aborts
  | |- Raise _ ≠ Raise _ => discriminate
  | |- Ok _ ≠ Raise _ => discriminate
  end.

Lemma never_aborts_present_all xps nb ptime :
  never_aborts (present_all xps nb ptime).
Proof.
  revert ptime. induction xps as [|[i xp] xps IH]; intros ptime; simpl;
    repeat never_aborts_step. apply IH.
Qed.

Lemma never_aborts_emit_all es : never_aborts (emit_all es).
Proof.
  induction es as [|e es IH]; simpl; repeat never_aborts_step. apply IH.
Qed.

Section NeverAborts.
Variable exp_data : ExpData.
Variable session : Session.

Lemma never_aborts_run_stim block block_idx trial trial_idx stim performance
    nb_expected_answers :
  never_aborts (run_stim exp_data session block block_idx trial trial_idx
                         stim performance nb_expected_answers).
Proof.
  unfold run_stim.
  repeat first [never_aborts_step | apply never_aborts_present_all].
Qed.

Lemma never_aborts_run_stimuli block block_idx trial trial_idx stims
    performance nb_expected_answers :
  never_aborts (run_stimuli exp_data session block block_idx trial trial_idx
                            stims performance nb_expected_answers).
Proof.
  revert performance nb_expected_answers.
  induction stims as [|stim stims IH]; intros performance nb; simpl;
    repeat first [never_aborts_step | apply never_aborts_run_stim | apply IH].
Qed.

Lemma never_aborts_run_trials block block_idx block_trials trial_idx
    performance nb_expected_answers :
  never_aborts (run_trials exp_data session block block_idx block_trials
                           trial_idx performance nb_expected_answers).
Proof.
  revert trial_idx performance nb_expected_answers.
  induction block_trials as [|trial block_trials IH];
    intros trial_idx performance nb; simpl;
    repeat first [never_aborts_step | apply never_aborts_run_stimuli
                 | apply IH].
Qed.

Lemma never_aborts_run_block block_idx block trial_idx session_performance :
  never_aborts (run_block exp_data session block_idx block trial_idx
                          session_performance).
Proof.
  unfold run_block.
  repeat first [never_aborts_step | apply never_aborts_run_trials].
Qed.

Lemma never_aborts_run_blocks session_blocks trial_idx session_performance :
  never_aborts (run_blocks exp_data session session_blocks trial_idx
                           session_performance).
Proof.
  revert trial_idx session_performance.
  induction session_blocks as [|[block_idx block] session_blocks IH];
    intros trial_idx session_performance; simpl;
    repeat first [never_aborts_step | apply never_aborts_run_block | apply IH].
Qed.
End NeverAborts.

Lemma never_aborts_run_session exp_data item label start_with_key
    show_prep_text :
  (∀ f, item ≠ ItemCallable f) →
  never_aborts (run_session exp_data item label start_with_key show_prep_text).
Proof.
  intros Hitem. unfold run_session, reinit_triggers, reset_triggers.
  destruct item as [s|pic|f]; [| |by destruct (Hitem f)];
    repeat first [never_aborts_step | apply never_aborts_emit_all
                 | apply never_aborts_run_blocks].
Qed.

(** X15: [run_session] never raises [AbortBlockException] on a session or
    on a picture: whatever the participant does, the handler of that
    exception in [run_sessions] is not entered, and a run aborted with
    the backspace key comes back as a normal return. *)
Theorem run_session_never_raises_abort (exp_data : ExpData)
    (label : string) (start_with_key show_prep_text : bool) (w w' : World) :
  (∀ s, run_session exp_data (ItemSession s) label start_with_key
                    show_prep_text w
        ≠ (Raise AbortBlockException, w')) ∧
  (∀ picture, run_session exp_data (ItemPicture picture) label start_with_key
                          show_prep_text w
              ≠ (Raise AbortBlockException, w')).
Proof.
  split; intros item; by apply never_aborts_run_session.
Qed.

(** ** The repetition loop *)

Lemma performances_get_append performances key perf :
  performances_get (performances_append performances key perf) key
  = performances_get performances key ++ [perf].
Proof.
  unfold performances_get.
  induction performances as [|[k perfs] performances IH]; simpl.
  - by rewrite decide_True.
  - destruct (decide (k = key)) as [->|Hk]; simpl.
    + by rewrite decide_True.
    + by rewrite decide_False.
Qed.

Lemma performances_get_append_ne performances key key' perf :
  key' ≠ key →
  performances_get (performances_append performances key perf) key'
  = performances_get performances key'.
Proof.
  intros Hne. unfold performances_get.
  induction performances as [|[k perfs] performances IH]; simpl.
  - by rewrite decide_False.
  - destruct (decide (k = key)) as [->|Hk]; simpl.
    + by rewrite !decide_False.
    + destruct (decide (k = key')); [done|]. apply IH.
Qed.

Lemma repeat_session_runs steps exp_data session_prefix isession s perf_min
    repeat_max i_repetition perf performances w performances' exp_data'
    i_repetition' w' :
  repeat_session steps exp_data session_prefix isession (ItemSession s)
                 perf_min repeat_max i_repetition perf performances w
  = (Ok (performances', exp_data', i_repetition'), w') →
  ∃ runs : list (option float),
    i_repetition' = i_repetition + len runs ∧
    SESSION_IDX exp_data' = SESSION_IDX exp_data + len runs ∧
    performances_get performances' (session_prefix +:+ session_label s)
    = performances_get performances (session_prefix +:+ session_label s)
      ++ runs ∧
    (∀ key, key ≠ session_prefix +:+ session_label s →
            performances_get performances' key
            = performances_get performances key) ∧
    (runs ≠ [] → i_repetition' ≤ repeat_max) ∧
    (perf_below (default perf (last runs)) perf_min = false
     ∨ repeat_max ≤ i_repetition').
Proof.
  revert exp_data i_repetition perf performances w.
  induction steps as [|steps IH];
    intros exp_data i_repetition perf performances w Hloop;
    cbn [repeat_session] in Hloop;
    (destruct (perf_below perf perf_min && (i_repetition <? repeat_max))
       eqn:Hcond;
     [|apply m_ret_Ok in Hloop as [Heq ->]; injection Heq as -> -> ->;
       exists []; unfold len; cbn [length last default];
       rewrite !Z.add_0_r, app_nil_r;
       repeat split; try done;
       apply andb_false_iff in Hcond as [Hcond|Hcond%Z.ltb_ge];
       [by left|by right]]).
  - discriminate Hloop.
  - apply andb_true_iff in Hcond as [Hperf Hlt%Z.ltb_lt].
    destruct (run_session exp_data
                (if 0 <? i_repetition
                 then randomize_session (ItemSession s) else ItemSession s)
                "" ((isession =? 0) && (i_repetition =? 0)) false w)
      as [[perf1|e] w1] eqn:Hrun.
    + assert (Hitem : (if 0 <? i_repetition
                       then randomize_session (ItemSession s)
                       else ItemSession s) = ItemSession s)
        by (by destruct (0 <? i_repetition)).
      rewrite Hitem in Hloop.
      apply IH in Hloop
        as (runs & -> & Hidx & Hget & Hother & Hmax & Hexit).
      exists (perf1 :: runs). unfold len in *. cbn [length].
      split; [lia|]. split; [cbn [increase_session_idx SESSION_IDX] in Hidx; lia|].
      split; [by rewrite Hget, performances_get_append, <- app_assoc|].
      split; [intros key Hkey; rewrite Hother by done;
              by apply performances_get_append_ne|].
      split.
      * intros _. destruct runs as [|perf2 runs]; [cbn [length]; lia|].
        by apply Hmax.
      * rewrite last_cons. destruct (last runs); exact Hexit.
    + destruct e; try discriminate Hloop.
      exfalso. revert Hrun. apply never_aborts_run_session.
      intros f. by destruct (0 <? i_repetition).
Qed.

(** X16: the repetition loop of [run_sessions] on a session.  When it
    ends, the session has been run a number of times, one after the
    other: every run, completed or aborted, counts as a repetition,
    advances the session index by one and appends its performance to the
    list recorded under the prefixed session label, the other lists
    being untouched.  The loop never runs the session beyond
    [repeat_max] repetitions, and it stops only when the last performance
    reaches [perf_min] or the repetitions are used up. *)
Theorem repeat_session_accounting (steps : nat) (exp_data : ExpData)
    (session_prefix : string) (isession : Z) (s : Session) (perf_min : Num)
    (repeat_max i_repetition : Z) (perf : option float)
    (performances : Performances) (w : World) (performances' : Performances)
    (exp_data' : ExpData) (i_repetition' : Z) (w' : World) :
  repeat_session steps exp_data session_prefix isession (ItemSession s)
                 perf_min repeat_max i_repetition perf performances w
  = (Ok (performances', exp_data', i_repetition'), w') →
  ∃ runs : list (option float),
    i_repetition' = i_repetition + len runs ∧
    SESSION_IDX exp_data' = SESSION_IDX exp_data + len runs ∧
    performances_get performances' (session_prefix +:+ session_label s)
    = performances_get performances (session_prefix +:+ session_label s)
      ++ runs ∧
    (∀ key, key ≠ session_prefix +:+ session_label s →
            performances_get performances' key
            = performances_get performances key) ∧
    (runs ≠ [] → i_repetition' ≤ repeat_max) ∧
    (perf_below (default perf (last runs)) perf_min = false
     ∨ repeat_max ≤ i_repetition').
Proof. apply repeat_session_runs. Qed.

Lemma repeat_session_accounting_witness :
  let s := Scenario.abort_session Toy.exp_data in
  ∃ performances' exp_data' i_repetition' (runs : list (option float)),
    i_repetition' = 0 + len runs ∧
    SESSION_IDX exp_data' = SESSION_IDX Toy.exp_data + len runs ∧
    performances_get performances' ("test_" +:+ session_label s)
    = performances_get [] ("test_" +:+ session_label s) ++ runs ∧
    (∀ key, key ≠ "test_" +:+ session_label s →
            performances_get performances' key = performances_get [] key) ∧
    (runs ≠ [] → i_repetition' ≤ 2) ∧
    (perf_below (default None (last runs)) (NInt 1) = false
     ∨ 2 ≤ i_repetition').
Proof.
  intros s.
  destruct (repeat_session 2 Toy.exp_data "test_" 0 (ItemSession s) (NInt 1) 2
                           0 None [] Scenario.abort_world)
    as [[[[performances' exp_data'] i_repetition']|e] w'] eqn:Hrun;
    [|vm_compute in Hrun; discriminate].
  exists performances', exp_data', i_repetition'.
  exact (repeat_session_accounting _ _ _ _ _ _ _ _ _ _ _ _ _ _ _ Hrun).
Defined.

(** ** The event-related session is always generated *)

Lemma next_tables_runnable (surface_size : XpStim → Z * Z) (exp : ExpData) :
  language exp = "e" ∨ language exp = "f" →
  ∃ sw ctrl inhib by_ctrl by_inhib by_sw,
    Strooper.gen_switch_trials surface_size exp false = Ok sw ∧
    Strooper.gen_naming_trials surface_size exp None None false = Ok ctrl ∧
    Strooper.gen_inhib_trials surface_size exp None false false = Ok inhib ∧
    Strooper.next_trials_by_answer ctrl = Ok by_ctrl ∧
    Strooper.next_trials_by_answer inhib = Ok by_inhib ∧
    Strooper.next_trials_by_answer sw = Ok by_sw ∧
    offers_runnableb by_ctrl = true ∧
    offers_runnableb by_inhib = true ∧
    offers_runnableb by_sw = true.
Proof.
  intros Hlang.
  destruct exp as [lang pin idx test cross text pad lw fc]. simpl in Hlang.
  destruct Hlang as [-> | ->];
    do 6 eexists;
    (split; [vm_compute; reflexivity|]);
    (split; [vm_compute; reflexivity|]);
    (split; [vm_compute; reflexivity|]);
    (split; [vm_compute; reflexivity|]);
    (split; [vm_compute; reflexivity|]);
    (split; [vm_compute; reflexivity|]);
    (split; [vm_compute; reflexivity|]);
    (split; [vm_compute; reflexivity|]);
    vm_compute; reflexivity.
Qed.

Lemma runnable_trialb_true t :
  runnable_trialb t = true →
  ∃ stim0 d a,
    py_getitem (stimuli t) 0 = Ok stim0 ∧ duration_ms stim0 = Some d ∧
    expected_answer stim0 = Some a ∧ In (Some a) previous_answers.
Proof.
  unfold runnable_trialb.
  destruct (stimuli t) as [|stim0 stims] eqn:Hstimuli; [discriminate|].
  destruct (duration_ms stim0) as [d|] eqn:Hd; [|discriminate].
  destruct (expected_answer stim0) as [a|] eqn:Ha; [|discriminate].
  intros Hin%bool_decide_eq_true. exists stim0, d, a.
  repeat split; try done.
  right. apply in_map. by apply list_elem_of_In.
Qed.

Lemma offers_runnableb_true by_answer prev :
  offers_runnableb by_answer = true → In prev previous_answers →
  ∃ candidates,
    dict_get by_answer prev = Ok candidates ∧ candidates ≠ [] ∧
    Forall (λ t, runnable_trialb t = true) candidates.
Proof.
  unfold offers_runnableb. rewrite forallb_forall. intros Hall Hprev.
  specialize (Hall prev Hprev).
  destruct (dict_get by_answer prev) as [[|t ts]|e]; try discriminate.
  exists (t :: ts). split; [done|]. split; [done|].
  rewrite forallb_forall in Hall. apply Forall_forall.
  intros t' Ht'. apply Hall. by apply list_elem_of_In.
Qed.

Section EventRelatedTotal.
Context {G : Type} `{Generator G}.
Context {Gl : Type} `{LegacyRandom Gl}.
Variable surface_size : XpStim → Z * Z.

Lemma stroop_session_loop_total exp by_ctrl by_inhib by_sw pairs trials prev
    (rng : G) (s : Gl) :
  offers_runnableb by_ctrl = true → offers_runnableb by_inhib = true →
  offers_runnableb by_sw = true →
  Forall (λ p, 0 ≤ p.1 ≤ 2) pairs → In prev previous_answers →
  ∃ trials' rng' s',
    Strooper.stroop_session_loop exp
      [ ("naming", [("control", by_ctrl); ("inhibition", by_inhib)]);
        ("reading", [("inhibition", by_sw)]) ]
      pairs trials prev rng s
    = (Ok (trials', rng'), s').
Proof.
  intros Hctrl Hinhib Hsw Hpairs. revert trials prev rng s.
  induction Hpairs as [|[symbol isi] pairs Hsymbol _ IH];
    intros trials prev rng s Hprev.
  - simpl. unfold m_ret. eauto.
  - cbn [fst] in Hsymbol.
    assert (Hby : ∃ task stim_type by_answer,
              py_getitem TRIALS_SPEC symbol = Ok (task, stim_type) ∧
              (∀ prev',
                 (let* by_type :=
                    dict_get
                      [ ("naming", [("control", by_ctrl);
                                    ("inhibition", by_inhib)]);
                        ("reading", [("inhibition", by_sw)]) ] task in
                  let* by_answer := dict_get by_type stim_type in
                  dict_get by_answer prev')
                 = dict_get by_answer prev') ∧
              offers_runnableb by_answer = true).
    { assert (symbol = 0 ∨ symbol = 1 ∨ symbol = 2) as [->|[->| ->]] by lia.
      - by exists "naming", "control", by_ctrl.
      - by exists "naming", "inhibition", by_inhib.
      - by exists "reading", "inhibition", by_sw. }
    destruct Hby as (task & stim_type & by_answer & Hspec & Hget & Hoffers).
    destruct (offers_runnableb_true by_answer prev Hoffers Hprev)
      as (candidates & Hcands & Hne & Hrunnable).
    destruct (choice_total candidates 1 rng s Hne)
      as (picked & rng1 & s1 & Hpicked & Hlen & _); [done|].
    pose proof (choice_Ok _ _ _ _ _ _ _ _ Hpicked) as [_ Hin].
    destruct picked as [|chosen [|? ?]];
      try (unfold len in Hlen; cbn [length] in Hlen; lia).
    apply Forall_cons in Hin as [Hchosen _].
    rewrite Forall_forall in Hrunnable.
    destruct (runnable_trialb_true chosen (Hrunnable _ Hchosen))
      as (stim0 & d & a & Hstim0 & Hd & Ha & Hallowed).
    destruct (IH (trials ++ [chosen; Strooper.rest_trial exp (NFloat isi)])
                 (Some a) rng1 s1 Hallowed)
      as (trials' & rng' & s' & Hloop).
    exists trials', rng', s'.
    cbn [Strooper.stroop_session_loop]. unfold m_bind, m_lift.
    rewrite Hspec, Hget, Hcands, Hpicked.
    change (py_getitem [chosen] 0) with (Ok chosen). cbv beta iota.
    rewrite Hstim0. cbv beta iota. rewrite Hd. cbv beta iota.
    rewrite Ha. exact Hloop.
Qed.

Lemma generate_stroop_session_total exp stim_seq isis_ms (rng : G) (s : Gl) :
  language exp = "e" ∨ language exp = "f" →
  Forall (λ symbol, 0 ≤ symbol ≤ 2) stim_seq →
  ∃ session rng' s',
    Strooper.generate_stroop_session surface_size exp stim_seq isis_ms rng s
    = (Ok (session, rng'), s').
Proof.
  intros Hlang Hsymbols.
  destruct (next_tables_runnable surface_size exp Hlang)
    as (sw & ctrl & inhib & by_ctrl & by_inhib & by_sw & Hsw & Hctrl & Hinhib
        & Hby_ctrl & Hby_inhib & Hby_sw & Hoc & Hoi & Hos).
  destruct (stroop_session_loop_total exp by_ctrl by_inhib by_sw
              (zip stim_seq isis_ms) [] None rng s Hoc Hoi Hos)
    as (trials' & rng' & s' & Hloop).
  { clear -Hsymbols. revert isis_ms.
    induction Hsymbols as [|symbol stim_seq Hsymbol _ IH];
      intros [|isi isis_ms]; cbn [zip zip_with]; try apply Forall_nil_2.
    apply Forall_cons_2; [done|apply IH]. }
  { by left. }
  unfold Strooper.generate_stroop_session, m_bind, m_lift, m_ret.
  rewrite Hsw, Hctrl, Hinhib, Hby_ctrl, Hby_inhib, Hby_sw, Hloop. eauto.
Qed.

Lemma gen_main_session_event_related_total exp session_label (rng : G)
    (s : Gl) :
  language exp = "e" ∨ language exp = "f" →
  ∃ session s' stim_seq isis_ms rng1 rng2 rng3,
    gen_random_stroop_seq Strooper.ER_NB_CONTROL Strooper.ER_NB_INHIB
                          Strooper.ER_NB_SWITCHING rng
    = Ok (stim_seq, rng1) ∧
    length isis_ms = 125%nat ∧
    Strooper.generate_stroop_session surface_size exp stim_seq isis_ms rng2 s
    = (Ok (session, rng3), s') ∧
    Strooper.gen_main_session_event_related surface_size exp session_label
                                            rng s
    = (Ok session, s').
Proof.
  intros Hlang.
  destruct (gen_random_stroop_seq_total Strooper.ER_NB_CONTROL
              Strooper.ER_NB_INHIB Strooper.ER_NB_SWITCHING rng)
    as (stim_seq & rng1 & Hseq); [done|done|].
  pose proof (gen_random_stroop_seq_symbols _ _ _ _ _ _ Hseq) as Hsymbols.
  destruct (rng_exponential
              (float_of_Z (Strooper.ER_ISI_MEAN_MS - Strooper.ER_ISI_MIN_MS))
              (Strooper.ER_NB_SWITCHING + Strooper.ER_NB_INHIB
               + Strooper.ER_NB_CONTROL) rng1)
    as [[draws rng2]|e] eqn:Hdraws; [|discriminate Hdraws].
  assert (Hlen : length draws = 125%nat).
  { unfold rng_exponential in Hdraws.
    destruct (_ <? 0) in Hdraws; [discriminate Hdraws|].
    injection Hdraws as Hdraws.
    match type of Hdraws with
    | draw_exponential ?scale ?n ?g = _ =>
        pose proof (draw_exponential_length scale n g) as Hl
    end.
    rewrite Hdraws in Hl. exact Hl. }
  destruct (generate_stroop_session_total exp stim_seq
              (map (λ d, d + float_of_Z Strooper.ER_ISI_MIN_MS)%float draws)
              rng2 s Hlang)
    as (session & rng3 & s' & Hsession).
  { eapply Forall_impl; [exact Hsymbols|]. cbn beta.
    unfold TRIAL_NX, TRIAL_NI, TRIAL_RI. intros t Ht. lia. }
  exists session, s', stim_seq,
    (map (λ d, d + float_of_Z Strooper.ER_ISI_MIN_MS)%float draws),
    rng1, rng2, rng3.
  split; [exact Hseq|]. split; [by rewrite length_map|].
  split; [exact Hsession|].
  unfold Strooper.gen_main_session_event_related, m_bind, m_lift, m_ret.
  rewrite Hseq, Hdraws, Hsession. reflexivity.
Qed.
End EventRelatedTotal.

Lemma length_alternating {A B : Type} (f : A → B → list A) (ts : list A)
    (ys : list B) :
  (∀ t y, length (f t y) = 2%nat) →
  length (mjoin (zip_with f ts ys))
  = (2 * Nat.min (length ts) (length ys))%nat.
Proof.
  intros Hf. revert ys. induction ts as [|t ts IH]; intros [|y ys];
    cbn [zip_with mjoin list_join length Nat.min]; try lia.
  rewrite length_app, Hf, IH. lia.
Qed.

(** X17: under the two supported languages the event-related main
    session is always generated, for every generator.  Its symbol
    sequence has 25 naming-control, 75 naming-inhibition and 25 switching
    symbols, every switching symbol following a naming-inhibition one;
    its main block has 250 trials, the 125 trials chosen after the
    symbols alternating with 125 rest trials that last the 125 drawn
    intervals. *)
Theorem gen_main_session_event_related_generated {G : Type} `{Generator G}
    {Gl : Type} `{LegacyRandom Gl} (surface_size : XpStim → Z * Z)
    (exp : ExpData) (session_label : string) (rng : G) (np_state : Gl) :
  language exp = "e" ∨ language exp = "f" →
  ∃ session np_state' stim_seq isis_ms naming inhib switch chosen,
    Strooper.gen_main_session_event_related surface_size exp session_label
                                            rng np_state
    = (Ok session, np_state') ∧
    len (filter (λ t, t = TRIAL_NX) stim_seq) = 25 ∧
    len (filter (λ t, t = TRIAL_NI) stim_seq) = 75 ∧
    len (filter (λ t, t = TRIAL_RI) stim_seq) = 25 ∧
    switching_follows_inhibition stim_seq ∧
    length isis_ms = 125%nat ∧
    length chosen = 125%nat ∧
    Strooper.gen_naming_trials surface_size exp None None false = Ok naming ∧
    Strooper.gen_inhib_trials surface_size exp None false false = Ok inhib ∧
    Strooper.gen_switch_trials surface_size exp false = Ok switch ∧
    Forall2 (λ t symbol,
               (symbol = TRIAL_NX → t ∈ naming) ∧
               (symbol = TRIAL_NI → t ∈ inhib) ∧
               (symbol = TRIAL_RI → t ∈ switch))
            chosen stim_seq ∧
    blocks session
    = [ mkBlock "rest" None
          [Strooper.rest_trial exp (NInt Strooper.BASELINE_PRE_DURATION)] false;
        mkBlock "Block_Stroop_ER" None
          (mjoin (zip_with (λ t isi, [t; Strooper.rest_trial exp (NFloat isi)])
                           chosen isis_ms)) false;
        mkBlock "rest" None
          [Strooper.rest_trial exp (NInt Strooper.BASELINE_POST_DURATION)]
          false ] ∧
    length (mjoin (zip_with
                     (λ t isi, [t; Strooper.rest_trial exp (NFloat isi)])
                     chosen isis_ms)) = 250%nat.
Proof.
  intros Hlang.
  destruct (gen_main_session_event_related_total surface_size exp
              session_label rng np_state Hlang)
    as (session & np_state' & stim_seq & isis_ms & rng1 & rng2 & rng3 & Hseq
        & Hisis & Hsession & Hmain).
  pose proof (gen_random_stroop_seq_counts _ _ _ _ _ _ Hseq)
    as (Hnx & Hni & Hri).
  pose proof (gen_random_stroop_seq_Ok _ _ _ _ _ _ Hseq) as Hfollows.
  pose proof (gen_random_stroop_seq_symbols _ _ _ _ _ _ Hseq) as Hsymbols.
  assert (Hlen : length stim_seq = 125%nat).
  { unfold len in Hnx, Hni, Hri.
    change Strooper.ER_NB_CONTROL with 25 in Hnx.
    change Strooper.ER_NB_INHIB with 75 in Hni.
    change Strooper.ER_NB_SWITCHING with 25 in Hri.
    assert (Hsum : length stim_seq
                   = (length (filter (λ t, t = TRIAL_NX) stim_seq)
                      + length (filter (λ t, t = TRIAL_NI) stim_seq)
                      + length (filter (λ t, t = TRIAL_RI) stim_seq))%nat).
    { clear -Hsymbols. induction Hsymbols as [|t l Ht _ IH]; [done|].
      rewrite !filter_cons. cbn [length].
      destruct Ht as [Ht|[Ht|Ht]]; subst t; repeat case_decide;
        try discriminate; cbn [length]; lia. }
    lia. }
  destruct (generate_stroop_session_layout surface_size _ _ _ _ _ _ _ _
              Hsession)
    as (naming & inhib & switch & chosen & Hnaming & Hinhib & Hswitch
        & Hblocks & Hchosen & Hkinds).
  rewrite Hlen, Hisis in Hchosen. cbn [Nat.min] in Hchosen.
  rewrite Hchosen, <- Hlen, firstn_all in Hkinds.
  exists session, np_state', stim_seq, isis_ms, naming, inhib, switch, chosen.
  repeat (split; [assumption|]).
  rewrite (length_alternating
             (λ t isi, [t; Strooper.rest_trial exp (NFloat isi)])
             chosen isis_ms) by done.
  by rewrite Hchosen, Hisis.
Qed.

Lemma gen_main_session_event_related_generated_witness :
  ∃ session np_state' stim_seq isis_ms naming inhib switch chosen,
    Strooper.gen_main_session_event_related Toy.surface_size Toy.exp_data
                                            "main_ER" (7 : Z) (Toy.Global 1)
    = (Ok session, np_state') ∧
    len (filter (λ t, t = TRIAL_NX) stim_seq) = 25 ∧
    len (filter (λ t, t = TRIAL_NI) stim_seq) = 75 ∧
    len (filter (λ t, t = TRIAL_RI) stim_seq) = 25 ∧
    switching_follows_inhibition stim_seq ∧
    length isis_ms = 125%nat ∧
    length chosen = 125%nat ∧
    Strooper.gen_naming_trials Toy.surface_size Toy.exp_data None None false
    = Ok naming ∧
    Strooper.gen_inhib_trials Toy.surface_size Toy.exp_data None false false
    = Ok inhib ∧
    Strooper.gen_switch_trials Toy.surface_size Toy.exp_data false
    = Ok switch ∧
    Forall2 (λ t symbol,
               (symbol = TRIAL_NX → t ∈ naming) ∧
               (symbol = TRIAL_NI → t ∈ inhib) ∧
               (symbol = TRIAL_RI → t ∈ switch))
            chosen stim_seq ∧
    blocks session
    = [ mkBlock "rest" None
          [Strooper.rest_trial Toy.exp_data
             (NInt Strooper.BASELINE_PRE_DURATION)] false;
        mkBlock "Block_Stroop_ER" None
          (mjoin (zip_with
                    (λ t isi, [t; Strooper.rest_trial Toy.exp_data (NFloat isi)])
                    chosen isis_ms)) false;
        mkBlock "rest" None
          [Strooper.rest_trial Toy.exp_data
             (NInt Strooper.BASELINE_POST_DURATION)] false ] ∧
    length (mjoin (zip_with
                     (λ t isi, [t; Strooper.rest_trial Toy.exp_data
                                     (NFloat isi)])
                     chosen isis_ms)) = 250%nat.
Proof.
  apply (gen_main_session_event_related_generated Toy.surface_size
           Toy.exp_data "main_ER" (7 : Z) (Toy.Global 1)).
  left. reflexivity.
Defined.

(** ** The whole catalog *)

Lemma get_all_possible_trials_Ok (surface_size : XpStim → Z * Z)
    (exp : ExpData) :
  language exp = "e" ∨ language exp = "f" →
  ∃ naming inhib switch,
    Strooper.gen_naming_trials surface_size exp None None true = Ok naming ∧
    Strooper.gen_inhib_trials surface_size exp None false true = Ok inhib ∧
    Strooper.gen_switch_trials surface_size exp true = Ok switch ∧
    Strooper.get_all_possible_trials surface_size exp
    = Ok ([mkTrial "Trial_rest" NO_TRIGGER [rest_stim (NInt 0) exp "+"]]
          ++ naming ++ inhib ++ switch) ∧
    length ([mkTrial "Trial_rest" NO_TRIGGER [rest_stim (NInt 0) exp "+"]]
            ++ naming ++ inhib ++ switch) = 29%nat ∧
    NoDup (trial_label
             <$> [mkTrial "Trial_rest" NO_TRIGGER [rest_stim (NInt 0) exp "+"]]
                 ++ naming ++ inhib ++ switch).
Proof.
  intros Hlang.
  destruct exp as [lang pin idx test cross text pad lw fc]. simpl in Hlang.
  destruct Hlang as [-> | ->];
    do 3 eexists;
    (split; [vm_compute; reflexivity|]);
    (split; [vm_compute; reflexivity|]);
    (split; [vm_compute; reflexivity|]);
    (split; [vm_compute; reflexivity|]);
    (split; [vm_compute; reflexivity|]);
    apply (bool_decide_unpack _); vm_compute; exact I.
Qed.

(** X18: under the two supported languages [get_all_possible_trials]
    returns 29 trials: the rest trial of duration 0, then the naming
    trials, the reading-inhibition trials and the switching trials, all
    with their cue; the labels of the 29 trials are pairwise distinct. *)
Theorem get_all_possible_trials_catalog (surface_size : XpStim → Z * Z)
    (exp : ExpData) :
  language exp = "e" ∨ language exp = "f" →
  ∃ naming inhib switch,
    Strooper.gen_naming_trials surface_size exp None None true = Ok naming ∧
    Strooper.gen_inhib_trials surface_size exp None false true = Ok inhib ∧
    Strooper.gen_switch_trials surface_size exp true = Ok switch ∧
    Strooper.get_all_possible_trials surface_size exp
    = Ok ([mkTrial "Trial_rest" NO_TRIGGER [rest_stim (NInt 0) exp "+"]]
          ++ naming ++ inhib ++ switch) ∧
    length ([mkTrial "Trial_rest" NO_TRIGGER [rest_stim (NInt 0) exp "+"]]
            ++ naming ++ inhib ++ switch) = 29%nat ∧
    NoDup (trial_label
             <$> [mkTrial "Trial_rest" NO_TRIGGER [rest_stim (NInt 0) exp "+"]]
                 ++ naming ++ inhib ++ switch).
Proof. apply get_all_possible_trials_Ok. Qed.

Lemma get_all_possible_trials_catalog_witness :
  ∃ naming inhib switch,
    Strooper.gen_naming_trials Toy.surface_size Toy.exp_data None None true
    = Ok naming ∧
    Strooper.gen_inhib_trials Toy.surface_size Toy.exp_data None false true
    = Ok inhib ∧
    Strooper.gen_switch_trials Toy.surface_size Toy.exp_data true
    = Ok switch ∧
    Strooper.get_all_possible_trials Toy.surface_size Toy.exp_data
    = Ok ([mkTrial "Trial_rest" NO_TRIGGER
             [rest_stim (NInt 0) Toy.exp_data "+"]]
          ++ naming ++ inhib ++ switch) ∧
    length ([mkTrial "Trial_rest" NO_TRIGGER
               [rest_stim (NInt 0) Toy.exp_data "+"]]
            ++ naming ++ inhib ++ switch) = 29%nat ∧
    NoDup (trial_label
             <$> [mkTrial "Trial_rest" NO_TRIGGER
                    [rest_stim (NInt 0) Toy.exp_data "+"]]
                 ++ naming ++ inhib ++ switch).
Proof.
  apply (get_all_possible_trials_catalog Toy.surface_size Toy.exp_data).
  left. reflexivity.
Defined.
